(** * Finance news pipeline: filter, dedupe, structure, store

    A shallow embedding of the four pipeline stages of the backend
    ([filter.py], [structurer.py], [db_loader.py]), of the run that chains
    them ([main.py]), and the properties the specification states about
    them.

    Conventions of the embedding:
    - Python text is a list of characters ([pystr]); the model is exact on
      ASCII text (case folding, white space and word characters are the ASCII
      ones; a non-ASCII character is the sequence of its UTF-8 bytes).
    - Library functions the repository only calls ([datetime.fromisoformat],
      [json.loads], the text generator, the clock, [uuid4], the network) are
      parameters or oracles of the definitions that use them.
    - Similarities are exact rationals: rounding of machine floats is not
      part of the model.
    - Code that can raise returns [option] or an explicit outcome. *)

From Stdlib Require Import List Ascii String ZArith QArith Bool Lia Permutation Sorted.
From stdpp Require Import gmap strings.
Import ListNotations.

Local Open Scope list_scope.
Local Open Scope bool_scope.

(* ===================================================================== *)
(** * Part I: the program                                                  *)
(* ===================================================================== *)

(** ** Python strings *)
Module PyStr.

Abbreviation pystr := (list ascii) (only parsing).

(** A literal of the source. *)
Definition str (s : string) : pystr := list_ascii_of_string s.

Definition code (c : ascii) : N := N_of_ascii c.

Definition in_range (lo hi : N) (c : ascii) : bool :=
  (lo <=? code c)%N && (code c <=? hi)%N.

Definition is_upper (c : ascii) : bool := in_range 65 90 c.
Definition is_lower (c : ascii) : bool := in_range 97 122 c.
Definition is_digit (c : ascii) : bool := in_range 48 57 c.
Definition is_alpha (c : ascii) : bool := is_upper c || is_lower c.

(** [str.isspace] on one character: TAB..CR, FS..US and the blank. *)
Definition is_space (c : ascii) : bool := in_range 9 13 c || in_range 28 32 c.

(** [\w] of the [re] module. *)
Definition is_word (c : ascii) : bool :=
  is_alpha c || is_digit c || (code c =? 95)%N.

Definition lower_char (c : ascii) : ascii :=
  if is_upper c then ascii_of_N (code c + 32) else c.

(** [s.lower()] *)
Definition lower (s : pystr) : pystr := map lower_char s.

Definition chr_eqb (a b : ascii) : bool := Ascii.eqb a b.

(** [s.startswith(p)] *)
Fixpoint startswith (p s : pystr) : bool :=
  match p, s with
  | [], _ => true
  | _ :: _, [] => false
  | a :: p', b :: s' => chr_eqb a b && startswith p' s'
  end.

(** [s.endswith(p)] *)
Definition endswith (p s : pystr) : bool := startswith (rev p) (rev s).

(** [sub in s] *)
Fixpoint contains (sub s : pystr) : bool :=
  startswith sub s ||
  match s with
  | [] => false
  | _ :: s' => contains sub s'
  end.

Fixpoint dropwhile (p : ascii -> bool) (s : pystr) : pystr :=
  match s with
  | [] => []
  | c :: s' => if p c then dropwhile p s' else s
  end.

(** [s.lstrip()], [s.rstrip()], [s.strip()] *)
Definition lstrip (s : pystr) : pystr := dropwhile is_space s.
Definition rstrip (s : pystr) : pystr := rev (dropwhile is_space (rev s)).
Definition strip (s : pystr) : pystr := rstrip (lstrip s).

(** [s.strip(chars)] for a one-character [chars]. *)
Definition strip_char (c : ascii) (s : pystr) : pystr :=
  rev (dropwhile (chr_eqb c) (rev (dropwhile (chr_eqb c) s))).

(** [s.replace(old, new)], [old] not empty: left to right, matches do not
    overlap. The fuel is the length of [s]; every step consumes a character. *)
Fixpoint replace_fuel (fuel : nat) (old new s : pystr) : pystr :=
  match fuel with
  | O => s
  | S fuel' =>
      match s with
      | [] => []
      | c :: s' =>
          if startswith old s
          then new ++ replace_fuel fuel' old new (skipn (length old) s)
          else c :: replace_fuel fuel' old new s'
      end
  end.

Definition replace (old new s : pystr) : pystr :=
  match old with
  | [] => s
  | _ :: _ => replace_fuel (length s) old new s
  end.

(** Truth value of a string: [if s:] *)
Definition truthy (s : pystr) : bool :=
  match s with [] => false | _ :: _ => true end.

(** An occurrence of [w] in [s] that is a whole word: not preceded and not
    followed by a word character. [prev] is the character before [s]. *)
Definition next_is_word (s : pystr) : bool :=
  match s with [] => false | c :: _ => is_word c end.

Definition prev_is_word (prev : option ascii) : bool :=
  match prev with None => false | Some c => is_word c end.



End PyStr.

(** ** The fragment of regular expressions the impact patterns use *)
Module Regex.
Import PyStr.

Inductive re : Type :=
| Eps                            (* the empty pattern *)
| Lit (c : ascii)                (* a character, compared without case *)
| Cls (p : ascii -> bool)        (* a character class *)
| Bnd                            (* \b *)
| Cat (r1 r2 : re)
| Alt (r1 r2 : re)
| Opt (r : re)                   (* r? *)
| Many1 (p : ascii -> bool).     (* [class]+ *)

(** Continuation-passing matcher: [k] receives the last character consumed
    (for [\b]) and the rest of the subject. Every alternative is explored, so
    the result says whether some match exists, as [re.search(...)] being
    truthy does. *)
Fixpoint many1 (p : ascii -> bool) (s : pystr)
    (k : option ascii -> pystr -> bool) : bool :=
  match s with
  | [] => false
  | c :: s' => p c && (many1 p s' k || k (Some c) s')
  end.

Fixpoint matches (r : re) (prev : option ascii) (s : pystr)
    (k : option ascii -> pystr -> bool) : bool :=
  match r with
  | Eps => k prev s
  | Lit c =>
      match s with
      | [] => false
      | x :: s' => chr_eqb (lower_char c) (lower_char x) && k (Some x) s'
      end
  | Cls p =>
      match s with
      | [] => false
      | x :: s' => p x && k (Some x) s'
      end
  | Bnd => xorb (prev_is_word prev) (next_is_word s) && k prev s
  | Cat r1 r2 => matches r1 prev s (fun prev' s' => matches r2 prev' s' k)
  | Alt r1 r2 => matches r1 prev s k || matches r2 prev s k
  | Opt r1 => matches r1 prev s k || k prev s
  | Many1 p => many1 p s k
  end.

Fixpoint search_from (r : re) (prev : option ascii) (s : pystr) : bool :=
  matches r prev s (fun _ _ => true) ||
  match s with
  | [] => false
  | c :: s' => search_from r (Some c) s'
  end.

(** [re.search(pat, s, flags=re.I)] is not [None] *)
Definition search (r : re) (s : pystr) : bool := search_from r None s.

(** Notation of the patterns. *)
Fixpoint lit (s : pystr) : re :=
  match s with
  | [] => Eps
  | [c] => Lit c
  | c :: s' => Cat (Lit c) (lit s')
  end.

Definition word (s : string) : re := lit (str s).

Fixpoint alts (rs : list re) : re :=
  match rs with
  | [] => Cls (fun _ => false)
  | [r] => r
  | r :: rs' => Alt r (alts rs')
  end.

Fixpoint cats (rs : list re) : re :=
  match rs with
  | [] => Eps
  | [r] => r
  | r :: rs' => Cat r (cats rs')
  end.

(** [class]{0,n} and [class]{lo,lo+n} *)
Fixpoint upto (p : ascii -> bool) (n : nat) : re :=
  match n with
  | O => Eps
  | S n' => Opt (Cat (Cls p) (upto p n'))
  end.

Fixpoint rep (p : ascii -> bool) (lo extra : nat) : re :=
  match lo with
  | O => upto p extra
  | S lo' => Cat (Cls p) (rep p lo' extra)
  end.

End Regex.

(** ** filter.py: relevance classifier *)
Module Filter.
Import PyStr Regex.

Definition SIM_THRESHOLD : Q := 70 # 100.
Definition MIN_TITLE_LEN : nat := 8.

(** The elements of the set [NEG_TITLE_KEYWORDS], in the order of the source
    text. A Python set has no fixed iteration order: the functions below take
    the order of iteration as an argument. *)
Definition NEG_TITLE_KEYWORDS : list pystr := map str
  [ (* entertainment / celebrity *)
    "movie"; "film"; "web series"; "trailer"; "box office"; "actor"; "actress";
    "bollywood"; "tollywood"; "kollywood"; "entertainment"; "celebrity";
    "music"; "album";
    (* sports *)
    "cricket"; "ipl"; "odi"; "t20"; "test match"; "football"; "fifa"; "tennis";
    "badminton"; "world cup"; "asia cup"; "olympics"; "scorecard";
    "match preview"; "match report";
    (* lifestyle / culture *)
    "recipe"; "travel"; "tourism"; "festival"; "fashion"; "beauty";
    "lifestyle"; "diet";
    (* generic how-to / viral *)
    "how to"; "tips and tricks"; "what is"; "explained"; "viral";
    (* pure politics *)
    "election"; "elections"; "minister"; "cabinet"; "parliament"; "assembly";
    "campaign"; "rally"; "politics"; "political"; "chief minister";
    "prime minister"; "pm"; "cm"; "mla"; "mp" ]%string.

Definition IMPACT_KEYWORDS : list pystr := map str
  [ (* markets / indices *)
    "stock"; "stocks"; "share"; "shares"; "market"; "markets"; "equity";
    "equities"; "nifty"; "sensex"; "bank nifty"; "nse"; "bse"; "index";
    "indices"; "intraday";
    (* corporate actions and events *)
    "ipo"; "fpo"; "buyback"; "dividend"; "split"; "bonus"; "rights issue";
    "delisting"; "merger"; "acquisition"; "stake"; "pledge"; "de-pledge";
    "board meeting";
    (* earnings / results / guidance *)
    "earnings"; "results"; "q1"; "q2"; "q3"; "q4"; "fy"; "profit"; "loss";
    "revenue"; "ebitda"; "margin"; "guidance"; "order book";
    (* policy / regulatory / macro *)
    "rbi"; "sebi"; "gst"; "customs duty"; "import duty"; "export duty";
    "tariff"; "fta"; "repo rate"; "inflation"; "gdp"; "iip"; "cci"; "crr";
    "slr";
    (* brokerages / targets / ratings *)
    "brokerage"; "target price"; "price target"; "rating"; "upgrade";
    "downgrade"; "overweight"; "underweight"; "buy"; "sell"; "accumulate";
    "hold"; "neutral";
    (* financing / capex / contracts *)
    "capex"; "debt"; "bond"; "ncd"; "maturity"; "refinance"; "order win";
    "contract"; "mou"; "approval"; "licence"; "license"; "patent";
    (* product / launch *)
    "launch"; "unveil"; "roll out"; "shipments"; "pre-orders"; "bookings" ]%string.

Definition one_of (cs : string) (c : ascii) : bool :=
  existsb (chr_eqb c) (str cs).

(** The rupee sign, as the bytes of its UTF-8 encoding. *)
Definition rupee : re :=
  cats [Lit (ascii_of_N 226); Lit (ascii_of_N 130); Lit (ascii_of_N 185)].

(** An optional plural [s]: [rises?] *)
Definition plural (s : string) : re := Cat (word s) (Opt (Lit "s"%char)).

Definition decimal : re :=
  Cat (Many1 is_digit) (Opt (Cat (Lit "."%char) (Many1 is_digit))).

Definition IMPACT_PATTERNS : list re :=
  [ (* \b[A-Z]{2,12}\.(NS|BO)\b *)
    cats [Bnd; rep is_alpha 2 10; Lit "."%char; alts [word "NS"; word "BO"]; Bnd];
    (* \b(NSE|BSE|Nifty|Sensex)\b *)
    cats [Bnd; alts [word "NSE"; word "BSE"; word "Nifty"; word "Sensex"]; Bnd];
    (* \b(up|down|rises?|falls?|surges?|slumps?|spikes?|tumbles?)\b *)
    cats [Bnd;
          alts [word "up"; word "down"; plural "rise"; plural "fall";
                plural "surge"; plural "slump"; plural "spike"; plural "tumble"];
          Bnd];
    (* \b\d+(\.\d+)?\s?%\b *)
    cats [Bnd; decimal; Opt (Cls is_space); Lit "%"%char; Bnd];
    (* (₹|rs\.?|inr)\s?\d+(\.\d+)?\s?(crore|cr|lakh|mn|bn)? *)
    cats [alts [rupee; Cat (word "rs") (Opt (Lit "."%char)); word "inr"];
          Opt (Cls is_space); decimal; Opt (Cls is_space);
          Opt (alts [word "crore"; word "cr"; word "lakh"; word "mn"; word "bn"])];
    (* \b(52[- ]week|all[- ]time)\s?(high|low)\b *)
    cats [Bnd;
          alts [cats [word "52"; Cls (one_of "- "); word "week"];
                cats [word "all"; Cls (one_of "- "); word "time"]];
          Opt (Cls is_space); alts [word "high"; word "low"]; Bnd];
    (* \b(ipo|fpo|qib|qip|of s|ofs)\b *)
    cats [Bnd;
          alts [word "ipo"; word "fpo"; word "qib"; word "qip"; word "of s";
                word "ofs"];
          Bnd] ].

(** [title_has_impact] *)
Definition title_has_impact (title : pystr) : bool :=
  let t := lower title in
  if existsb (fun k => contains k t) IMPACT_KEYWORDS then true
  else existsb (fun pat => search pat title) IMPACT_PATTERNS.

Definition reason (tag : string) (term : pystr) : pystr :=
  str tag ++ str "(" ++ term ++ str ")".

(** [title_should_keep]; [negs] is [NEG_TITLE_KEYWORDS] in the order the
    generator expression visits it. *)
Definition title_should_keep (negs : list pystr) (title : pystr) : bool * pystr :=
  let t := lower title in
  match List.find (fun neg => contains neg t) negs with
  | Some neg_hit =>
      if truthy neg_hit then
        if title_has_impact title
        then (true, reason "impact_exception" neg_hit)
        else (false, reason "negative_keyword" neg_hit)
      else (true, str "no_negative_match")
  | None => (true, str "no_negative_match")
  end.

(** *** Timestamps *)

(** A [datetime]: whether it carries a UTC offset, and its instant in
    microseconds (of UTC when aware, of its own wall clock when naive). *)
Record datetime := { aware : bool; micros : Z }.

(** [a == b] never raises: a naive and an aware value are unequal. *)
Definition dt_eq (a b : datetime) : bool :=
  Bool.eqb (aware a) (aware b) && (micros a =? micros b)%Z.

(** [a < b] raises [TypeError] between a naive and an aware value. *)
Definition dt_lt (a b : datetime) : option bool :=
  if Bool.eqb (aware a) (aware b) then Some (micros a <? micros b)%Z else None.

(** The clock: [clk n] is what the [n]-th call of [datetime.utcnow()] of the
    process returns; the number of calls made so far is threaded through. *)
Definition clock := nat -> Z.

Definition utcnow (clk : clock) (n : nat) : datetime * nat :=
  ({| aware := false; micros := clk n |}, S n).

Section Dedupe.

(** [datetime.fromisoformat]; [None] when it raises. *)
Variable fromisoformat : pystr -> option datetime.
Variable clk : clock.

(** One round of the loop of [parse_dt]: [None] for [continue]. *)
Definition parse_candidate (c : option pystr) : option datetime :=
  match c with
  | None => None
  | Some c =>
      if negb (truthy c) then None
      else if contains (str "+") c || endswith (str "Z") c
           then fromisoformat (replace (str "Z") (str "+00:00") c)
           else fromisoformat c
  end.

(** [parse_dt] *)
Definition parse_dt (iso_or_none fallback : option pystr) (n : nat)
  : datetime * nat :=
  match parse_candidate iso_or_none with
  | Some d => (d, n)
  | None =>
      match parse_candidate fallback with
      | Some d => (d, n)
      | None => utcnow clk n
      end
  end.

(** An item of the feed. [dt_pub] and [dt_fetch] are the scratch keys
    [_dt_pub] and [_dt_fetch] that [greedy_dedupe] writes into the item. *)
Record item := {
  it_id : option pystr;
  it_title : option pystr;
  it_url : option pystr;
  it_source : option pystr;
  published_at : option pystr;
  fetched_at : option pystr;
  dt_pub : option datetime;
  dt_fetch : option datetime
}.

Definition set_scratch (it : item) (p f : option datetime) : item :=
  {| it_id := it_id it; it_title := it_title it; it_url := it_url it;
     it_source := it_source it; published_at := published_at it;
     fetched_at := fetched_at it; dt_pub := p; dt_fetch := f |}.

(** The audit record of a dropped item. *)
Record dupe := {
  d_id : option pystr;
  d_title : option pystr;
  d_url : option pystr;
  d_source : option pystr;
  d_published_at : option pystr;
  duplicate_of : option pystr;
  duplicate_of_title : option pystr;
  cosine_similarity : Q
}.

Definition vec := list Q.

(** The sort key of an item and the comparison of two keys as Python compares
    tuples: the first components that are not [==] decide, by [<]. *)
Definition key : Type := datetime * datetime.

Definition key_lt (x y : key) : option bool :=
  if dt_eq (fst x) (fst y)
  then if dt_eq (snd x) (snd y) then Some false else dt_lt (snd x) (snd y)
  else dt_lt (fst x) (fst y).

(** First loop of [greedy_dedupe]: stamp one item, reading the clock when a
    timestamp is missing. *)
Definition stamp (it : item) (n : nat) : (key * item) * nat :=
  let '(p, n1) := parse_dt (published_at it) (fetched_at it) n in
  let '(f, n2) := parse_dt (fetched_at it) (fetched_at it) n1 in
  (((p, f), set_scratch it (Some p) (Some f)), n2).

Fixpoint stamp_all (items : list item) (n : nat) : list (key * item) :=
  match items with
  | [] => []
  | it :: rest => let '(ki, n') := stamp it n in ki :: stamp_all rest n'
  end.

(** [sorted(..., key=...)]: a stable ascending sort that only asks [<] of the
    keys. It is written as an insertion sort; a comparison that raises aborts
    it. When no comparison raises, every stable sort returns the same list. *)
Fixpoint insert_by {A : Type} (lt : A -> A -> option bool) (x : A) (l : list A)
  : option (list A) :=
  match l with
  | [] => Some [x]
  | y :: l' =>
      match lt x y with
      | None => None
      | Some true => Some (x :: l)
      | Some false =>
          match insert_by lt x l' with
          | Some r => Some (y :: r)
          | None => None
          end
      end
  end.

Definition sorted_by {A : Type} (lt : A -> A -> option bool) (l : list A)
  : option (list A) :=
  fold_left (fun acc x => match acc with
                          | Some r => insert_by lt x r
                          | None => None
                          end) l (Some []).

(** [kept_vectors @ e]: one dot product per kept vector. *)
Fixpoint dot (u v : vec) : Q :=
  match u, v with
  | a :: u', b :: v' => (a * b + dot u' v')%Q
  | _, _ => 0%Q
  end.

Definition sims (keptE : list vec) (e : vec) : list Q :=
  map (fun k => dot k e) keptE.

(** [np.argmax] and [np.max] in one pass: the first index of the maximum. *)
Fixpoint argmax_from (bi : nat) (best : Q) (i : nat) (l : list Q) : nat * Q :=
  match l with
  | [] => (bi, best)
  | x :: l' =>
      if Qle_bool x best then argmax_from bi best (S i) l'
      else argmax_from i x (S i) l'
  end.

Definition argmax (l : list Q) : nat * Q :=
  match l with
  | [] => (O, 0%Q)
  | x :: l' => argmax_from O x 1 l'
  end.

(** [round(mx, 4)]: to four decimals, ties to even. *)
Definition round4 (q : Q) : Q :=
  let n := (Qnum q * 10000)%Z in
  let d := Zpos (Qden q) in
  let fl := (n / d)%Z in
  let r2 := (2 * (n mod d))%Z in
  let up := if (r2 <? d)%Z then false
            else if (d <? r2)%Z then true
            else Z.odd fl in
  ((if up then fl + 1 else fl)%Z # 10000)%Q.

Definition mk_dupe (it canon : item) (mx : Q) : dupe :=
  {| d_id := it_id it; d_title := it_title it; d_url := it_url it;
     d_source := it_source it; d_published_at := published_at it;
     duplicate_of := it_id canon; duplicate_of_title := it_title canon;
     cosine_similarity := round4 mx |}.

(** The state of the scan: [kept], [keptE], [dupes]. *)
Definition scan_state : Type := list item * list vec * list dupe.

(** One iteration of the scan. [nth j kept it] is [kept[j]]: [j] is always a
    valid index, the two lists grow together. *)
Definition scan_step (thr : Q) (st : scan_state) (x : item * vec) : scan_state :=
  let '(kept, keptE, dupes) := st in
  let '(it, e) := x in
  match keptE with
  | [] => (kept ++ [it], keptE ++ [e], dupes)
  | _ :: _ =>
      let '(j, mx) := argmax (sims keptE e) in
      if Qle_bool thr mx
      then (kept, keptE, dupes ++ [mk_dupe it (nth j kept it) mx])
      else (kept ++ [it], keptE ++ [e], dupes)
  end.

Definition scan (thr : Q) (order : list (item * vec)) : scan_state :=
  fold_left (scan_step thr) order ([], [], []).

(** The order of evaluation: the stamped items with their vectors, sorted by
    key. [embs[idxs, :]] raises when there are fewer rows than items. *)
Definition evaluation_order (items : list item) (embs : list vec) (n : nat)
  : option (list (key * (item * vec))) :=
  if (length items <=? length embs)%nat
  then sorted_by (fun x y => key_lt (fst x) (fst y))
         (map (fun '((k, it), e) => (k, (it, e)))
              (combine (stamp_all items n) embs))
  else None.

(** [greedy_dedupe]; [n] is the number of clock readings made before the
    call, [None] stands for an exception. The kept items are returned with
    the two scratch keys removed; a dropped item keeps them in the caller's
    list, where the next call overwrites them before it reads them. *)
Definition greedy_dedupe (items : list item) (embs : list vec) (thr : Q)
    (n : nat) : option (list item * list dupe) :=
  match evaluation_order items embs n with
  | None => None
  | Some order =>
      let '(kept, _, dupes) := scan thr (map snd order) in
      Some (map (fun it => set_scratch it None None) kept, dupes)
  end.

End Dedupe.

(** *** A reading of [datetime.fromisoformat] for the examples

    The layout [YYYY-MM-DDTHH:MM:SS], optionally followed by an offset
    [+HH:MM] or [-HH:MM], which is what [isoformat()] prints for whole
    seconds. Other text is rejected here. The general results below hold for
    every parser; this one only feeds the worked examples. *)
Definition digit_val (c : ascii) : option Z :=
  if is_digit c then Some (Z.of_N (code c) - 48)%Z else None.

Fixpoint number (ds : pystr) (acc : Z) : option Z :=
  match ds with
  | [] => Some acc
  | c :: ds' =>
      match digit_val c with
      | Some d => number ds' (acc * 10 + d)%Z
      | None => None
      end
  end.

(** [n] digits, then the character [sep] when one is given. *)
Definition field (n : nat) (sep : option ascii) (s : pystr)
  : option (Z * pystr) :=
  if (length s <? n)%nat then None
  else
    match number (firstn n s) 0 with
    | None => None
    | Some v =>
        match sep, skipn n s with
        | None, rest => Some (v, rest)
        | Some c, x :: rest => if chr_eqb c x then Some (v, rest) else None
        | Some _, [] => None
        end
    end.

Definition is_leap (y : Z) : bool :=
  ((y mod 4 =? 0) && negb (y mod 100 =? 0) || (y mod 400 =? 0))%Z.

Definition days_in_month (y m : Z) : Z :=
  if (m =? 2)%Z then (if is_leap y then 29 else 28)%Z
  else if ((m =? 4) || (m =? 6) || (m =? 9) || (m =? 11))%Z then 30%Z
  else 31%Z.

(** Days from 1970-01-01 to the given civil date. *)
Definition days_from_civil (y m d : Z) : Z :=
  let y' := (if m <=? 2 then y - 1 else y)%Z in
  let era := (y' / 400)%Z in
  let yoe := (y' - era * 400)%Z in
  let mp := (if 2 <? m then m - 3 else m + 9)%Z in
  let doy := ((153 * mp + 2) / 5 + d - 1)%Z in
  let doe := (yoe * 365 + yoe / 4 - yoe / 100 + doy)%Z in
  (era * 146097 + doe - 719468)%Z.

Definition offset_of (s : pystr) : option (option Z) :=
  match s with
  | [] => Some None
  | sign :: rest =>
      let sg := if chr_eqb sign "+"%char then Some 1%Z
                else if chr_eqb sign "-"%char then Some (-1)%Z else None in
      match sg, field 2 (Some ":"%char) rest with
      | Some sg, Some (hh, rest') =>
          match field 2 None rest' with
          | Some (mm, []) =>
              if ((hh <? 24) && (mm <? 60))%Z
              then Some (Some (sg * (hh * 3600 + mm * 60)))%Z
              else None
          | _ => None
          end
      | _, _ => None
      end
  end.

Definition fromisoformat_basic (s : pystr) : option datetime :=
  match field 4 (Some "-"%char) s with
  | Some (y, s1) =>
  match field 2 (Some "-"%char) s1 with
  | Some (mo, s2) =>
  match field 2 (Some "T"%char) s2 with
  | Some (d, s3) =>
  match field 2 (Some ":"%char) s3 with
  | Some (h, s4) =>
  match field 2 (Some ":"%char) s4 with
  | Some (mi, s5) =>
  match field 2 None s5 with
  | Some (se, s6) =>
      if ((1 <=? y) && (1 <=? mo) && (mo <=? 12) && (1 <=? d)
          && (d <=? days_in_month y mo) && (h <? 24) && (mi <? 60)
          && (se <? 60))%Z
      then
        let secs := (days_from_civil y mo d * 86400 + h * 3600 + mi * 60 + se)%Z in
        match offset_of s6 with
        | Some None => Some {| aware := false; micros := secs * 1000000 |}
        | Some (Some off) =>
            Some {| aware := true; micros := (secs - off) * 1000000 |}
        | None => None
        end
      else None
  | None => None end
  | None => None end
  | None => None end
  | None => None end
  | None => None end
  | None => None end.

End Filter.

(** ** Values and effects shared by the later stages *)
Module Py.
Import PyStr.

(** What [json.loads] returns. *)
#[warnings="-register-all"]
Inductive json : Type :=
| JNull
| JBool (b : bool)
| JNum (q : Q)
| JStr (s : pystr)
| JArr (l : list json)
| JObj (l : list (pystr * json)).

Definition is_null (j : json) : bool :=
  match j with JNull => true | _ => false end.

(** What the pipeline does to the world besides returning: it sleeps, and it
    leaves unparsable replies in side files. *)
Inductive event : Type :=
| Sleep (ms : Z)
| Archive (raw : pystr).

End Py.

(** ** structurer.py: replies of the text generator *)
Module Structurer.
Import PyStr Py.

Definition quote : ascii := ascii_of_N 34.
Definition backslash : ascii := ascii_of_N 92.
Definition lbrace : ascii := "{"%char.
Definition rbrace : ascii := "}"%char.
Definition rbracket : ascii := "]"%char.
Definition comma : ascii := ","%char.
Definition backtick : ascii := "`"%char.

(** A literal of the examples in which ['] stands for the double quote. *)
Definition js (s : string) : pystr :=
  map (fun c => if chr_eqb c "'"%char then quote else c) (str s).

(** The loop of [_extract_json_braces] from index [start] on; the result is
    the text from [start] to the brace that closes the first one. *)
Fixpoint brace_scan (depth : Z) (in_string esc : bool) (s : pystr)
  : option pystr :=
  match s with
  | [] => None
  | ch :: s' =>
      let continue (depth : Z) (in_string esc : bool) :=
        match brace_scan depth in_string esc s' with
        | Some r => Some (ch :: r)
        | None => None
        end in
      if in_string then
        if esc then continue depth true false
        else if chr_eqb ch backslash then continue depth true true
        else if chr_eqb ch quote then continue depth false esc
        else continue depth true esc
      else
        if chr_eqb ch quote then continue depth true esc
        else if chr_eqb ch lbrace then continue (depth + 1)%Z false esc
        else if chr_eqb ch rbrace then
          if (depth - 1 =? 0)%Z then Some [ch]
          else continue (depth - 1)%Z false esc
        else continue depth false esc
  end.

(** [_extract_json_braces] *)
Definition _extract_json_braces (s : pystr) : option pystr :=
  if negb (truthy s) then None
  else
    match dropwhile (fun c => negb (chr_eqb c lbrace)) s with
    | [] => None                              (* s.find("{") == -1 *)
    | from_start => brace_scan 0 false false from_start
    end.

(** [_strip_code_fences] *)
Definition _strip_code_fences (s : pystr) : pystr :=
  let s := strip s in
  let s := if startswith (str "```") s then strip (strip_char backtick s) else s in
  if startswith (str "json") (lower s) then lstrip (skipn 4 s) else s.

(** [re.sub(r",\s*([}\]])", r"\1", s)]: a comma, the white space after it and
    nothing else are dropped when a closing brace or bracket follows.
    [skipping] is set between such a comma and its closer. *)
Definition is_closer (c : ascii) : bool := chr_eqb c rbrace || chr_eqb c rbracket.

Definition closer_follows (s : pystr) : bool :=
  match dropwhile is_space s with
  | [] => false
  | c :: _ => is_closer c
  end.

Fixpoint strip_trailing_commas_from (skipping : bool) (s : pystr) : pystr :=
  match s with
  | [] => []
  | c :: s' =>
      if skipping then
        if is_space c then strip_trailing_commas_from true s'
        else c :: strip_trailing_commas_from false s'
      else if chr_eqb c comma && closer_follows s'
      then strip_trailing_commas_from true s'
      else c :: strip_trailing_commas_from false s'
  end.

Definition strip_trailing_commas (s : pystr) : pystr :=
  strip_trailing_commas_from false s.

Section Replies.

(** [json.loads]; [None] when it raises. *)
Variable json_loads : pystr -> option json.

(** Whether writing the side file succeeds; a failure is swallowed. *)
Variable disk_ok : bool.

Definition archive (raw : pystr) : list event :=
  if disk_ok then [Archive raw] else [].

(** A Python result that may be [None]: the value [null] parses to [None]. *)
Definition py_return (v : json) : option json :=
  if is_null v then None else Some v.

(** [json_from_text]: the object, or [None]; and the side files written. *)
Definition json_from_text (raw : pystr) : option json * list event :=
  if negb (truthy raw) then (None, [])
  else
    let s := _strip_code_fences raw in
    match json_loads s with
    | Some v => (py_return v, [])                         (* 1) strict parse *)
    | None =>
        match _extract_json_braces s with                 (* 2) first {...} *)
        | Some obj_str =>
            if truthy obj_str then
              match json_loads obj_str with
              | Some v => (py_return v, [])
              | None =>
                  let cleaned := strip_trailing_commas obj_str in   (* 3) *)
                  match json_loads cleaned with
                  | Some v => (py_return v, [])
                  | None => (None, archive raw)
                  end
              end
            else (None, archive raw)
        | None => (None, archive raw)
        end
    end.

(** The input of the stage: an item that survived the filter. *)
Record item := {
  it_id : option pystr;
  it_title : option pystr;
  it_body : option pystr;
  it_source : option pystr;
  it_url : option pystr;
  it_published_at : option pystr;
  it_fetched_at : option pystr
}.

(** [call_gemini]: the reply to the [n]-th request of the process. The source
    catches the errors of the client there and returns them as text behind
    the marker [__GENAI_EXCEPTION__:]. *)
Variable call_gemini : nat -> item -> pystr.

(** Lines 424-437 of [_structure_one]: the mapping of [article_id], the
    defaults taken from the item and [coerce_and_validate]; [inl msg] when one
    of them raises, [msg] being [str(e)]. *)
Variable normalize : item -> json -> pystr + json.

Definition GENAI_MARK : pystr := str "__GENAI_EXCEPTION__".

(** The body of the [try] of [_structure_one], for request number [n]. *)
Definition attempt_once (it : item) (n : nat) : (pystr + json) * list event :=
  let raw := call_gemini n it in
  if startswith GENAI_MARK raw
  then (inl (replace (str "__GENAI_EXCEPTION__:") [] raw), [])
  else
    match json_from_text raw with
    | (None, ev) => (inl (str "LLM did not return valid JSON."), ev)
    | (Some obj, ev) => (normalize it obj, ev)
    end.

(** [for attempt in range(2)]: [todo] iterations are left, [n] requests were
    made before, [log] is what happened so far. *)
Fixpoint attempts (todo attempt : nat) (it : item) (n : nat)
    (log : list event) (last_err : pystr)
  : (pystr + json) * nat * list event :=
  match todo with
  | O =>
      (inl (if truthy last_err then last_err
            else str "Unknown structuring error"), n, log)
  | S todo' =>
      match attempt_once it n with
      | (inr obj, ev) => (inr obj, S n, log ++ ev)
      | (inl err, ev) =>
          if (attempt =? 0)%nat
          then attempts todo' (S attempt) it (S n) (log ++ ev ++ [Sleep 600]) err
          else (inl err, S n, log ++ ev)
      end
  end.

(** [_structure_one]: [inl msg] for [raise RuntimeError(msg)]. *)
Definition _structure_one (it : item) (n : nat)
  : (pystr + json) * nat * list event :=
  attempts 2 0 it n [] [].

Record error_record := {
  e_id : option pystr;
  e_title : option pystr;
  e_url : option pystr;
  e_error : pystr
}.

Record batch := {
  structured : list json;
  errors : list error_record;
  requests : nat;
  log : list event
}.

(** One round of the loop of [structure]. *)
Definition structure_step (b : batch) (it : item) : batch :=
  match _structure_one it (requests b) with
  | (inr obj, n', ev) =>
      {| structured := structured b ++ [obj]; errors := errors b;
         requests := n'; log := log b ++ ev ++ [Sleep 200] |}
  | (inl msg, n', ev) =>
      {| structured := structured b;
         errors := errors b ++ [{| e_id := it_id it; e_title := it_title it;
                                   e_url := it_url it; e_error := msg |}];
         requests := n'; log := log b ++ ev ++ [Sleep 200] |}
  end.

(** [structure], with a client at hand; [n] requests were made before. The
    function returns [structured] and writes [errors] to a file of its own. *)
Definition structure (items : list item) (n : nat) : batch :=
  fold_left structure_step items
    {| structured := []; errors := []; requests := n; log := [] |}.

End Replies.

(** *** A reading of [json.loads] for the examples

    Objects, arrays, strings with the one-character escapes, integers and
    decimal fractions, [true], [false] and [null], with white space between
    the tokens. The general results below hold for every parser; this one
    only feeds the worked examples. *)
Definition is_json_ws (c : ascii) : bool :=
  chr_eqb c " "%char || in_range 9 10 c || (code c =? 13)%N.

Definition skip_ws (s : pystr) : pystr := dropwhile is_json_ws s.

Definition unescape (c : ascii) : option ascii :=
  if chr_eqb c quote then Some quote
  else if chr_eqb c backslash then Some backslash
  else if chr_eqb c "/"%char then Some "/"%char
  else if chr_eqb c "n"%char then Some (ascii_of_N 10)
  else if chr_eqb c "t"%char then Some (ascii_of_N 9)
  else if chr_eqb c "r"%char then Some (ascii_of_N 13)
  else if chr_eqb c "b"%char then Some (ascii_of_N 8)
  else if chr_eqb c "f"%char then Some (ascii_of_N 12)
  else None.

(** After the opening quote: the text of the string and what follows it. *)
Fixpoint parse_string (s acc : pystr) : option (pystr * pystr) :=
  match s with
  | [] => None
  | c :: s' =>
      if chr_eqb c quote then Some (rev acc, s')
      else if chr_eqb c backslash then
        match s' with
        | [] => None
        | x :: s'' =>
            match unescape x with
            | Some y => parse_string s'' (y :: acc)
            | None => None
            end
        end
      else if (code c <? 32)%N then None
      else parse_string s' (c :: acc)
  end.

Fixpoint digits (s : pystr) (acc : Z) (n : nat) : Z * nat * pystr :=
  match s with
  | c :: s' =>
      if is_digit c then digits s' (acc * 10 + (Z.of_N (code c) - 48))%Z (S n)
      else (acc, n, s)
  | [] => (acc, n, s)
  end.

Definition parse_number (s : pystr) : option (Q * pystr) :=
  let '(neg, s1) := match s with
                    | c :: s' => if chr_eqb c "-"%char then (true, s') else (false, s)
                    | [] => (false, s)
                    end in
  let '(int, n, s2) := digits s1 0 0 in
  if (n =? 0)%nat then None
  else
    let sign := fun q : Q => if neg then Qopp q else q in
    match s2 with
    | c :: s3 =>
        if chr_eqb c "."%char then
          let '(fr, m, s4) := digits s3 0 0 in
          if (m =? 0)%nat then None
          else Some (sign (Qmake (int * 10 ^ Z.of_nat m + fr)
                                 (Pos.pow 10 (Pos.of_nat m))), s4)
        else Some (sign (inject_Z int), s2)
    | [] => Some (sign (inject_Z int), s2)
    end.

Definition keyword (w : string) (v : json) (s : pystr) : option (json * pystr) :=
  if startswith (str w) s then Some (v, skipn (String.length w) s) else None.

Fixpoint parse_value (fuel : nat) (s : pystr) : option (json * pystr) :=
  match fuel with
  | O => None
  | S fuel' =>
      match skip_ws s with
      | [] => None
      | c :: rest =>
          if chr_eqb c lbrace then
            match skip_ws rest with
            | d :: rest' =>
                if chr_eqb d rbrace then Some (JObj [], rest')
                else match parse_members fuel' (skip_ws rest) [] with
                     | Some (m, r) => Some (JObj m, r)
                     | None => None
                     end
            | [] => None
            end
          else if chr_eqb c "["%char then
            match skip_ws rest with
            | d :: rest' =>
                if chr_eqb d rbracket then Some (JArr [], rest')
                else match parse_elements fuel' rest [] with
                     | Some (l, r) => Some (JArr l, r)
                     | None => None
                     end
            | [] => None
            end
          else if chr_eqb c quote then
            match parse_string rest [] with
            | Some (t, r) => Some (JStr t, r)
            | None => None
            end
          else if chr_eqb c "t"%char then keyword "true" (JBool true) (c :: rest)
          else if chr_eqb c "f"%char then keyword "false" (JBool false) (c :: rest)
          else if chr_eqb c "n"%char then keyword "null" JNull (c :: rest)
          else match parse_number (c :: rest) with
               | Some (q, r) => Some (JNum q, r)
               | None => None
               end
      end
  end
with parse_elements (fuel : nat) (s : pystr) (acc : list json)
  : option (list json * pystr) :=
  match fuel with
  | O => None
  | S fuel' =>
      match parse_value fuel' s with
      | None => None
      | Some (v, r) =>
          match skip_ws r with
          | c :: r' =>
              if chr_eqb c rbracket then Some (rev (v :: acc), r')
              else if chr_eqb c comma then parse_elements fuel' r' (v :: acc)
              else None
          | [] => None
          end
      end
  end
with parse_members (fuel : nat) (s : pystr) (acc : list (pystr * json))
  : option (list (pystr * json) * pystr) :=
  match fuel with
  | O => None
  | S fuel' =>
      match s with
      | q :: s1 =>
          if chr_eqb q quote then
            match parse_string s1 [] with
            | None => None
            | Some (k, s2) =>
                match skip_ws s2 with
                | c :: s3 =>
                    if chr_eqb c ":"%char then
                      match parse_value fuel' s3 with
                      | None => None
                      | Some (v, r) =>
                          match skip_ws r with
                          | d :: r' =>
                              if chr_eqb d rbrace
                              then Some (rev ((k, v) :: acc), r')
                              else if chr_eqb d comma
                              then parse_members fuel' (skip_ws r') ((k, v) :: acc)
                              else None
                          | [] => None
                          end
                      end
                    else None
                | [] => None
                end
            end
          else None
      | [] => None
      end
  end.

Definition json_loads_basic (s : pystr) : option json :=
  match parse_value (S (length s)) s with
  | Some (v, rest) =>
      match skip_ws rest with
      | [] => Some v
      | _ :: _ => None
      end
  | None => None
  end.

End Structurer.

(** ** db_loader.py: the store *)
Module DbLoader.
Import PyStr Py.

(** A field of a document: a JSON value or a [datetime] (kept in
    microseconds; the loader only writes naive ones). *)
Inductive value : Type :=
| VJson (j : json)
| VTime (micros : Z).

Definition VStr (s : pystr) : value := VJson (JStr s).

(** A document maps field names to values; a collection maps [_id]s to
    documents. *)
Definition HORIZON : Z := 36 * 3600 * 1000000.   (* timedelta(hours=36) *)

(** [_make_doc]; [uuid] is what [uuid.uuid4()] returns if it is called and
    [now] what [datetime.utcnow()] returns. *)
Definition _make_doc (raw : gmap string value) (uuid : pystr) (now : Z)
  : gmap string value :=
  let doc := delete "entities"%string raw in
  let _id :=
    match doc !! "id"%string with
    | Some (VJson (JStr s)) => if truthy (strip s) then s else uuid
    | _ => uuid
    end in
  let doc := <["_id"%string := VStr _id]> doc in
  let doc := <["article_id"%string := VStr _id]> doc in
  let doc := <["stored_at"%string := VTime now]> doc in
  <["expires_at"%string := VTime (now + HORIZON)]> doc.

(** What the server does on [update_one({"_id": k}, {"$set": to_set},
    upsert=True)], and the [matched_count] and [upserted_id] it reports: the
    fields of [to_set] are written over the document with that key, or a new
    document is made of the key and [to_set]. *)
Definition update_one (coll : gmap pystr (gmap string value)) (k : pystr)
    (to_set : gmap string value)
  : gmap pystr (gmap string value) * (nat * option pystr) :=
  match coll !! k with
  | Some old => (<[k := to_set ∪ old]> coll, (1%nat, None))
  | None => (<[k := <["_id"%string := VStr k]> to_set]> coll, (0%nat, Some k))
  end.

Inductive status := inserted | updated.

(** The update payload of [_upsert_one]: [to_set = dict(doc)] without
    [_id]. *)
Definition to_set (doc : gmap string value) : gmap string value :=
  delete "_id"%string doc.

(** [_upsert_one]; [None] when [doc["_id"]] raises. *)
Definition _upsert_one (coll : gmap pystr (gmap string value))
    (doc : gmap string value)
  : option (gmap pystr (gmap string value) * status) :=
  match doc !! "_id"%string with
  | Some (VJson (JStr k)) =>
      let '(coll', (matched_count, upserted_id)) :=
        update_one coll k (to_set doc) in
      Some (coll',
            if (matched_count =? 0)%nat && bool_decide (is_Some upserted_id)
            then inserted else updated)
  | _ => None
  end.

(** The surroundings of one call of [save]. *)
Record env := {
  MONGO_FALLBACK_URI : pystr;
  ping_primary : nat -> bool;    (* does connection attempt number k succeed *)
  ping_fallback : bool;          (* does the fallback answer *)
  ensure_collection_raises : bool;
  doc_uuid : nat -> pystr;       (* per document of the batch, by position *)
  doc_now : nat -> Z;
  doc_raises : nat -> bool       (* building or writing the document raises *)
}.

Inductive target := primary | fallback.

(** The two servers a call may reach. *)
Record stores := {
  on_primary : gmap pystr (gmap string value);
  on_fallback : gmap pystr (gmap string value)
}.

Definition coll_of (t : target) (w : stores) : gmap pystr (gmap string value) :=
  match t with primary => on_primary w | fallback => on_fallback w end.

Definition set_coll (t : target) (c : gmap pystr (gmap string value))
    (w : stores) : stores :=
  match t with
  | primary => {| on_primary := c; on_fallback := on_fallback w |}
  | fallback => {| on_primary := on_primary w; on_fallback := c |}
  end.

Definition max_attempts : nat := 4.

(** The [while] loop of [save]: [todo] bounds the iterations left. *)
Fixpoint connect_loop (e : env) (todo attempts : nat) (backoff : Z)
    (log : list event) : option target * list event :=
  match todo with
  | O => (None, log)
  | S todo' =>
      if (attempts <? max_attempts)%nat then
        let attempts := S attempts in
        if ping_primary e attempts then (Some primary, log)
        else if (attempts <? max_attempts)%nat
             then connect_loop e todo' attempts (backoff * 2)%Z
                    (log ++ [Sleep backoff])
             else connect_loop e todo' attempts backoff log
      else (None, log)
  end.

Definition connect (e : env) : option target * list event :=
  match connect_loop e max_attempts 0 2000 [] with
  | (Some t, log) => (Some t, log)
  | (None, log) =>
      if truthy (MONGO_FALLBACK_URI e) && ping_fallback e
      then (Some fallback, log)
      else (None, log)
  end.

Record summary := { ins : nat; upd : nat; fail : nat }.

(** The [for raw in items] loop; [i] is the position of the next document. *)
Fixpoint write_all (e : env) (items : list (gmap string value)) (i : nat)
    (coll : gmap pystr (gmap string value)) (acc : summary)
  : gmap pystr (gmap string value) * summary :=
  match items with
  | [] => (coll, acc)
  | raw :: rest =>
      let failed := {| ins := ins acc; upd := upd acc; fail := S (fail acc) |} in
      if doc_raises e i then write_all e rest (S i) coll failed
      else
        match _upsert_one coll (_make_doc raw (doc_uuid e i) (doc_now e i)) with
        | Some (coll', inserted) =>
            write_all e rest (S i) coll'
              {| ins := S (ins acc); upd := upd acc; fail := fail acc |}
        | Some (coll', updated) =>
            write_all e rest (S i) coll'
              {| ins := ins acc; upd := S (upd acc); fail := fail acc |}
        | None => write_all e rest (S i) coll failed
        end
  end.

Inductive outcome := Returned (n : nat) | Raised.

Record saved := {
  result : outcome;
  counts : summary;
  after : stores;
  slept : list event
}.

(** [save] *)
Definition save (e : env) (w : stores) (items : list (gmap string value))
  : saved :=
  let zero := {| ins := 0; upd := 0; fail := 0 |} in
  match items with
  | [] => {| result := Returned 0; counts := zero; after := w; slept := [] |}
  | _ :: _ =>
      match connect e with
      | (None, log) =>
          {| result := Returned 0; counts := zero; after := w; slept := log |}
      | (Some t, log) =>
          if ensure_collection_raises e
          then {| result := Raised; counts := zero; after := w; slept := log |}
          else
            let '(coll, c) := write_all e items 0 (coll_of t w) zero in
            {| result := Returned (ins c + upd c); counts := c;
               after := set_coll t coll w; slept := log |}
      end
  end.

End DbLoader.

(* ===================================================================== *)
(** * Part II: the properties                                              *)
(* ===================================================================== *)

(** ** Facts about strings *)
Module PyStrFacts.
Import PyStr.

(** [sub] occurs in [s] as a substring. *)
Definition occurs (sub s : pystr) : Prop :=
  exists pre post, s = pre ++ sub ++ post.

Lemma chr_eqb_eq (a b : ascii) : chr_eqb a b = true <-> a = b.
Proof. unfold chr_eqb. apply Ascii.eqb_eq. Qed.

Lemma chr_eqb_refl (a : ascii) : chr_eqb a a = true.
Proof. apply chr_eqb_eq. reflexivity. Qed.

Lemma chr_eqb_neq (a b : ascii) : chr_eqb a b = false <-> a <> b.
Proof.
  unfold chr_eqb. split.
  - intros H E. subst. rewrite Ascii.eqb_refl in H. discriminate.
  - intros H. destruct (Ascii.eqb a b) eqn:E; [|reflexivity].
    apply Ascii.eqb_eq in E. contradiction.
Qed.

Lemma startswith_spec (p s : pystr) :
  startswith p s = true <-> exists post, s = p ++ post.
Proof.
  revert s. induction p as [|a p IH]; intros s; simpl.
  - split; [intros _; exists s; reflexivity | reflexivity].
  - destruct s as [|b s].
    + split; [discriminate | intros [post H]; discriminate].
    + rewrite andb_true_iff, chr_eqb_eq, IH. split.
      * intros [-> [post ->]]. exists post. reflexivity.
      * intros [post H]. injection H as -> ->. split; [reflexivity | eauto].
Qed.

Lemma startswith_app (p s : pystr) : startswith p (p ++ s) = true.
Proof. apply startswith_spec. eauto. Qed.

Lemma contains_spec (sub s : pystr) : contains sub s = true <-> occurs sub s.
Proof.
  unfold occurs. induction s as [|c s IH].
  - simpl. rewrite orb_false_r, startswith_spec. split.
    + intros [post H]. exists [], post. exact H.
    + intros [pre [post H]]. destruct pre; [eauto | discriminate].
  - cbn [contains]. rewrite orb_true_iff, startswith_spec, IH. split.
    + intros [[post H] | [pre [post H]]].
      * exists [], post. exact H.
      * exists (c :: pre), post. rewrite H. reflexivity.
    + intros [pre [post H]]. destruct pre as [|x pre].
      * left. exists post. exact H.
      * right. injection H as _ H. eauto.
Qed.

Lemma contains_false (sub s : pystr) : contains sub s = false <-> ~ occurs sub s.
Proof.
  rewrite <- contains_spec. destruct (contains sub s); split; intros H;
    try reflexivity; try discriminate; try (intros E; discriminate).
  exfalso. apply H. reflexivity.
Qed.

(** Membership in a list of literals, by computation. *)
Definition pystr_eqb (a b : pystr) : bool :=
  if List.list_eq_dec ascii_dec a b then true else false.

Lemma in_compute (x : pystr) (l : list pystr) :
  existsb (pystr_eqb x) l = true -> In x l.
Proof.
  intros H. apply existsb_exists in H. destruct H as [y [Hin Hy]].
  unfold pystr_eqb in Hy. destruct (List.list_eq_dec ascii_dec x y); [|discriminate].
  subst. exact Hin.
Qed.

End PyStrFacts.

(** ** The relevance classifier *)
Module FilterFacts.
Import PyStr Regex Filter PyStrFacts.




(** The sets were written without repetition. *)
Lemma neg_keywords_nodup : List.NoDup NEG_TITLE_KEYWORDS.
Proof.
  apply (List.NoDup_count_occ' (List.list_eq_dec ascii_dec)).
  assert (H : forallb (fun x =>
              (count_occ (List.list_eq_dec ascii_dec) NEG_TITLE_KEYWORDS x =? 1)%nat)
              NEG_TITLE_KEYWORDS = true) by (vm_compute; reflexivity).
  rewrite forallb_forall in H. intros x Hx. apply Nat.eqb_eq, H, Hx.
Qed.









End FilterFacts.

(** ** The duplicate detector *)
Module DedupeFacts.
Import PyStr Filter PyStrFacts.

Local Open Scope Q_scope.

(** *** The maximum and its index *)

Lemma argmax_from_spec (l p : list Q) (bi : nat) (best : Q) :
  nth_error p bi = Some best ->
  (forall x, In x p -> x <= best) ->
  (forall k x, (k < bi)%nat -> nth_error p k = Some x -> x < best) ->
  forall j mx, argmax_from bi best (length p) l = (j, mx) ->
    nth_error (p ++ l) j = Some mx /\
    (forall x, In x (p ++ l) -> x <= mx) /\
    (forall k x, (k < j)%nat -> nth_error (p ++ l) k = Some x -> x < mx).
Proof.
  revert p bi best. induction l as [|y l IH]; intros p bi best Hnth Hmax Hfirst j mx E.
  - simpl in E. injection E as <- <-. rewrite app_nil_r. auto.
  - simpl in E. destruct (Qle_bool y best) eqn:Hle.
    + apply Qle_bool_iff in Hle.
      replace (p ++ y :: l) with ((p ++ [y]) ++ l) by (rewrite <- app_assoc; reflexivity).
      apply (IH (p ++ [y]) bi best).
      * rewrite nth_error_app1; [assumption |].
        apply nth_error_Some. congruence.
      * intros x Hx. apply in_app_or in Hx. destruct Hx as [Hx | [<- | []]]; auto.
      * intros k x Hk Hx.
        assert (Hlt : (bi < length p)%nat) by (apply nth_error_Some; congruence).
        rewrite nth_error_app1 in Hx by lia. eauto.
      * rewrite length_app. simpl. rewrite Nat.add_1_r. exact E.
    + assert (Hlt : best < y).
      { apply Qnot_le_lt. intros H. apply Qle_bool_iff in H. congruence. }
      replace (p ++ y :: l) with ((p ++ [y]) ++ l) by (rewrite <- app_assoc; reflexivity).
      apply (IH (p ++ [y]) (length p) y).
      * rewrite nth_error_app2 by lia. rewrite Nat.sub_diag. reflexivity.
      * intros x Hx. apply in_app_or in Hx. destruct Hx as [Hx | [<- | []]].
        -- apply Qlt_le_weak. eapply Qle_lt_trans; [apply Hmax, Hx | exact Hlt].
        -- apply Qle_refl.
      * intros k x Hk Hx. rewrite nth_error_app1 in Hx by lia.
        eapply Qle_lt_trans; [| exact Hlt]. apply Hmax.
        eapply nth_error_In, Hx.
      * rewrite length_app. simpl. rewrite Nat.add_1_r. exact E.
Qed.

(** [argmax] returns the first position of the largest entry. *)
Lemma argmax_spec (l : list Q) (j : nat) (mx : Q) :
  l <> [] -> argmax l = (j, mx) ->
  nth_error l j = Some mx /\
  (forall x, In x l -> x <= mx) /\
  (forall k x, (k < j)%nat -> nth_error l k = Some x -> x < mx).
Proof.
  destruct l as [|x l]; [congruence |]. intros _ E. simpl in E.
  apply (argmax_from_spec l [x] 0%nat x); simpl; auto.
  - intros y [<- | []]. apply Qle_refl.
  - intros k y Hk. lia.
Qed.

Lemma sims_length (keptE : list vec) (e : vec) :
  length (sims keptE e) = length keptE.
Proof. unfold sims. apply length_map. Qed.

(** *** The scan *)

(** The two lists of the scan grow together. *)
Definition parallel (st : scan_state) : Prop :=
  let '(kept, keptE, _) := st in length kept = length keptE.

Lemma scan_step_parallel (thr : Q) (st : scan_state) (x : item * vec) :
  parallel st -> parallel (scan_step thr st x).
Proof.
  destruct st as [[kept keptE] dupes], x as [it e]. unfold parallel, scan_step.
  intros H. destruct keptE as [|v keptE].
  - rewrite !length_app, H. reflexivity.
  - destruct (argmax (sims (v :: keptE) e)) as [j mx].
    destruct (Qle_bool thr mx); [assumption |].
    rewrite !length_app, H. reflexivity.
Qed.

(** The first item is always kept. *)
Lemma scan_step_first (thr : Q) (dupes : list dupe) (it : item) (e : vec) :
  scan_step thr ([], [], dupes) (it, e) = ([it], [e], dupes).
Proof. reflexivity. Qed.

(** A later item, by the largest of its similarities to the kept vectors. *)
Lemma scan_step_later (thr : Q) (kept : list item) (keptE : list vec)
    (dupes : list dupe) (it : item) (e : vec) :
  keptE <> [] -> length kept = length keptE ->
  exists j canon mx,
    nth_error kept j = Some canon /\
    nth_error (sims keptE e) j = Some mx /\
    (forall x, In x (sims keptE e) -> x <= mx) /\
    (forall k x, (k < j)%nat -> nth_error (sims keptE e) k = Some x -> x < mx) /\
    scan_step thr (kept, keptE, dupes) (it, e) =
      if Qle_bool thr mx
      then (kept, keptE, dupes ++ [mk_dupe it canon mx])
      else (kept ++ [it], keptE ++ [e], dupes).
Proof.
  intros Hne Hlen.
  destruct (argmax (sims keptE e)) as [j mx] eqn:E.
  assert (Hs : sims keptE e <> []).
  { intros H. apply (f_equal (@length Q)) in H. rewrite sims_length in H.
    destruct keptE; [congruence | discriminate]. }
  destruct (argmax_spec _ _ _ Hs E) as [Hj [Hmax Hfirst]].
  assert (Hlt : (j < length kept)%nat).
  { rewrite Hlen, <- (sims_length keptE e). apply nth_error_Some. congruence. }
  destruct (nth_error kept j) as [canon|] eqn:Hc;
    [| apply nth_error_None in Hc; lia].
  exists j, canon, mx. repeat split; try assumption.
  unfold scan_step. destruct keptE as [|v keptE]; [congruence |].
  rewrite E. rewrite (nth_error_nth _ _ it Hc). reflexivity.
Qed.


(** *** Worked examples *)

Definition mk_item (ident : string) (pub fetched : option string) : item :=
  {| it_id := Some (str ident); it_title := Some (str ident);
     it_url := Some (str "https://example.org/" ++ str ident);
     it_source := Some (str "feed");
     published_at := option_map str pub; fetched_at := option_map str fetched;
     dt_pub := None; dt_fetch := None |}.

Definition item_a : item :=
  mk_item "a" (Some "2024-05-01T09:00:00"%string) (Some "2024-05-01T09:30:00"%string).
Definition item_b : item :=
  mk_item "b" (Some "2024-05-01T10:00:00"%string) (Some "2024-05-01T10:30:00"%string).

(** Two unit vectors whose dot product is 7/10. *)
Definition unit_x : vec := [1; 0; 0; 0].
Definition unit_70 : vec := [7 # 10; 7 # 10; 1 # 10; 1 # 10].


(** The same pair through the whole function, at the default threshold: the
    later item is reported as a duplicate of the earlier one. *)
Example dedupe_at_default_threshold :
  forall clk n,
    greedy_dedupe fromisoformat_basic clk [item_b; item_a] [unit_70; unit_x]
      SIM_THRESHOLD n
    = Some ([item_a], [mk_dupe item_b item_a (7 # 10)]).
Proof. intros clk n. vm_compute. reflexivity. Qed.

(** *** Reading the clock *)

(** Two items that differ in the scratch keys only. *)
Definition same_item (a b : item) : Prop :=
  set_scratch a None None = set_scratch b None None.

Lemma same_item_refl (a : item) : same_item a a.
Proof. reflexivity. Qed.

Lemma stamp_same_item fi clk (a b : item) (n : nat) :
  same_item a b -> stamp fi clk a n = stamp fi clk b n.
Proof.
  unfold same_item, set_scratch. intros H.
  injection H as Hid Htitle Hurl Hsrc Hpub Hfetch.
  unfold stamp, set_scratch.
  rewrite Hid, Htitle, Hurl, Hsrc, Hpub, Hfetch. reflexivity.
Qed.

Lemma stamp_all_same_item fi clk (items items' : list item) (n : nat) :
  Forall2 same_item items items' ->
  stamp_all fi clk items n = stamp_all fi clk items' n.
Proof.
  intros H. revert n. induction H as [|a b l l' Hab _ IH]; intros n; simpl.
  - reflexivity.
  - rewrite (stamp_same_item fi clk a b n Hab).
    destruct (stamp fi clk b n) as [ki n']. rewrite IH. reflexivity.
Qed.

(** With a readable [fetched_at] neither key of an item reads the clock. *)
Lemma stamp_no_clock fi (it : item) (d : datetime) :
  parse_candidate fi (fetched_at it) = Some d ->
  exists ki, forall clk n, stamp fi clk it n = (ki, n).
Proof.
  intros Hf. unfold stamp, parse_dt. rewrite Hf.
  destruct (parse_candidate fi (published_at it)) as [p|]; eexists; reflexivity.
Qed.

Lemma stamp_all_no_clock fi (items : list item) :
  (forall it, In it items -> parse_candidate fi (fetched_at it) <> None) ->
  forall clk1 clk2 n1 n2,
    stamp_all fi clk1 items n1 = stamp_all fi clk2 items n2.
Proof.
  induction items as [|it items IH]; intros H clk1 clk2 n1 n2; simpl.
  - reflexivity.
  - destruct (parse_candidate fi (fetched_at it)) as [d|] eqn:Hf.
    + destruct (stamp_no_clock fi it d Hf) as [ki Hki].
      rewrite (Hki clk1 n1), (Hki clk2 n2). f_equal.
      apply IH. intros x Hx. apply H. right. exact Hx.
    + exfalso. apply (H it); [left; reflexivity | exact Hf].
Qed.

Lemma length_same_item (items items' : list item) :
  Forall2 same_item items items' -> length items = length items'.
Proof. intros H. induction H; simpl; congruence. Qed.

(** Two clocks that agree from reading [n1] of the one and [n2] of the other
    onwards. *)
Definition same_readings (clk1 clk2 : clock) (n1 n2 : nat) : Prop :=
  forall k, clk1 (n1 + k)%nat = clk2 (n2 + k)%nat.

Lemma same_readings_shift clk1 clk2 n1 n2 (c : nat) :
  same_readings clk1 clk2 n1 n2 ->
  same_readings clk1 clk2 (n1 + c) (n2 + c).
Proof.
  intros H k. rewrite <- !Nat.add_assoc. apply H.
Qed.

Lemma parse_dt_same_readings fi clk1 clk2 n1 n2 (a b : option pystr) :
  same_readings clk1 clk2 n1 n2 ->
  exists d c,
    parse_dt fi clk1 a b n1 = (d, (n1 + c)%nat) /\
    parse_dt fi clk2 a b n2 = (d, (n2 + c)%nat).
Proof.
  intros H. unfold parse_dt.
  destruct (parse_candidate fi a) as [d|].
  - exists d, 0%nat. rewrite !Nat.add_0_r. auto.
  - destruct (parse_candidate fi b) as [d|].
    + exists d, 0%nat. rewrite !Nat.add_0_r. auto.
    + exists {| aware := false; micros := clk1 n1 |}, 1%nat.
      unfold utcnow. rewrite !Nat.add_1_r. split; [reflexivity |].
      specialize (H 0%nat). rewrite !Nat.add_0_r in H. rewrite H. reflexivity.
Qed.

Lemma stamp_same_readings fi clk1 clk2 n1 n2 (it : item) :
  same_readings clk1 clk2 n1 n2 ->
  exists ki c,
    stamp fi clk1 it n1 = (ki, (n1 + c)%nat) /\
    stamp fi clk2 it n2 = (ki, (n2 + c)%nat).
Proof.
  intros H. unfold stamp.
  destruct (parse_dt_same_readings fi clk1 clk2 n1 n2
              (published_at it) (fetched_at it) H) as [p [c [E1 E2]]].
  rewrite E1, E2.
  destruct (parse_dt_same_readings fi clk1 clk2 (n1 + c) (n2 + c)
              (fetched_at it) (fetched_at it)
              (same_readings_shift _ _ _ _ c H)) as [f [c' [F1 F2]]].
  rewrite F1, F2. eexists. exists (c + c')%nat.
  rewrite !Nat.add_assoc. split; reflexivity.
Qed.

Lemma stamp_all_same_readings fi clk1 clk2 (items : list item) :
  forall n1 n2, same_readings clk1 clk2 n1 n2 ->
    stamp_all fi clk1 items n1 = stamp_all fi clk2 items n2.
Proof.
  induction items as [|it items IH]; intros n1 n2 H; simpl.
  - reflexivity.
  - destruct (stamp_same_readings fi clk1 clk2 n1 n2 it H) as [ki [c [E1 E2]]].
    rewrite E1, E2. f_equal. apply IH, same_readings_shift, H.
Qed.

(** C9, as the code has it. The outcome of [greedy_dedupe] is a function of
    the items (the scratch keys a former run left in them do not count), the
    vectors, the threshold and the readings of the clock. Two runs return the
    same kept items and the same duplicate records when every item has a
    readable [fetched_at], so that no key falls back on the clock, or when
    both runs are given the same readings of the clock. *)
Theorem dedupe_repeatable fi (items items' : list item) (embs : list vec)
    (thr : Q) (clk1 clk2 : clock) (n1 n2 : nat) :
  Forall2 same_item items items' ->
  (forall it, In it items -> parse_candidate fi (fetched_at it) <> None) \/
  same_readings clk1 clk2 n1 n2 ->
  greedy_dedupe fi clk1 items embs thr n1
    = greedy_dedupe fi clk2 items' embs thr n2.
Proof.
  intros Hsame Hclock. unfold greedy_dedupe, evaluation_order.
  rewrite <- (stamp_all_same_item fi clk2 items items' n2 Hsame).
  rewrite <- (length_same_item items items' Hsame).
  assert (E : stamp_all fi clk1 items n1 = stamp_all fi clk2 items n2).
  { destruct Hclock as [Hf | Hr].
    - apply stamp_all_no_clock, Hf.
    - apply stamp_all_same_readings, Hr. }
  rewrite E. reflexivity.
Qed.

Definition early_clock : clock := fun _ => 1893369600000000%Z.  (* 2029-12-31 *)
Definition late_clock : clock := fun _ => 1893542400000000%Z.   (* 2030-01-02 *)

(** The items after a first run: the dropped one still carries its keys. *)
Definition item_b_stamped : item :=
  set_scratch item_b (Some {| aware := false; micros := 0 |})
                     (Some {| aware := false; micros := 0 |}).

Lemma dedupe_repeatable_witness :
  greedy_dedupe fromisoformat_basic early_clock [item_a; item_b]
    [unit_x; unit_70] SIM_THRESHOLD 0
  = greedy_dedupe fromisoformat_basic late_clock [item_a; item_b_stamped]
      [unit_x; unit_70] SIM_THRESHOLD 4.
Proof.
  apply (dedupe_repeatable fromisoformat_basic [item_a; item_b]
           [item_a; item_b_stamped] [unit_x; unit_70] SIM_THRESHOLD
           early_clock late_clock 0 4).
  - repeat constructor.
  - left. intros it [<- | [<- | []]]; vm_compute; discriminate.
Defined.

(** An item announced for the first day of 2030, and one without any
    timestamp: its two keys are read from the clock. *)
Definition item_dated : item :=
  mk_item "dated" (Some "2030-01-01T00:00:00"%string) (Some "2030-01-01T00:00:00"%string).
Definition item_undated : item := mk_item "undated" None None.

(** A run before that day evaluates the undated item first and keeps it; a
    run after that day evaluates the dated item first and keeps that one. *)
Example dedupe_before :
  greedy_dedupe fromisoformat_basic early_clock [item_dated; item_undated]
    [unit_x; unit_x] SIM_THRESHOLD 0
  = Some ([item_undated], [mk_dupe item_dated item_undated 1]).
Proof. vm_compute. reflexivity. Qed.

Example dedupe_after :
  greedy_dedupe fromisoformat_basic late_clock [item_dated; item_undated]
    [unit_x; unit_x] SIM_THRESHOLD 0
  = Some ([item_dated], [mk_dupe item_undated item_dated 1]).
Proof. vm_compute. reflexivity. Qed.

(** C9 as stated fails: with an item on the clock fallback, two runs on the
    same items, vectors and threshold return different partitions. *)
Lemma dedupe_clock_counterexample :
  greedy_dedupe fromisoformat_basic early_clock [item_dated; item_undated]
    [unit_x; unit_x] SIM_THRESHOLD 0
  <> greedy_dedupe fromisoformat_basic late_clock [item_dated; item_undated]
       [unit_x; unit_x] SIM_THRESHOLD 0.
Proof. vm_compute. discriminate. Qed.

(** *** Timestamps with and without an offset *)

Definition item_utc : item :=
  mk_item "utc" (Some "2024-05-01T09:00:00Z"%string) (Some "2024-05-01T09:30:00Z"%string).

(** C1 fails on a feed that mixes the two kinds of timestamp [parse_dt]
    accepts: the key of [item_utc] carries an offset, the key of [item_a]
    does not, and the comparison of the two raises inside [sorted]. *)
Theorem dedupe_mixed_offsets_raises :
  forall clk n,
    greedy_dedupe fromisoformat_basic clk [item_utc; item_a] [unit_x; unit_70]
      SIM_THRESHOLD n = None.
Proof. intros clk n. vm_compute. reflexivity. Qed.

(** *** The order of evaluation *)

Local Close Scope Q_scope.

(** Pairs of instants, in lexicographic order. *)
Definition lex_lt (a b : Z * Z) : bool :=
  (fst a <? fst b)%Z || ((fst a =? fst b)%Z && (snd a <? snd b)%Z).

Definition pair_eqb (a b : Z * Z) : bool :=
  (fst a =? fst b)%Z && (snd a =? snd b)%Z.

Ltac lex_solve :=
  unfold lex_lt, pair_eqb in *;
  repeat match goal with p : (Z * Z)%type |- _ => destruct p end;
  cbn [fst snd] in *;
  repeat match goal with
         | H : _ = true |- _ =>
             first [ apply orb_true_iff in H | apply andb_true_iff in H
                   | apply Z.ltb_lt in H | apply Z.eqb_eq in H ]
         | H : _ = false |- _ =>
             first [ apply orb_false_iff in H | apply andb_false_iff in H
                   | apply Z.ltb_ge in H | apply Z.eqb_neq in H ]
         | H : _ /\ _ |- _ => destruct H
         | H : _ \/ _ |- _ => destruct H
         end;
  repeat match goal with
         | |- _ = false =>
             first [ apply orb_false_iff; split
                   | apply Z.ltb_ge | apply Z.eqb_neq
                   | apply andb_false_iff ]
         end;
  try lia.

Lemma lex_lt_asym (a b : Z * Z) : lex_lt a b = true -> lex_lt b a = false.
Proof.
  intros H. destruct (lex_lt b a) eqn:E; [| reflexivity]. exfalso. lex_solve.
Qed.

Lemma lex_lt_le_trans (a b c : Z * Z) :
  lex_lt a b = true -> lex_lt c b = false -> lex_lt c a = false.
Proof.
  intros H1 H2. destruct (lex_lt c a) eqn:E; [| reflexivity]. exfalso. lex_solve.
Qed.

Lemma lex_le_trans (a b c : Z * Z) :
  lex_lt b a = false -> lex_lt c b = false -> lex_lt c a = false.
Proof.
  intros H1 H2. destruct (lex_lt c a) eqn:E; [| reflexivity]. exfalso. lex_solve.
Qed.

Lemma lex_lt_neq (a b : Z * Z) : lex_lt a b = true -> pair_eqb b a = false.
Proof.
  intros H. destruct (pair_eqb b a) eqn:E; [| reflexivity]. exfalso. lex_solve.
Qed.

Lemma lex_le_lt_neq (a b c : Z * Z) :
  lex_lt a b = true -> lex_lt c b = false -> pair_eqb c a = false.
Proof.
  intros H1 H2. destruct (pair_eqb c a) eqn:E; [| reflexivity]. exfalso. lex_solve.
Qed.

Lemma filter_none {A : Type} (f : A -> bool) (l : list A) :
  (forall z, In z l -> f z = false) -> List.filter f l = [].
Proof.
  induction l as [|y l IH]; intros H; [reflexivity |].
  cbn [List.filter]. rewrite (H y) by (left; reflexivity).
  apply IH. intros z Hz. apply H. right. exact Hz.
Qed.

Section Sorting.

Context {A : Type}.
Variable lt : A -> A -> option bool.
Variable rank : A -> Z * Z.

(** Ascending by rank. *)
Definition ascending (l : list A) : Prop :=
  StronglySorted (fun x y => lex_lt (rank y) (rank x) = false) l.

(** The elements of rank [v], in their order. *)
Definition of_rank (v : Z * Z) (l : list A) : list A :=
  List.filter (fun y => pair_eqb (rank y) v) l.

Lemma insert_by_ok (x : A) (l : list A) :
  (forall y, In y l -> lt x y = Some (lex_lt (rank x) (rank y))) ->
  ascending l ->
  exists r,
    insert_by lt x l = Some r /\ Permutation (x :: l) r /\ ascending r /\
    forall v, of_rank v r = of_rank v l ++ of_rank v [x].
Proof.
  induction l as [|y l IH]; intros Hlt Hs.
  - exists [x]. repeat split.
    + apply Permutation_refl.
    + repeat constructor.
  - cbn [insert_by]. rewrite (Hlt y) by (left; reflexivity).
    apply StronglySorted_inv in Hs. destruct Hs as [Hs Hy].
    destruct (lex_lt (rank x) (rank y)) eqn:E.
    + exists (x :: y :: l). split; [reflexivity |]. split; [apply Permutation_refl |].
      assert (Hall : Forall (fun z => lex_lt (rank z) (rank x) = false) (y :: l)).
      { constructor; [apply lex_lt_asym, E |].
        rewrite List.Forall_forall in *. intros z Hz.
        eapply lex_lt_le_trans; [exact E | apply Hy, Hz]. }
      split; [constructor; [constructor; assumption | exact Hall] |].
      intros v. unfold of_rank. cbn [List.filter].
      destruct (pair_eqb (rank x) v) eqn:Ev.
      * assert (Hnone : List.filter (fun z => pair_eqb (rank z) v) (y :: l) = []).
        { apply filter_none. intros z Hz.
          assert (Hzx : lex_lt (rank z) (rank x) = false).
          { rewrite List.Forall_forall in Hall. apply Hall, Hz. }
          assert (Hxz : lex_lt (rank x) (rank z) = true).
          { destruct Hz as [<- | Hz]; [exact E |].
            rewrite List.Forall_forall in Hy. specialize (Hy z Hz).
            destruct (lex_lt (rank x) (rank z)) eqn:F; [reflexivity |].
            exfalso. clear - E Hy F. lex_solve. }
          destruct (pair_eqb (rank z) v) eqn:F; [| reflexivity].
          exfalso. clear - Ev F Hxz. lex_solve. }
        cbn [List.filter] in Hnone. rewrite Hnone. reflexivity.
      * rewrite app_nil_r. reflexivity.
    + destruct IH as [r [Er [Hp [Hr Hst]]]].
      { intros z Hz. apply Hlt. right. exact Hz. }
      { exact Hs. }
      rewrite Er. exists (y :: r). split; [reflexivity |].
      split.
      { eapply Permutation_trans; [apply perm_swap |]. apply perm_skip, Hp. }
      split.
      { constructor; [exact Hr |].
        rewrite List.Forall_forall in *. intros z Hz.
        apply Permutation_sym in Hp.
        apply (Permutation_in z Hp) in Hz. destruct Hz as [<- | Hz].
        - exact E.
        - apply Hy, Hz. }
      intros v. unfold of_rank in *. cbn [List.filter].
      destruct (pair_eqb (rank y) v); rewrite Hst; reflexivity.
Qed.

Lemma sorted_by_from (l acc : list A) :
  (forall x y, In x (acc ++ l) -> In y (acc ++ l) ->
               lt x y = Some (lex_lt (rank x) (rank y))) ->
  ascending acc ->
  exists r,
    fold_left (fun acc x => match acc with
                            | Some r => insert_by lt x r
                            | None => None
                            end) l (Some acc) = Some r /\
    Permutation (acc ++ l) r /\ ascending r /\
    forall v, of_rank v r = of_rank v acc ++ of_rank v l.
Proof.
  revert acc. induction l as [|x l IH]; intros acc Hlt Hs.
  - exists acc. rewrite app_nil_r. repeat split.
    + apply Permutation_refl.
    + exact Hs.
    + intros v. unfold of_rank. cbn [List.filter]. rewrite app_nil_r. reflexivity.
  - cbn [fold_left].
    destruct (insert_by_ok x acc) as [r1 [E1 [Hp1 [Hs1 Hst1]]]].
    { intros y Hy. apply Hlt; apply in_or_app; [right; left | left]; auto. }
    { exact Hs. }
    rewrite E1.
    destruct (IH r1) as [r [E [Hp [Hsr Hst]]]].
    { assert (Hin : forall z, In z (r1 ++ l) -> In z (acc ++ x :: l)).
      { intros z Hz. apply in_app_or in Hz. destruct Hz as [Hz | Hz].
        - apply Permutation_sym in Hp1. apply (Permutation_in z Hp1) in Hz.
          destruct Hz as [<- | Hz]; apply in_or_app; [right; left | left]; auto.
        - apply in_or_app. right. right. exact Hz. }
      intros a b Ha Hb. apply Hlt; apply Hin; assumption. }
    { exact Hs1. }
    exists r. split; [exact E |]. split.
    { eapply Permutation_trans; [| exact Hp].
      eapply Permutation_trans; [apply Permutation_sym, Permutation_middle |].
      exact (Permutation_app_tail l Hp1). }
    split; [exact Hsr |].
    intros v. rewrite Hst, Hst1. unfold of_rank. cbn [List.filter].
    rewrite <- app_assoc. f_equal.
    destruct (pair_eqb (rank x) v); reflexivity.
Qed.

(** When [<] is defined between all elements and agrees with the order of the
    ranks, [sorted] returns: a permutation of its input, ascending, in which
    elements of the same rank keep the order they had. *)
Lemma sorted_by_ok (l : list A) :
  (forall x y, In x l -> In y l -> lt x y = Some (lex_lt (rank x) (rank y))) ->
  exists r,
    sorted_by lt l = Some r /\ Permutation l r /\ ascending r /\
    forall v, of_rank v r = of_rank v l.
Proof.
  intros H. destruct (sorted_by_from l [] H) as [r [E [Hp [Hs Hst]]]].
  - constructor.
  - exists r. repeat split; assumption.
Qed.

End Sorting.

(** The rank of a stamped item: the instants of its two keys. *)
Definition rank_of (x : key * (item * vec)) : Z * Z :=
  (micros (fst (fst x)), micros (snd (fst x))).

Definition naive_key (k : key) : Prop :=
  aware (fst k) = false /\ aware (snd k) = false.

(** A parser that returns no offsets, as for the timestamps the fetcher
    writes. *)
Definition naive_parser (fi : pystr -> option datetime) : Prop :=
  forall s d, fi s = Some d -> aware d = false.

Lemma key_lt_naive (k1 k2 : key) :
  naive_key k1 -> naive_key k2 ->
  key_lt k1 k2 = Some (lex_lt (micros (fst k1), micros (snd k1))
                              (micros (fst k2), micros (snd k2))).
Proof.
  intros [H1 H1'] [H2 H2']. unfold key_lt, dt_eq, dt_lt, lex_lt.
  rewrite H1, H1', H2, H2'. cbn [Bool.eqb andb fst snd].
  destruct (micros (fst k1) =? micros (fst k2))%Z eqn:E1.
  - apply Z.eqb_eq in E1. rewrite E1, Z.ltb_irrefl. cbn [orb].
    destruct (micros (snd k1) =? micros (snd k2))%Z eqn:E2; [| reflexivity].
    apply Z.eqb_eq in E2. rewrite E2, Z.ltb_irrefl. reflexivity.
  - rewrite andb_false_l, orb_false_r. reflexivity.
Qed.

Lemma parse_candidate_naive fi (c : option pystr) (d : datetime) :
  naive_parser fi -> parse_candidate fi c = Some d -> aware d = false.
Proof.
  intros Hn. unfold parse_candidate. destruct c as [c|]; [| discriminate].
  destruct (negb (truthy c)); [discriminate |].
  destruct (contains (str "+") c || endswith (str "Z") c); apply Hn.
Qed.

Lemma parse_dt_naive fi clk (a b : option pystr) (n : nat) :
  naive_parser fi -> aware (fst (parse_dt fi clk a b n)) = false.
Proof.
  intros Hn. unfold parse_dt.
  destruct (parse_candidate fi a) as [d|] eqn:Ea.
  - apply (parse_candidate_naive fi a d Hn Ea).
  - destruct (parse_candidate fi b) as [d|] eqn:Eb.
    + apply (parse_candidate_naive fi b d Hn Eb).
    + reflexivity.
Qed.

Lemma stamp_all_naive fi clk (items : list item) (n : nat) :
  naive_parser fi ->
  Forall (fun ki => naive_key (fst ki)) (stamp_all fi clk items n).
Proof.
  intros Hn. revert n. induction items as [|it items IH]; intros n.
  - constructor.
  - cbn [stamp_all]. unfold stamp.
    pose proof (parse_dt_naive fi clk (published_at it) (fetched_at it) n Hn) as Hp.
    destruct (parse_dt fi clk (published_at it) (fetched_at it) n) as [p n1].
    pose proof (parse_dt_naive fi clk (fetched_at it) (fetched_at it) n1 Hn) as Hf.
    destruct (parse_dt fi clk (fetched_at it) (fetched_at it) n1) as [f n2].
    constructor; [split; assumption | apply IH].
Qed.

(** Every stamped item is the item it was made of, with the two keys set. *)
Lemma stamp_all_items fi clk (items : list item) (n : nat) :
  Forall2 (fun ki it => same_item (snd ki) it /\
                        dt_pub (snd ki) = Some (fst (fst ki)) /\
                        dt_fetch (snd ki) = Some (snd (fst ki)))
          (stamp_all fi clk items n) items.
Proof.
  revert n. induction items as [|it items IH]; intros n.
  - constructor.
  - cbn [stamp_all]. unfold stamp.
    destruct (parse_dt fi clk (published_at it) (fetched_at it) n) as [p n1].
    destruct (parse_dt fi clk (fetched_at it) (fetched_at it) n1) as [f n2].
    constructor; [| apply IH]. repeat split.
Qed.

(** The stamped items with their vectors, before the sort. *)
Definition stamped fi clk (items : list item) (embs : list vec) (n : nat)
  : list (key * (item * vec)) :=
  map (fun '((k, it), e) => (k, (it, e))) (combine (stamp_all fi clk items n) embs).

Lemma stamped_naive fi clk items embs n :
  naive_parser fi ->
  forall x, In x (stamped fi clk items embs n) -> naive_key (fst x).
Proof.
  intros Hn x Hx. unfold stamped in Hx. apply in_map_iff in Hx.
  destruct Hx as [[[k it] e] [<- Hin]]. apply in_combine_l in Hin.
  pose proof (stamp_all_naive fi clk items n Hn) as H.
  rewrite List.Forall_forall in H. apply (H _ Hin).
Qed.

(** On timestamps without offsets the sort never raises: the items are
    evaluated in ascending order of (published, fetched), and items with the
    same two instants in the order of the input. *)
Lemma evaluation_order_naive fi clk items embs n :
  naive_parser fi -> (length items <= length embs)%nat ->
  exists order,
    evaluation_order fi clk items embs n = Some order /\
    Permutation (stamped fi clk items embs n) order /\
    ascending rank_of order /\
    forall v, of_rank rank_of v order
              = of_rank rank_of v (stamped fi clk items embs n).
Proof.
  intros Hn Hlen. unfold evaluation_order.
  apply Nat.leb_le in Hlen. rewrite Hlen.
  apply (sorted_by_ok (fun x y => key_lt (fst x) (fst y)) rank_of).
  intros x y Hx Hy. unfold rank_of.
  apply key_lt_naive; eapply stamped_naive; eassumption.
Qed.

(** *** The partition *)

Lemma scan_step_cases (thr : Q) (kept : list item) (keptE : list vec)
    (dupes : list dupe) (it : item) (e : vec) :
  scan_step thr (kept, keptE, dupes) (it, e) = (kept ++ [it], keptE ++ [e], dupes)
  \/ exists d, scan_step thr (kept, keptE, dupes) (it, e)
               = (kept, keptE, dupes ++ [d]).
Proof.
  unfold scan_step. destruct keptE as [|v keptE]; [left; reflexivity |].
  destruct (argmax (sims (v :: keptE) e)) as [j mx].
  destruct (Qle_bool thr mx); [right; eexists; reflexivity | left; reflexivity].
Qed.

Lemma scan_from (thr : Q) (order : list (item * vec)) (st : scan_state) :
  let '(kept0, keptE0, dupes0) := st in
  exists kept keptE dupes,
    fold_left (scan_step thr) order st
      = (kept0 ++ kept, keptE0 ++ keptE, dupes0 ++ dupes) /\
    sublist kept (map fst order) /\
    length kept = length keptE /\
    (length kept + length dupes)%nat = length order.
Proof.
  revert st. induction order as [|[it e] order IH]; intros [[kept0 keptE0] dupes0].
  - exists [], [], []. rewrite !app_nil_r. repeat split. constructor.
  - cbn [fold_left map fst].
    destruct (scan_step_cases thr kept0 keptE0 dupes0 it e) as [E | [d E]];
      rewrite E.
    + specialize (IH (kept0 ++ [it], keptE0 ++ [e], dupes0)).
      destruct IH as [kept [keptE [dupes [F [Hsub [Hl Hn]]]]]].
      exists (it :: kept), (e :: keptE), dupes.
      rewrite F, <- !app_assoc. repeat split.
      * apply sublist_skip, Hsub.
      * cbn [length]. rewrite Hl. reflexivity.
      * cbn [length]. rewrite <- Hn. reflexivity.
    + specialize (IH (kept0, keptE0, dupes0 ++ [d])).
      destruct IH as [kept [keptE [dupes [F [Hsub [Hl Hn]]]]]].
      exists kept, keptE, (d :: dupes).
      rewrite F, <- !app_assoc. repeat split.
      * apply sublist_cons, Hsub.
      * exact Hl.
      * cbn [length]. rewrite <- Hn. lia.
Qed.

(** The scan keeps a subsequence of the items in the order of evaluation,
    starting with the first, and reports each of the others once. *)
Lemma scan_partition (thr : Q) (order : list (item * vec)) :
  let '(kept, keptE, dupes) := scan thr order in
  sublist kept (map fst order) /\
  length kept = length keptE /\
  (length kept + length dupes)%nat = length order /\
  hd_error kept = hd_error (map fst order).
Proof.
  unfold scan.
  pose proof (scan_from thr order ([], [], [])) as H. cbn beta iota in H.
  destruct H as [kept [keptE [dupes [E [Hsub [Hl Hn]]]]]].
  rewrite E. cbn [app]. repeat split; try assumption.
  destruct order as [|[it e] order]; cbn [map fst hd_error].
  - inversion Hsub. reflexivity.
  - cbn [fold_left] in E. rewrite scan_step_first in E.
    pose proof (scan_from thr order ([it], [e], [])) as H. cbn beta iota in H.
    destruct H as [k' [e' [d' [E' _]]]]. rewrite E' in E.
    injection E as <- _ _. reflexivity.
Qed.

(** The whole function on timestamps without offsets. *)
Lemma dedupe_naive fi clk items embs thr n :
  naive_parser fi -> (length items <= length embs)%nat ->
  exists order kept keptE dupes,
    evaluation_order fi clk items embs n = Some order /\
    Permutation (stamped fi clk items embs n) order /\
    ascending rank_of order /\
    (forall v, of_rank rank_of v order
               = of_rank rank_of v (stamped fi clk items embs n)) /\
    scan thr (map snd order) = (kept, keptE, dupes) /\
    sublist kept (map fst (map snd order)) /\
    hd_error kept = hd_error (map fst (map snd order)) /\
    (length kept + length dupes)%nat = length items /\
    greedy_dedupe fi clk items embs thr n
      = Some (map (fun it => set_scratch it None None) kept, dupes).
Proof.
  intros Hn Hlen.
  destruct (evaluation_order_naive fi clk items embs n Hn Hlen)
    as [order [E [Hp [Hs Hst]]]].
  pose proof (scan_partition thr (map snd order)) as H.
  destruct (scan thr (map snd order)) as [[kept keptE] dupes] eqn:Es.
  destruct H as [Hsub [_ [Hcount Hhd]]].
  exists order, kept, keptE, dupes. repeat split; try assumption.
  - rewrite Hcount, length_map. apply Permutation_length in Hp.
    rewrite <- Hp. unfold stamped. rewrite length_map, length_combine.
    pose proof (Forall2_length _ _ _ (stamp_all_items fi clk items n)) as L.
    etransitivity; [apply Nat.min_l | exact L].
    etransitivity; [apply Nat.eq_le_incl; exact L | exact Hlen].
  - unfold greedy_dedupe. rewrite E, Es. reflexivity.
Qed.

End DedupeFacts.

(** ** The persistence layer *)
Module DbLoaderFacts.
Import PyStr Py DbLoader.

Local Open Scope Z_scope.

(** The key [_make_doc] gives a document: the article's [id] when that is a
    string with something other than white space in it, else a fresh one. *)
Definition doc_key (raw : gmap string value) (uuid : pystr) : pystr :=
  match raw !! "id"%string with
  | Some (VJson (JStr s)) => if truthy (strip s) then s else uuid
  | _ => uuid
  end.

(** The fields the loader writes itself. *)
Definition loader_fields : list string :=
  ["_id"; "article_id"; "stored_at"; "expires_at"]%string.

Lemma make_doc_unfold (raw : gmap string value) (uuid : pystr) (now : Z) :
  _make_doc raw uuid now =
    <["expires_at"%string := VTime (now + HORIZON)]>
      (<["stored_at"%string := VTime now]>
         (<["article_id"%string := VStr (doc_key raw uuid)]>
            (<["_id"%string := VStr (doc_key raw uuid)]>
               (delete "entities"%string raw)))).
Proof.
  unfold _make_doc, doc_key.
  rewrite (lookup_delete_ne raw "entities"%string "id"%string) by discriminate.
  reflexivity.
Qed.

Lemma make_doc_id raw uuid now :
  _make_doc raw uuid now !! "_id"%string = Some (VStr (doc_key raw uuid)).
Proof.
  rewrite make_doc_unfold.
  rewrite !lookup_insert_ne by discriminate. apply lookup_insert_eq.
Qed.

Lemma make_doc_article_id raw uuid now :
  _make_doc raw uuid now !! "article_id"%string = Some (VStr (doc_key raw uuid)).
Proof.
  rewrite make_doc_unfold.
  rewrite !lookup_insert_ne by discriminate. apply lookup_insert_eq.
Qed.

Lemma make_doc_stored_at raw uuid now :
  _make_doc raw uuid now !! "stored_at"%string = Some (VTime now).
Proof.
  rewrite make_doc_unfold.
  rewrite !lookup_insert_ne by discriminate. apply lookup_insert_eq.
Qed.

Lemma make_doc_expires_at raw uuid now :
  _make_doc raw uuid now !! "expires_at"%string = Some (VTime (now + HORIZON)).
Proof. rewrite make_doc_unfold. apply lookup_insert_eq. Qed.

Lemma make_doc_entities raw uuid now :
  _make_doc raw uuid now !! "entities"%string = None.
Proof.
  rewrite make_doc_unfold.
  rewrite !lookup_insert_ne by discriminate. apply lookup_delete_eq.
Qed.

(** Every other field of the article goes into the document as it is. *)
Lemma make_doc_other raw uuid now (f : string) :
  ~ In f loader_fields -> f <> "entities"%string ->
  _make_doc raw uuid now !! f = raw !! f.
Proof.
  intros Hf He. rewrite make_doc_unfold. unfold loader_fields in Hf. simpl in Hf.
  rewrite !lookup_insert_ne by (intros E; apply Hf; subst; tauto).
  apply lookup_delete_ne. congruence.
Qed.

Lemma to_set_no_id (doc : gmap string value) : to_set doc !! "_id"%string = None.
Proof. apply lookup_delete_eq. Qed.

Lemma to_set_other (doc : gmap string value) (f : string) :
  f <> "_id"%string -> to_set doc !! f = doc !! f.
Proof. intros H. apply lookup_delete_ne. congruence. Qed.

(** Every document of a collection carries its key in [_id]. *)
Definition well_keyed (coll : gmap pystr (gmap string value)) : Prop :=
  forall k d, coll !! k = Some d -> d !! "_id"%string = Some (VStr k).

(** What one write leaves under the key of the document. *)
Definition written_doc (coll : gmap pystr (gmap string value))
    (doc : gmap string value) (k : pystr) : gmap string value :=
  match coll !! k with
  | Some old => to_set doc ∪ old
  | None => <["_id"%string := VStr k]> (to_set doc)
  end.

Lemma upsert_one_spec coll (doc : gmap string value) (k : pystr) :
  doc !! "_id"%string = Some (VStr k) ->
  _upsert_one coll doc =
    Some (<[k := written_doc coll doc k]> coll,
          match coll !! k with Some _ => updated | None => inserted end).
Proof.
  intros Hk. unfold _upsert_one, update_one, written_doc. rewrite Hk.
  cbv beta iota delta [VStr].
  destruct (coll !! k); reflexivity.
Qed.

Lemma upsert_make_doc coll raw uuid now :
  _upsert_one coll (_make_doc raw uuid now) =
    Some (<[doc_key raw uuid :=
              written_doc coll (_make_doc raw uuid now) (doc_key raw uuid)]> coll,
          match coll !! doc_key raw uuid with
          | Some _ => updated
          | None => inserted
          end).
Proof. apply upsert_one_spec, make_doc_id. Qed.

(** A field of the payload is what the stored document has afterwards,
    whether the document was there before or not. *)
Lemma written_doc_payload coll doc k (f : string) (v : value) :
  f <> "_id"%string -> doc !! f = Some v -> written_doc coll doc k !! f = Some v.
Proof.
  intros Hf Hv. unfold written_doc. destruct (coll !! k).
  - apply lookup_union_Some_l. rewrite to_set_other by assumption. exact Hv.
  - rewrite lookup_insert_ne by congruence.
    rewrite to_set_other by assumption. exact Hv.
Qed.

Lemma written_doc_id coll doc k :
  well_keyed coll -> written_doc coll doc k !! "_id"%string = Some (VStr k).
Proof.
  intros Hwf. unfold written_doc. destruct (coll !! k) as [old|] eqn:E.
  - rewrite lookup_union_r by apply to_set_no_id. apply (Hwf k old E).
  - apply lookup_insert_eq.
Qed.

Lemma upsert_well_keyed coll doc coll' st :
  well_keyed coll -> _upsert_one coll doc = Some (coll', st) -> well_keyed coll'.
Proof.
  intros Hwf E. unfold _upsert_one in E.
  destruct (doc !! "_id"%string) as [[[| | |k| |]|]|] eqn:Hk; try discriminate.
  pose proof (upsert_one_spec coll doc k Hk) as S. unfold _upsert_one in S.
  rewrite Hk in S. rewrite S in E. injection E as <- _.
  intros k' d Hd. destruct (decide (k = k')) as [<- | Hne].
  - rewrite lookup_insert_eq in Hd. injection Hd as <-.
    apply written_doc_id, Hwf.
  - rewrite lookup_insert_ne in Hd by assumption. apply (Hwf k' d Hd).
Qed.

Lemma doc_key_own_id raw uuid (s : pystr) :
  raw !! "id"%string = Some (VStr s) -> truthy (strip s) = true ->
  doc_key raw uuid = s.
Proof. intros H Hs. unfold doc_key. rewrite H. cbv beta iota delta [VStr]. rewrite Hs. reflexivity. Qed.

(** C4, as the code has it. The document is stored under the key
    [_make_doc] gave it, which is the article's [id] when that is a non-blank
    string and is copied into [_id] and [article_id]; its [expires_at] is its
    [stored_at] plus 36 hours. Both timestamps are part of the update
    payload: when the same article is written again at a [later] time the
    one stored document gets [stored_at = later] and
    [expires_at = later + 36 hours]. *)
Theorem stored_document_expiry coll raw uuid now :
  well_keyed coll ->
  let k := doc_key raw uuid in
  exists stored st,
    _upsert_one coll (_make_doc raw uuid now) = Some (<[k := stored]> coll, st) /\
    (st = updated <-> is_Some (coll !! k)) /\
    stored !! "_id"%string = Some (VStr k) /\
    stored !! "article_id"%string = Some (VStr k) /\
    (forall s, raw !! "id"%string = Some (VStr s) -> truthy (strip s) = true ->
               k = s) /\
    stored !! "stored_at"%string = Some (VTime now) /\
    stored !! "expires_at"%string = Some (VTime (now + HORIZON)) /\
    (forall uuid' later, doc_key raw uuid' = k ->
       exists again,
         _upsert_one (<[k := stored]> coll) (_make_doc raw uuid' later)
           = Some (<[k := again]> coll, updated) /\
         again !! "_id"%string = Some (VStr k) /\
         again !! "stored_at"%string = Some (VTime later) /\
         again !! "expires_at"%string = Some (VTime (later + HORIZON))).
Proof.
  intros Hwf k.
  exists (written_doc coll (_make_doc raw uuid now) k).
  exists (match coll !! k with Some _ => updated | None => inserted end).
  split; [apply upsert_make_doc |].
  split.
  { destruct (coll !! k); split; intros H; try reflexivity; try discriminate; eauto.
    destruct H; discriminate. }
  split; [apply written_doc_id, Hwf |].
  split; [apply written_doc_payload; [discriminate | apply make_doc_article_id] |].
  split; [intros s; apply doc_key_own_id |].
  split; [apply written_doc_payload; [discriminate | apply make_doc_stored_at] |].
  split; [apply written_doc_payload; [discriminate | apply make_doc_expires_at] |].
  intros uuid' later Hk.
  set (stored := written_doc coll (_make_doc raw uuid now) k).
  assert (Hwf' : well_keyed (<[k := stored]> coll)).
  { eapply upsert_well_keyed; [exact Hwf | apply upsert_make_doc]. }
  exists (written_doc (<[k := stored]> coll) (_make_doc raw uuid' later) k).
  split.
  { rewrite upsert_make_doc, Hk. rewrite lookup_insert_eq.
    rewrite insert_insert_eq. reflexivity. }
  split; [apply written_doc_id, Hwf' |].
  split; apply written_doc_payload; try discriminate.
  - apply make_doc_stored_at.
  - apply make_doc_expires_at.
Qed.

(** *** A worked example *)

Definition entity : json := JObj [(str "type", JStr (str "ORG")); (str "value", JStr (str "RBI"))].

Definition article : gmap string value :=
  <["id"%string := VStr (str "n1")]>
    (<["title"%string := VStr (str "RBI holds the repo rate")]>
       (<["entities"%string := VJson (JArr [entity])]> ∅)).

Lemma well_keyed_empty : well_keyed ∅.
Proof. intros k d H. rewrite lookup_empty in H. discriminate. Qed.

Lemma article_key uuid : doc_key article uuid = str "n1".
Proof. apply doc_key_own_id; reflexivity. Qed.

Lemma stored_document_expiry_witness :
  let k := doc_key article (str "u") in
  exists stored st,
    _upsert_one ∅ (_make_doc article (str "u") 0) = Some (<[k := stored]> ∅, st) /\
    (st = updated <-> is_Some ((∅ : gmap pystr (gmap string value)) !! k)) /\
    stored !! "_id"%string = Some (VStr k) /\
    stored !! "article_id"%string = Some (VStr k) /\
    (forall s, article !! "id"%string = Some (VStr s) -> truthy (strip s) = true ->
               k = s) /\
    stored !! "stored_at"%string = Some (VTime 0) /\
    stored !! "expires_at"%string = Some (VTime (0 + HORIZON)) /\
    (forall uuid' later, doc_key article uuid' = k ->
       exists again,
         _upsert_one (<[k := stored]> ∅) (_make_doc article uuid' later)
           = Some (<[k := again]> ∅, updated) /\
         again !! "_id"%string = Some (VStr k) /\
         again !! "stored_at"%string = Some (VTime later) /\
         again !! "expires_at"%string = Some (VTime (later + HORIZON))).
Proof.
  apply (stored_document_expiry ∅ article (str "u") 0). apply well_keyed_empty.
Defined.

(** C4 as stated: the expiry written first is still there after the same
    article was written again. *)
Definition expiry_never_extended : Prop :=
  forall raw uuid (t1 t2 : Z) coll1 coll2 st1 st2 d,
    _upsert_one ∅ (_make_doc raw uuid t1) = Some (coll1, st1) ->
    _upsert_one coll1 (_make_doc raw uuid t2) = Some (coll2, st2) ->
    coll2 !! doc_key raw uuid = Some d ->
    d !! "expires_at"%string = Some (VTime (t1 + HORIZON)).

(** It is not: written at 0 and again one hour later, the article expires 37
    hours after its first write. *)
Lemma expiry_extended_counterexample : ~ expiry_never_extended.
Proof.
  intros H.
  pose proof (upsert_make_doc ∅ article (str "u") 0) as E1.
  set (k := doc_key article (str "u")) in *.
  set (coll1 := <[k := written_doc ∅ (_make_doc article (str "u") 0) k]> ∅) in *.
  pose proof (upsert_make_doc coll1 article (str "u") 3600000000) as E2.
  fold k in E2.
  specialize (H article (str "u") 0 3600000000 _ _ _ _
                (written_doc coll1 (_make_doc article (str "u") 3600000000) k)
                E1 E2 (lookup_insert_eq _ _ _)).
  rewrite (written_doc_payload coll1 _ k "expires_at"%string
             (VTime (3600000000 + HORIZON))) in H.
  - discriminate.
  - discriminate.
  - apply make_doc_expires_at.
Qed.

(** *** What is written of an article *)

Lemma make_doc_only_adds raw uuid now (f : string) (v : value) :
  _make_doc raw uuid now !! f = Some v -> In f loader_fields \/ raw !! f = Some v.
Proof.
  intros H. destruct (in_dec string_dec f loader_fields) as [Hin | Hnin].
  - left. exact Hin.
  - right. destruct (string_dec f "entities") as [-> | Hne].
    + rewrite make_doc_entities in H. discriminate.
    + rewrite make_doc_other in H by assumption. exact H.
Qed.

(** C8, as the code has it. The document made of an article has every field
    of the article unchanged except [entities], which the loader removes,
    and the four fields the loader writes itself: the key [_id], its copy
    [article_id], [stored_at] and [expires_at]; nothing else is added. The
    update payload is that document without [_id]. The write puts the payload
    under the key and leaves every other document alone. *)
Theorem stored_document_fields coll raw uuid now :
  well_keyed coll ->
  let doc := _make_doc raw uuid now in
  let k := doc_key raw uuid in
  (forall f, ~ In f loader_fields -> f <> "entities"%string -> doc !! f = raw !! f) /\
  doc !! "entities"%string = None /\
  (forall f v, doc !! f = Some v -> In f loader_fields \/ raw !! f = Some v) /\
  to_set doc !! "_id"%string = None /\
  (forall f, f <> "_id"%string -> to_set doc !! f = doc !! f) /\
  exists stored st,
    _upsert_one coll doc = Some (<[k := stored]> coll, st) /\
    stored !! "_id"%string = Some (VStr k) /\
    (forall f v, f <> "_id"%string -> doc !! f = Some v -> stored !! f = Some v) /\
    (coll !! k = None -> stored !! "entities"%string = None) /\
    (forall k', k' <> k -> <[k := stored]> coll !! k' = coll !! k').
Proof.
  intros Hwf doc k.
  split; [intros f; apply make_doc_other |].
  split; [apply make_doc_entities |].
  split; [intros f v; apply make_doc_only_adds |].
  split; [apply to_set_no_id |].
  split; [intros f; apply to_set_other |].
  exists (written_doc coll doc k).
  exists (match coll !! k with Some _ => updated | None => inserted end).
  split; [apply upsert_make_doc |].
  split; [apply written_doc_id, Hwf |].
  split; [intros f v; apply written_doc_payload |].
  split.
  - intros Hnew. unfold written_doc. rewrite Hnew.
    rewrite lookup_insert_ne by discriminate.
    rewrite to_set_other by discriminate. apply make_doc_entities.
  - intros k' Hne. apply lookup_insert_ne. congruence.
Qed.

Lemma stored_document_fields_witness :
  let doc := _make_doc article (str "u") 0 in
  let k := doc_key article (str "u") in
  (forall f, ~ In f loader_fields -> f <> "entities"%string -> doc !! f = article !! f) /\
  doc !! "entities"%string = None /\
  (forall f v, doc !! f = Some v -> In f loader_fields \/ article !! f = Some v) /\
  to_set doc !! "_id"%string = None /\
  (forall f, f <> "_id"%string -> to_set doc !! f = doc !! f) /\
  exists stored st,
    _upsert_one ∅ doc = Some (<[k := stored]> ∅, st) /\
    stored !! "_id"%string = Some (VStr k) /\
    (forall f v, f <> "_id"%string -> doc !! f = Some v -> stored !! f = Some v) /\
    ((∅ : gmap pystr (gmap string value)) !! k = None ->
       stored !! "entities"%string = None) /\
    (forall k', k' <> k ->
       <[k := stored]> (∅ : gmap pystr (gmap string value)) !! k'
         = (∅ : gmap pystr (gmap string value)) !! k').
Proof.
  apply (stored_document_fields ∅ article (str "u") 0). apply well_keyed_empty.
Defined.

(** C8 as stated: every field of the article is in the document written. *)
Definition article_fields_kept : Prop :=
  forall raw uuid now f v,
    raw !! f = Some v -> _make_doc raw uuid now !! f = Some v.

Lemma entities_dropped_counterexample : ~ article_fields_kept.
Proof.
  intros H.
  specialize (H article (str "u") 0 "entities"%string (VJson (JArr [entity])) eq_refl).
  rewrite make_doc_entities in H. discriminate.
Qed.

(** *** The write cycle *)

(** The documents of a batch that are written: those whose turn does not
    raise, each made with the identifier and the time of its turn. *)
Fixpoint written (e : env) (items : list (gmap string value)) (i : nat)
  : list (gmap string value) :=
  match items with
  | [] => []
  | raw :: rest =>
      if doc_raises e i then written e rest (S i)
      else _make_doc raw (doc_uuid e i) (doc_now e i) :: written e rest (S i)
  end.






(** An attempt that succeeds ends the loop with the primary server. *)
Lemma connect_loop_target e todo attempts backoff log t log' :
  connect_loop e todo attempts backoff log = (Some t, log') -> t = primary.
Proof.
  revert attempts backoff log. induction todo as [|todo IH]; intros a b l E.
  - discriminate.
  - cbn [connect_loop] in E. destruct (a <? max_attempts)%nat; [|discriminate].
    destruct (ping_primary e (S a)).
    + injection E as <- _. reflexivity.
    + destruct (S a <? max_attempts)%nat; eapply IH; exact E.
Qed.




Definition zero : summary := {| ins := 0; upd := 0; fail := 0 |}.



Definition no_documents : stores := {| on_primary := ∅; on_fallback := ∅ |}.


(** A server that answers the third attempt; the second of three documents
    cannot be written. *)
Definition env_up : env :=
  {| MONGO_FALLBACK_URI := []; ping_primary := fun k => (3 <=? k)%nat;
     ping_fallback := false; ensure_collection_raises := false;
     doc_uuid := fun _ => str "u"; doc_now := fun i => Z.of_nat i;
     doc_raises := fun i => (i =? 1)%nat |}.

Definition article2 : gmap string value := <["id"%string := VStr (str "n2")]> ∅.
Definition article3 : gmap string value := <["id"%string := VStr (str "n3")]> ∅.

Example save_one_failure :
  let r := save env_up no_documents [article; article2; article3] in
  result r = Returned 2 /\
  counts r = {| ins := 2; upd := 0; fail := 1 |} /\
  slept r = [Sleep 2000; Sleep 4000] /\
  is_Some (on_primary (after r) !! str "n1") /\
  on_primary (after r) !! str "n2" = None /\
  is_Some (on_primary (after r) !! str "n3").
Proof. vm_compute. repeat split; eauto. Qed.

End DbLoaderFacts.

(** ** The structuring stage: retries and the partition of a batch *)
Module StructureFacts.
Import PyStr Py Structurer.

Section Batch.

Variable json_loads : pystr -> option json.
Variable disk_ok : bool.
Variable call_gemini : nat -> item -> pystr.
Variable normalize : item -> json -> pystr + json.

Let attempt := attempt_once json_loads disk_ok call_gemini normalize.
Let one := _structure_one json_loads disk_ok call_gemini normalize.
Let run := structure json_loads disk_ok call_gemini normalize.
Let step := structure_step json_loads disk_ok call_gemini normalize.

(** What happened to one item: the number of the first request made for it,
    how it ended, and what it left in the log. *)
Record outcome := {
  o_item : item;
  o_first : nat;
  o_result : pystr + json;
  o_log : list event
}.

Fixpoint outcomes (items : list item) (n : nat) : list outcome :=
  match items with
  | [] => []
  | it :: rest =>
      let '(r, n', ev) := one it n in
      {| o_item := it; o_first := n; o_result := r; o_log := ev |}
        :: outcomes rest n'
  end.

Definition successes (outs : list outcome) : list json :=
  flat_map (fun o => match o_result o with inr obj => [obj] | inl _ => [] end) outs.

Definition failures (outs : list outcome) : list error_record :=
  flat_map (fun o => match o_result o with
                     | inl msg => [{| e_id := it_id (o_item o);
                                      e_title := it_title (o_item o);
                                      e_url := it_url (o_item o);
                                      e_error := msg |}]
                     | inr _ => []
                     end) outs.

(** One or two attempts: a second one only after the first failed and after
    a wait of 0.6 s, and the message of an item that fails is the message of
    its second attempt. *)
Definition two_attempts (o : outcome) : Prop :=
  let '(r1, ev1) := attempt (o_item o) (o_first o) in
  match r1 with
  | inr obj => o_result o = inr obj /\ o_log o = ev1
  | inl _ =>
      let '(r2, ev2) := attempt (o_item o) (S (o_first o)) in
      o_result o = r2 /\ o_log o = ev1 ++ [Sleep 600] ++ ev2
  end.

Lemma structure_one_attempts (it : item) (n : nat) :
  let '(r1, ev1) := attempt it n in
  match r1 with
  | inr obj => one it n = (inr obj, S n, ev1)
  | inl _ =>
      let '(r2, ev2) := attempt it (S n) in
      one it n = (r2, S (S n), ev1 ++ [Sleep 600] ++ ev2)
  end.
Proof.
  subst attempt one. unfold _structure_one. cbn [attempts].
  destruct (attempt_once json_loads disk_ok call_gemini normalize it n)
    as [[err1 | obj1] ev1]; [| reflexivity].
  cbn [Nat.eqb app].
  destruct (attempt_once json_loads disk_ok call_gemini normalize it (S n))
    as [[err2 | obj2] ev2]; rewrite <- app_assoc; reflexivity.
Qed.

Lemma structure_one_requests (it : item) (n : nat) :
  let '(_, n', _) := one it n in (n + 1 <= n' <= n + 2)%nat.
Proof.
  pose proof (structure_one_attempts it n) as H.
  destruct (attempt it n) as [[e1 | o1] ev1].
  - destruct (attempt it (S n)) as [r2 ev2]. rewrite H. lia.
  - rewrite H. lia.
Qed.

Lemma outcomes_items (items : list item) (n : nat) :
  map o_item (outcomes items n) = items.
Proof.
  revert n. induction items as [|it rest IH]; intros n; simpl.
  - reflexivity.
  - destruct (one it n) as [[r n'] ev]. simpl. rewrite IH. reflexivity.
Qed.

Lemma outcomes_two_attempts (items : list item) (n : nat) :
  Forall two_attempts (outcomes items n).
Proof.
  revert n. induction items as [|it rest IH]; intros n; simpl.
  - constructor.
  - pose proof (structure_one_attempts it n) as H.
    destruct (one it n) as [[r n'] ev] eqn:E. constructor; [| apply IH].
    unfold two_attempts. cbn [o_item o_first o_result o_log].
    destruct (attempt it n) as [[e1 | o1] ev1].
    + destruct (attempt it (S n)) as [r2 ev2].
      injection H as -> _ ->. auto.
    + injection H as <- _ ->. auto.
Qed.

Lemma partition_length (outs : list outcome) :
  (length (successes outs) + length (failures outs))%nat = length outs.
Proof.
  induction outs as [|o outs IH]; simpl.
  - reflexivity.
  - unfold successes, failures in *. simpl.
    rewrite !length_app. destruct (o_result o); simpl; lia.
Qed.

(** The last request number after the items of [outs]. *)
Fixpoint requests_after (items : list item) (n : nat) : nat :=
  match items with
  | [] => n
  | it :: rest => let '(_, n', _) := one it n in requests_after rest n'
  end.

Lemma requests_after_bounds (items : list item) (n : nat) :
  (n + length items <= requests_after items n <= n + 2 * length items)%nat.
Proof.
  revert n. induction items as [|it rest IH]; intros n; simpl.
  - lia.
  - pose proof (structure_one_requests it n) as H.
    destruct (one it n) as [[r n'] ev]. specialize (IH n'). lia.
Qed.

Lemma structure_fold (items : list item) (b : batch) :
  fold_left step items b =
    {| structured := structured b ++ successes (outcomes items (requests b));
       errors := errors b ++ failures (outcomes items (requests b));
       requests := requests_after items (requests b);
       log := log b ++ flat_map (fun o => o_log o ++ [Sleep 200])
                         (outcomes items (requests b)) |}.
Proof.
  revert b. induction items as [|it rest IH]; intros b.
  - simpl. rewrite !app_nil_r. destruct b; reflexivity.
  - cbn [fold_left outcomes requests_after]. rewrite IH.
    subst step. unfold structure_step. fold one.
    destruct (one it (requests b)) as [[r n'] ev].
    destruct r as [msg | obj]; cbn [structured errors requests log];
      unfold successes, failures; cbn [flat_map o_result o_item o_log];
      rewrite <- ?app_assoc; reflexivity.
Qed.

(** C5. [structure] gives every item one or two attempts and puts it in
    exactly one of the two outputs, in the order of the input: the objects of
    the items that succeeded, and for those that failed a record with the
    message of their second attempt. An item is attempted whatever happened
    to the items before it; between the two attempts of an item the stage
    waits 0.6 s, and after every item 0.2 s. *)
Theorem structure_partitions_batch (items : list item) (n : nat) :
  let b := run items n in
  let outs := outcomes items n in
  map o_item outs = items /\
  Forall two_attempts outs /\
  structured b = successes outs /\
  errors b = failures outs /\
  (length (structured b) + length (errors b))%nat = length items /\
  (n + length items <= requests b <= n + 2 * length items)%nat /\
  log b = flat_map (fun o => o_log o ++ [Sleep 200]) outs.
Proof.
  intros b outs. subst b outs run. unfold structure. fold step.
  rewrite structure_fold. cbn [structured errors requests log app].
  split; [apply outcomes_items |].
  split; [apply outcomes_two_attempts |].
  split; [reflexivity |]. split; [reflexivity |].
  split.
  { rewrite partition_length. rewrite <- (outcomes_items items n) at 2.
    rewrite length_map. reflexivity. }
  split; [apply requests_after_bounds | reflexivity].
Qed.

End Batch.

(** *** A batch of three *)

Definition sample_item (ident : string) : item :=
  {| it_id := Some (str ident); it_title := Some (str ident);
     it_body := None; it_source := None;
     it_url := Some (str "https://example.org/" ++ str ident);
     it_published_at := None; it_fetched_at := None |}.

(** The generator answers the first and the fifth request well, fails with an
    error of its client on the third, and talks on the others. *)
Definition sample_replies (n : nat) (_ : item) : pystr :=
  match n with
  | 0%nat | 4%nat => js "{'title': 'ok'}"
  | 2%nat => str "__GENAI_EXCEPTION__:quota"
  | _ => str "sorry"
  end.

Definition sample_reply_object : json := JObj [(str "title", JStr (str "ok"))].

(** The first item passes at once, the second fails twice and is recorded
    with the message of its second attempt, the third passes on its second
    attempt; the failure in the middle does not stop the batch. *)
Example structure_run :
  structure json_loads_basic true sample_replies (fun _ obj => inr obj)
    [sample_item "a"; sample_item "b"; sample_item "c"] 0
  = {| structured := [sample_reply_object; sample_reply_object];
       errors := [{| e_id := Some (str "b"); e_title := Some (str "b");
                     e_url := Some (str "https://example.org/b");
                     e_error := str "quota" |}];
       requests := 5;
       log := [Sleep 200;
               Archive (str "sorry"); Sleep 600; Sleep 200;
               Archive (str "sorry"); Sleep 600; Sleep 200] |}.
Proof. vm_compute. reflexivity. Qed.

End StructureFacts.

(** ** The structuring stage: the repair of a reply *)
Module RepliesFacts.
Import PyStr Py Structurer PyStrFacts.

(** *** Stripping *)

Definition all_space (ws : pystr) : Prop := Forall (fun c => is_space c = true) ws.

Lemma dropwhile_all (p : ascii -> bool) (ws s : pystr) :
  Forall (fun c => p c = true) ws -> dropwhile p (ws ++ s) = dropwhile p s.
Proof.
  intros H. induction H as [|c ws Hc _ IH]; simpl; [reflexivity |].
  rewrite Hc. exact IH.
Qed.

Lemma dropwhile_app (p : ascii -> bool) (a b : pystr) :
  dropwhile p (a ++ b) =
    match dropwhile p a with
    | [] => dropwhile p b
    | r => r ++ b
    end.
Proof.
  induction a as [|c a IH]; simpl; [reflexivity |].
  destruct (p c); [exact IH | reflexivity].
Qed.

Lemma dropwhile_in (p : ascii -> bool) (s : pystr) (x : ascii) :
  In x (dropwhile p s) -> In x s.
Proof.
  induction s as [|c s IH]; simpl; [tauto |].
  destruct (p c); [intros H; right; apply IH, H | intros H; exact H].
Qed.

(** The end of a text whose last character stays. *)
Lemma rev_dropwhile_last (p : ascii -> bool) (s : pystr) (c : ascii) :
  p c = false -> rev (dropwhile p (rev (s ++ [c]))) = s ++ [c].
Proof.
  intros H. rewrite rev_app_distr. simpl. rewrite H.
  change (c :: rev s) with ([c] ++ rev s).
  rewrite rev_app_distr, rev_involutive. reflexivity.
Qed.

Lemma rev_dropwhile_app (p : ascii -> bool) (s t : pystr) (c : ascii) :
  p c = false ->
  rev (dropwhile p (rev ((s ++ [c]) ++ t)))
    = (s ++ [c]) ++ rev (dropwhile p (rev t)).
Proof.
  intros H. rewrite (rev_app_distr (s ++ [c]) t), dropwhile_app.
  destruct (dropwhile p (rev t)) as [|x r] eqn:E.
  - rewrite rev_dropwhile_last by assumption.
    simpl. rewrite app_nil_r. reflexivity.
  - rewrite rev_app_distr, rev_involutive. reflexivity.
Qed.

Lemma rstrip_app (s t : pystr) (c : ascii) :
  is_space c = false -> rstrip ((s ++ [c]) ++ t) = (s ++ [c]) ++ rstrip t.
Proof. intros H. unfold rstrip. apply rev_dropwhile_app, H. Qed.

Lemma rstrip_all_space (ws : pystr) : all_space ws -> rstrip ws = [].
Proof.
  intros H. unfold rstrip.
  rewrite <- (app_nil_r (rev ws)), dropwhile_all; [reflexivity |].
  apply Forall_rev, H.
Qed.

Lemma lstrip_head (c : ascii) (s : pystr) :
  is_space c = false -> lstrip (c :: s) = c :: s.
Proof. intros H. unfold lstrip. simpl. rewrite H. reflexivity. Qed.

Lemma lstrip_all_space (ws s : pystr) :
  all_space ws -> lstrip (ws ++ s) = lstrip s.
Proof. apply dropwhile_all. Qed.

(** *** Text whose braces balance outside its string literals *)

(** The inside of a string literal: characters other than the quote and the
    backslash, and pairs of a backslash and the character it escapes. *)
Inductive str_body : pystr -> Prop :=
| sb_nil : str_body []
| sb_esc (c : ascii) (s : pystr) : str_body s -> str_body (backslash :: c :: s)
| sb_chr (c : ascii) (s : pystr) :
    c <> quote -> c <> backslash -> str_body s -> str_body (c :: s).

Inductive balanced : pystr -> Prop :=
| b_nil : balanced []
| b_chr (c : ascii) (s : pystr) :
    c <> quote -> c <> lbrace -> c <> rbrace -> balanced s -> balanced (c :: s)
| b_str (body s : pystr) :
    str_body body -> balanced s -> balanced (quote :: body ++ quote :: s)
| b_obj (inner s : pystr) :
    balanced inner -> balanced s -> balanced (lbrace :: inner ++ rbrace :: s).

(** The text of an object, as far as the scan can tell: every JSON object is
    one. *)
Definition object_text (b : pystr) : Prop :=
  exists inner, balanced inner /\ b = lbrace :: inner ++ [rbrace].

Lemma balanced_app (x y : pystr) : balanced x -> balanced y -> balanced (x ++ y).
Proof.
  intros Hx Hy. induction Hx; simpl.
  - exact Hy.
  - constructor; assumption.
  - rewrite <- app_assoc. simpl. constructor; assumption.
  - rewrite <- app_assoc. simpl. constructor; assumption.
Qed.

Lemma balanced_spaces (ws : pystr) : all_space ws -> balanced ws.
Proof.
  intros H. induction H as [|c ws Hc _ IH]; [constructor |].
  constructor; try assumption; intros ->; vm_compute in Hc; discriminate.
Qed.

Definition prefixed (x : pystr) (r : option pystr) : option pystr :=
  match r with Some t => Some (x ++ t) | None => None end.

Lemma prefixed_cons (c : ascii) (x : pystr) (r : option pystr) :
  match prefixed x r with Some t => Some (c :: t) | None => None end
  = prefixed (c :: x) r.
Proof. destruct r; reflexivity. Qed.

Lemma prefixed_app (x y : pystr) (r : option pystr) :
  prefixed x (prefixed y r) = prefixed (x ++ y) r.
Proof. destruct r; simpl; [rewrite app_assoc |]; reflexivity. Qed.

Lemma scan_str_body (body : pystr) :
  str_body body ->
  forall d rest,
    brace_scan d true false (body ++ quote :: rest)
      = prefixed (body ++ [quote]) (brace_scan d false false rest).
Proof.
  induction 1 as [|c s _ IH|c s Hq Hb _ IH]; intros d rest.
  - simpl. destruct (brace_scan d false false rest); reflexivity.
  - cbn [app brace_scan]. rewrite chr_eqb_refl.
    rewrite IH. rewrite !prefixed_cons. reflexivity.
  - cbn [app brace_scan].
    apply chr_eqb_neq in Hq, Hb. rewrite Hq, Hb.
    rewrite IH, prefixed_cons. reflexivity.
Qed.

Lemma scan_balanced (x : pystr) :
  balanced x ->
  forall d rest, (1 <= d)%Z ->
    brace_scan d false false (x ++ rest)
      = prefixed x (brace_scan d false false rest).
Proof.
  induction 1 as [|c s Hq Hl Hr _ IH|body s Hbody _ IH|inner s _ IHi _ IHs];
    intros d rest Hd.
  - simpl. destruct (brace_scan d false false rest); reflexivity.
  - cbn [app brace_scan].
    apply chr_eqb_neq in Hq, Hl, Hr. rewrite Hq, Hl, Hr.
    rewrite IH by assumption. apply prefixed_cons.
  - cbn [app brace_scan]. rewrite chr_eqb_refl.
    rewrite <- app_assoc. cbn [app].
    rewrite scan_str_body by assumption.
    rewrite IH by assumption.
    rewrite prefixed_app, prefixed_cons.
    rewrite <- app_assoc. reflexivity.
  - cbn [app brace_scan].
    replace (chr_eqb lbrace quote) with false by reflexivity.
    rewrite chr_eqb_refl.
    rewrite <- app_assoc. cbn [app].
    rewrite IHi by lia. cbn [brace_scan].
    replace (chr_eqb rbrace quote) with false by reflexivity.
    replace (chr_eqb rbrace lbrace) with false by reflexivity.
    rewrite chr_eqb_refl.
    replace (d + 1 - 1 =? 0)%Z with false by (symmetry; apply Z.eqb_neq; lia).
    replace (d + 1 - 1)%Z with d by lia.
    rewrite IHs by assumption.
    rewrite !prefixed_cons, prefixed_app. reflexivity.
Qed.

(** The scan returns the first balanced span: the text before it has no
    opening brace, the text after it is not looked at. *)
Lemma extract_first_span (pre inner rest : pystr) :
  ~ In lbrace pre -> balanced inner ->
  _extract_json_braces (pre ++ lbrace :: inner ++ rbrace :: rest)
    = Some (lbrace :: inner ++ [rbrace]).
Proof.
  intros Hpre Hin. unfold _extract_json_braces.
  assert (Ht : truthy (pre ++ lbrace :: inner ++ rbrace :: rest) = true)
    by (destruct pre; reflexivity).
  rewrite Ht. cbn [negb].
  rewrite dropwhile_all.
  2:{ apply List.Forall_forall. intros c Hc.
      destruct (chr_eqb c lbrace) eqn:E; [| reflexivity].
      apply chr_eqb_eq in E. subst. contradiction. }
  cbn [dropwhile]. rewrite chr_eqb_refl. cbn [negb brace_scan].
  replace (chr_eqb lbrace quote) with false by reflexivity.
  rewrite chr_eqb_refl.
  rewrite scan_balanced by (assumption || lia).
  cbn [brace_scan].
  replace (chr_eqb rbrace quote) with false by reflexivity.
  replace (chr_eqb rbrace lbrace) with false by reflexivity.
  rewrite chr_eqb_refl. reflexivity.
Qed.

Lemma extract_no_brace (s : pystr) :
  ~ In lbrace s -> _extract_json_braces s = None.
Proof.
  intros H. unfold _extract_json_braces.
  destruct (truthy s); [| reflexivity]. cbn [negb].
  rewrite <- (app_nil_r s), dropwhile_all; [reflexivity |].
  apply List.Forall_forall. intros c Hc.
  destruct (chr_eqb c lbrace) eqn:E; [| reflexivity].
  apply chr_eqb_eq in E. subst. contradiction.
Qed.

(** *** Code fences *)

Lemma space_not_tick (c : ascii) : is_space c = true -> chr_eqb backtick c = false.
Proof.
  intros H. destruct (chr_eqb backtick c) eqn:E; [| reflexivity].
  apply chr_eqb_eq in E. subst c. vm_compute in H. discriminate.
Qed.

Lemma dropwhile_tick_keeps (ws rest : pystr) (c : ascii) :
  all_space ws -> chr_eqb backtick c = false ->
  dropwhile (chr_eqb backtick) (ws ++ c :: rest) = ws ++ c :: rest.
Proof.
  intros Hws Hc. destruct Hws as [|w ws Hw _]; cbn [app dropwhile].
  - rewrite Hc. reflexivity.
  - rewrite (space_not_tick w Hw). reflexivity.
Qed.

(** A reply that begins with an object is left alone, but for the white
    space at its end. *)
Lemma strip_fences_object (inner prose : pystr) :
  _strip_code_fences ((lbrace :: inner ++ [rbrace]) ++ prose)
    = (lbrace :: inner ++ [rbrace]) ++ rstrip prose.
Proof.
  unfold _strip_code_fences, strip.
  cbn [app]. rewrite lstrip_head by reflexivity.
  change (lbrace :: (inner ++ [rbrace]) ++ prose)
    with (((lbrace :: inner) ++ [rbrace]) ++ prose).
  rewrite rstrip_app by reflexivity. reflexivity.
Qed.

(** The fences, an optional label, and the white space around the object are
    removed. *)
Lemma strip_char_fence (x y : pystr) :
  dropwhile (chr_eqb backtick) x = x ->
  dropwhile (chr_eqb backtick) (rev x) = rev x ->
  x = y ->
  strip_char backtick (str "```" ++ x ++ str "```") = y.
Proof.
  intros Hhead Hlast <-. unfold strip_char.
  cbn [str list_ascii_of_string app dropwhile].
  replace (chr_eqb backtick "`"%char) with true by reflexivity.
  rewrite dropwhile_app, Hhead.
  destruct x as [|c x]; [reflexivity |].
  rewrite rev_app_distr. cbn [rev app dropwhile].
  replace (chr_eqb backtick "`"%char) with true by reflexivity.
  cbn [rev app] in Hlast. rewrite Hlast.
  rewrite rev_app_distr, rev_involutive. reflexivity.
Qed.

Lemma strip_keeps (c l : ascii) (m : pystr) :
  is_space c = false -> is_space l = false ->
  strip (c :: m ++ [l]) = c :: m ++ [l].
Proof.
  intros Hc Hl. unfold strip. rewrite lstrip_head by assumption.
  change (c :: m ++ [l]) with ((c :: m) ++ [l]).
  rewrite <- (app_nil_r ((c :: m) ++ [l])) at 1.
  rewrite rstrip_app by assumption. apply app_nil_r.
Qed.

Lemma strip_fenced (x : pystr) :
  strip (str "```" ++ x ++ str "```") = str "```" ++ x ++ str "```".
Proof.
  assert (E : str "```" ++ x ++ str "```"
              = "`"%char :: (["`"; "`"]%char ++ x ++ ["`"; "`"]%char) ++ ["`"%char]).
  { cbn [str list_ascii_of_string app]. do 3 f_equal.
    rewrite <- app_assoc. reflexivity. }
  rewrite E. apply strip_keeps; reflexivity.
Qed.

Lemma rev_object_tail (pre inner ws : pystr) :
  rev (pre ++ (lbrace :: inner ++ [rbrace]) ++ ws)
    = rev ws ++ rbrace :: rev (pre ++ lbrace :: inner).
Proof.
  rewrite app_assoc, rev_app_distr. f_equal.
  change (lbrace :: inner ++ [rbrace]) with ((lbrace :: inner) ++ [rbrace]).
  rewrite app_assoc, rev_app_distr. reflexivity.
Qed.

Lemma strip_fences_bare (inner ws1 ws2 : pystr) :
  all_space ws1 -> all_space ws2 ->
  _strip_code_fences
    (str "```" ++ (ws1 ++ (lbrace :: inner ++ [rbrace]) ++ ws2) ++ str "```")
    = lbrace :: inner ++ [rbrace].
Proof.
  intros H1 H2. unfold _strip_code_fences.
  set (b := lbrace :: inner ++ [rbrace]).
  assert (Hs : strip (str "```" ++ (ws1 ++ b ++ ws2) ++ str "```")
               = str "```" ++ (ws1 ++ b ++ ws2) ++ str "```")
    by apply strip_fenced.
  rewrite Hs. rewrite startswith_app.
  rewrite (strip_char_fence _ (ws1 ++ b ++ ws2)); try reflexivity.
  - unfold strip. rewrite lstrip_all_space by assumption.
    subst b. cbn [app]. rewrite lstrip_head by reflexivity.
    change (lbrace :: (inner ++ [rbrace]) ++ ws2)
      with (((lbrace :: inner) ++ [rbrace]) ++ ws2).
    rewrite rstrip_app by reflexivity.
    rewrite rstrip_all_space by assumption. rewrite app_nil_r. reflexivity.
  - subst b. cbn [app]. apply dropwhile_tick_keeps; [assumption | reflexivity].
  - subst b. rewrite rev_object_tail.
    apply dropwhile_tick_keeps; [apply Forall_rev; assumption | reflexivity].
Qed.

Lemma lower_app (a b : pystr) : lower (a ++ b) = lower a ++ lower b.
Proof. apply map_app. Qed.

(** The label [json], in any case. *)
Definition json_label (lang : pystr) : Prop := lower lang = str "json".

Lemma json_label_shape (lang : pystr) :
  json_label lang ->
  exists c rest, lang = c :: rest /\ length lang = 4%nat /\
                 is_space c = false /\ chr_eqb backtick c = false.
Proof.
  unfold json_label. intros H.
  assert (Hlen : length lang = 4%nat).
  { apply (f_equal (@length ascii)) in H. unfold lower in H.
    rewrite length_map in H. exact H. }
  destruct lang as [|c rest]; [discriminate |].
  exists c, rest. repeat split; try assumption.
  - cbn [lower map] in H. injection H as Hc _.
    destruct (is_space c) eqn:E; [| reflexivity].
    assert (Hu : is_upper c = false).
    { unfold is_space, is_upper, in_range in *.
      apply orb_true_iff in E. rewrite !andb_true_iff, !N.leb_le in E.
      apply andb_false_iff. rewrite !N.leb_gt. lia. }
    unfold lower_char in Hc. rewrite Hu in Hc. subst c.
    vm_compute in E. discriminate.
  - cbn [lower map] in H. injection H as Hc _.
    destruct (chr_eqb backtick c) eqn:E; [| reflexivity].
    apply chr_eqb_eq in E. subst c. vm_compute in Hc. discriminate.
Qed.

Lemma strip_fences_labelled (lang inner ws1 ws2 : pystr) :
  json_label lang -> all_space ws1 -> all_space ws2 ->
  _strip_code_fences
    (str "```" ++ (lang ++ ws1 ++ (lbrace :: inner ++ [rbrace]) ++ ws2) ++ str "```")
    = lbrace :: inner ++ [rbrace].
Proof.
  intros Hl H1 H2. unfold _strip_code_fences.
  destruct (json_label_shape lang Hl) as [c [rest [-> [Hlen [Hsp Htick]]]]].
  set (b := lbrace :: inner ++ [rbrace]).
  rewrite strip_fenced, startswith_app.
  rewrite (strip_char_fence _ ((c :: rest) ++ ws1 ++ b ++ ws2)); try reflexivity.
  - assert (Hs : strip ((c :: rest) ++ ws1 ++ b ++ ws2) = (c :: rest) ++ ws1 ++ b).
    { unfold strip. cbn [app]. rewrite lstrip_head by assumption.
      subst b.
      replace (c :: rest ++ ws1 ++ (lbrace :: inner ++ [rbrace]) ++ ws2)
        with (((c :: rest ++ ws1 ++ lbrace :: inner) ++ [rbrace]) ++ ws2).
      2:{ cbn [app]. rewrite <- !app_assoc. reflexivity. }
      rewrite rstrip_app by reflexivity.
      rewrite rstrip_all_space by assumption. rewrite app_nil_r.
      cbn [app]. rewrite <- !app_assoc. reflexivity. }
    rewrite Hs, lower_app, Hl, startswith_app.
    rewrite skipn_app, Hlen, Nat.sub_diag.
    rewrite (skipn_all2 (c :: rest)) by (rewrite Hlen; lia).
    rewrite skipn_O. cbn [app].
    rewrite lstrip_all_space by assumption.
    subst b. apply lstrip_head. reflexivity.
  - cbn [app dropwhile]. rewrite Htick. reflexivity.
  - subst b. rewrite app_assoc, rev_object_tail.
    apply dropwhile_tick_keeps; [apply Forall_rev; assumption | reflexivity].
Qed.

(** *** Trailing commas *)

(** No comma of [s] has a closing brace or bracket next after it. *)
Definition no_dangling_comma (s : pystr) : Prop :=
  forall pre post, s = pre ++ comma :: post -> closer_follows post = false.

Lemma no_dangling_tail (c : ascii) (s : pystr) :
  no_dangling_comma (c :: s) -> no_dangling_comma s.
Proof. intros H pre post E. apply (H (c :: pre) post). rewrite E. reflexivity. Qed.

Lemma closer_follows_spaces (ws rest : pystr) :
  all_space ws -> closer_follows (ws ++ rest) = closer_follows rest.
Proof.
  intros H. unfold closer_follows. rewrite dropwhile_all by assumption. reflexivity.
Qed.

(** Text without a dangling comma is left as it is. *)
Lemma strip_commas_id (s : pystr) :
  no_dangling_comma s -> strip_trailing_commas_from false s = s.
Proof.
  induction s as [|c s IH]; intros H; [reflexivity |].
  cbn [strip_trailing_commas_from].
  destruct (chr_eqb c comma) eqn:E.
  - apply chr_eqb_eq in E. subst c.
    rewrite (H [] s eq_refl). cbn [andb].
    rewrite IH by (eapply no_dangling_tail; exact H). reflexivity.
  - cbn [andb]. rewrite IH by (eapply no_dangling_tail; exact H). reflexivity.
Qed.

Lemma strip_commas_skip (ws : pystr) (c : ascii) (rest : pystr) :
  all_space ws -> is_space c = false ->
  strip_trailing_commas_from true (ws ++ c :: rest)
    = c :: strip_trailing_commas_from false rest.
Proof.
  intros H Hc. induction H as [|w ws Hw _ IH]; cbn [app strip_trailing_commas_from].
  - rewrite Hc. reflexivity.
  - rewrite Hw. exact IH.
Qed.

(** The comma added before the last brace goes, and only that one. *)
Lemma strip_commas_trailing (inner ws : pystr) :
  no_dangling_comma (inner ++ [rbrace]) -> all_space ws ->
  strip_trailing_commas_from false (inner ++ comma :: ws ++ [rbrace])
    = inner ++ [rbrace].
Proof.
  intros H Hws. induction inner as [|c inner IH].
  - cbn [app strip_trailing_commas_from].
    rewrite chr_eqb_refl, closer_follows_spaces by assumption.
    cbn [andb closer_follows dropwhile is_closer].
    replace (closer_follows [rbrace]) with true by reflexivity. cbn [andb].
    rewrite strip_commas_skip by (assumption || reflexivity). reflexivity.
  - cbn [app strip_trailing_commas_from].
    specialize (IH (no_dangling_tail _ _ H)).
    destruct (chr_eqb c comma) eqn:E.
    + apply chr_eqb_eq in E. subst c.
      assert (Hf : closer_follows (inner ++ comma :: ws ++ [rbrace]) = false).
      { pose proof (H [] (inner ++ [rbrace]) eq_refl) as Hn.
        unfold closer_follows in *. rewrite dropwhile_app in *.
        destruct (dropwhile is_space inner) as [|x r]; [reflexivity | exact Hn]. }
      rewrite Hf. cbn [andb]. rewrite IH. reflexivity.
    + cbn [andb]. rewrite IH. reflexivity.
Qed.

(** *** What the scan cannot find *)

Lemma in_skipn (n : nat) (s : pystr) (x : ascii) : In x (skipn n s) -> In x s.
Proof.
  revert s. induction n as [|n IH]; intros s H; [exact H |].
  destruct s as [|c s]; [exact H |]. right. apply IH, H.
Qed.

Lemma in_rev_dropwhile (p : ascii -> bool) (s : pystr) (x : ascii) :
  In x (rev (dropwhile p (rev s))) -> In x s.
Proof.
  intros H. apply in_rev in H. apply dropwhile_in in H.
  apply in_rev in H. exact H.
Qed.

Lemma in_strip (s : pystr) (x : ascii) : In x (strip s) -> In x s.
Proof.
  unfold strip, rstrip, lstrip. intros H.
  apply in_rev_dropwhile in H. apply dropwhile_in in H. exact H.
Qed.

Lemma in_strip_fences (s : pystr) (x : ascii) :
  In x (_strip_code_fences s) -> In x s.
Proof.
  unfold _strip_code_fences. intros H.
  assert (H1 : In x (if startswith (str "```") (strip s)
                     then strip (strip_char backtick (strip s))
                     else strip s)).
  { destruct (startswith (str "json") _) in H; [| exact H].
    apply dropwhile_in, in_skipn in H. exact H. }
  apply in_strip.
  destruct (startswith (str "```") (strip s)); [| exact H1].
  apply in_strip in H1. unfold strip_char in H1.
  apply in_rev_dropwhile, dropwhile_in in H1. exact H1.
Qed.

Fixpoint dangling_free (s : pystr) : bool :=
  match s with
  | [] => true
  | c :: s' => negb (chr_eqb c comma && closer_follows s') && dangling_free s'
  end.

Lemma dangling_free_ok (s : pystr) :
  dangling_free s = true -> no_dangling_comma s.
Proof.
  induction s as [|c s IH]; intros H pre post E.
  - destruct pre; discriminate.
  - cbn [dangling_free] in H. apply andb_true_iff in H. destruct H as [Hc Hs].
    destruct pre as [|x pre].
    + injection E as -> ->. rewrite chr_eqb_refl in Hc. cbn [andb] in Hc.
      destruct (closer_follows post); [discriminate | reflexivity].
    + injection E as _ E. apply (IH Hs pre post E).
Qed.

(** *** The pipeline *)

Section Repair.

Variable json_loads : pystr -> option json.
Variable disk_ok : bool.

(** What is asked of the strict parser: of a text that begins with a brace it
    makes an object, never [null]. *)
Definition loads_objects : Prop :=
  forall s v, json_loads (lbrace :: s) = Some v -> is_null v = false.

Lemma py_return_object (s : pystr) (v : json) :
  loads_objects -> json_loads (lbrace :: s) = Some v -> py_return v = Some v.
Proof. intros H E. unfold py_return. rewrite (H s v E). reflexivity. Qed.

(** An object between fences, with or without the label. *)
Lemma parse_fenced (inner lang ws1 ws2 : pystr) (m : list (pystr * json)) :
  json_loads (lbrace :: inner ++ [rbrace]) = Some (JObj m) ->
  all_space ws1 -> all_space ws2 -> lang = [] \/ json_label lang ->
  json_from_text json_loads disk_ok
    (str "```" ++ (lang ++ ws1 ++ (lbrace :: inner ++ [rbrace]) ++ ws2) ++ str "```")
    = (Some (JObj m), []).
Proof.
  intros E H1 H2 Hl. unfold json_from_text.
  replace (truthy (str "```" ++ _ ++ str "```")) with true by reflexivity.
  cbn [negb].
  assert (Hs : _strip_code_fences
                 (str "```" ++ (lang ++ ws1 ++ (lbrace :: inner ++ [rbrace]) ++ ws2)
                    ++ str "```") = lbrace :: inner ++ [rbrace]).
  { destruct Hl as [-> | Hl].
    - apply strip_fences_bare; assumption.
    - apply strip_fences_labelled; assumption. }
  rewrite Hs, E. reflexivity.
Qed.

(** The three parses, in their order, of a reply that begins with a
    balanced span. *)
Lemma parse_span (inner prose : pystr) :
  balanced inner ->
  json_from_text json_loads disk_ok ((lbrace :: inner ++ [rbrace]) ++ prose) =
    match json_loads ((lbrace :: inner ++ [rbrace]) ++ rstrip prose) with
    | Some v => (py_return v, [])
    | None =>
        match json_loads (lbrace :: inner ++ [rbrace]) with
        | Some v => (py_return v, [])
        | None =>
            match json_loads (strip_trailing_commas (lbrace :: inner ++ [rbrace])) with
            | Some v => (py_return v, [])
            | None =>
                (None, archive disk_ok ((lbrace :: inner ++ [rbrace]) ++ prose))
            end
        end
    end.
Proof.
  intros Hb.
  assert (Ht : truthy ((lbrace :: inner ++ [rbrace]) ++ prose) = true)
    by reflexivity.
  unfold json_from_text. rewrite Ht. cbn [negb].
  rewrite strip_fences_object.
  destruct (json_loads ((lbrace :: inner ++ [rbrace]) ++ rstrip prose));
    [reflexivity |].
  assert (Hx : _extract_json_braces ((lbrace :: inner ++ [rbrace]) ++ rstrip prose)
               = Some (lbrace :: inner ++ [rbrace])).
  { pose proof (extract_first_span [] inner (rstrip prose) (fun f => f) Hb) as X.
    cbn [app] in *. rewrite <- app_assoc. exact X. }
  rewrite Hx. reflexivity.
Qed.

(** An object and then prose. *)
Lemma parse_with_prose (inner prose : pystr) (m : list (pystr * json)) :
  loads_objects -> balanced inner ->
  json_loads (lbrace :: inner ++ [rbrace]) = Some (JObj m) ->
  exists v,
    json_from_text json_loads disk_ok ((lbrace :: inner ++ [rbrace]) ++ prose)
      = (Some v, []) /\
    (json_loads ((lbrace :: inner ++ [rbrace]) ++ rstrip prose) = None ->
     v = JObj m).
Proof.
  intros Hobj Hb E.
  assert (Ht : truthy ((lbrace :: inner ++ [rbrace]) ++ prose) = true)
    by reflexivity.
  unfold json_from_text. rewrite Ht. cbn [negb].
  rewrite strip_fences_object.
  destruct (json_loads ((lbrace :: inner ++ [rbrace]) ++ rstrip prose))
    as [v|] eqn:Es.
  - exists v. split; [| discriminate].
    cbn [app] in Es. rewrite (py_return_object _ v Hobj Es). reflexivity.
  - exists (JObj m). split; [| reflexivity].
    assert (Hx : _extract_json_braces ((lbrace :: inner ++ [rbrace]) ++ rstrip prose)
                 = Some (lbrace :: inner ++ [rbrace])).
    { pose proof (extract_first_span [] inner (rstrip prose) (fun f => f) Hb) as X.
      cbn [app] in *. rewrite <- app_assoc. exact X. }
    rewrite Hx. cbn [truthy]. rewrite E. reflexivity.
Qed.

(** An object with a comma too many before its last brace. *)
Lemma parse_trailing_comma (inner ws : pystr) (m : list (pystr * json)) :
  loads_objects -> balanced inner ->
  no_dangling_comma (inner ++ [rbrace]) -> all_space ws ->
  json_loads (lbrace :: inner ++ [rbrace]) = Some (JObj m) ->
  exists v,
    json_from_text json_loads disk_ok (lbrace :: inner ++ comma :: ws ++ [rbrace])
      = (Some v, []) /\
    (json_loads (lbrace :: inner ++ comma :: ws ++ [rbrace]) = None -> v = JObj m).
Proof.
  intros Hobj Hb Hd Hws E. unfold json_from_text. cbn [truthy negb].
  assert (Hshape : lbrace :: inner ++ comma :: ws ++ [rbrace]
                   = (lbrace :: (inner ++ comma :: ws) ++ [rbrace]) ++ []).
  { rewrite app_nil_r. cbn [app]. rewrite <- app_assoc. reflexivity. }
  assert (Hs : _strip_code_fences (lbrace :: inner ++ comma :: ws ++ [rbrace])
               = lbrace :: inner ++ comma :: ws ++ [rbrace]).
  { rewrite Hshape at 1. rewrite strip_fences_object.
    change (rstrip []) with (@nil ascii). symmetry. exact Hshape. }
  rewrite Hs.
  destruct (json_loads (lbrace :: inner ++ comma :: ws ++ [rbrace]))
    as [v|] eqn:Es.
  - exists v. split; [| discriminate].
    rewrite (py_return_object _ v Hobj Es). reflexivity.
  - exists (JObj m). split; [| reflexivity].
    assert (Hx : _extract_json_braces (lbrace :: inner ++ comma :: ws ++ [rbrace])
                 = Some (lbrace :: inner ++ comma :: ws ++ [rbrace])).
    { assert (Hb' : balanced (inner ++ comma :: ws)).
      { apply balanced_app; [assumption |].
        constructor; try discriminate. apply balanced_spaces, Hws. }
      pose proof (extract_first_span [] (inner ++ comma :: ws) [] (fun f => f) Hb') as X.
      cbn [app] in X. rewrite <- app_assoc in X. exact X. }
    rewrite Hx. cbn [truthy]. rewrite Es.
    unfold strip_trailing_commas. cbn [strip_trailing_commas_from].
    replace (chr_eqb lbrace comma) with false by reflexivity. cbn [andb].
    rewrite strip_commas_trailing by assumption.
    rewrite E. reflexivity.
Qed.

(** A reply without an opening brace. *)
Lemma parse_no_brace (raw : pystr) :
  ~ In lbrace raw ->
  json_from_text json_loads disk_ok raw =
    if truthy raw then
      match json_loads (_strip_code_fences raw) with
      | Some v => (py_return v, [])
      | None => (None, archive disk_ok raw)
      end
    else (None, []).
Proof.
  intros H. unfold json_from_text. destruct (truthy raw); [| reflexivity].
  cbn [negb]. destruct (json_loads (_strip_code_fences raw)); [reflexivity |].
  rewrite extract_no_brace; [reflexivity |].
  intros Hin. apply H. apply in_strip_fences, Hin.
Qed.

End Repair.

(** C6, as the code has it. [json_from_text] strips the fences and the
    label, tries the strict parser, then the first balanced span (braces in
    string literals and escaped quotes do not count), then that span without
    its dangling commas. So an object between fences parses; an object followed
    by prose parses; an object with one comma too many before its last brace
    parses when the text without its dangling commas does, to that object
    when it has no other dangling comma. A reply
    without an opening brace is archived only when it is not empty and the
    strict parser rejects it: an empty reply gives [None] and no side file,
    and a reply the strict parser accepts is returned. *)
Theorem repair_pipeline (json_loads : pystr -> option json) (disk_ok : bool) :
  loads_objects json_loads ->
  (forall pre inner rest,
     ~ In lbrace pre -> balanced inner ->
     _extract_json_braces (pre ++ lbrace :: inner ++ rbrace :: rest)
       = Some (lbrace :: inner ++ [rbrace])) /\
  (forall inner prose,
     balanced inner ->
     json_from_text json_loads disk_ok ((lbrace :: inner ++ [rbrace]) ++ prose) =
       match json_loads ((lbrace :: inner ++ [rbrace]) ++ rstrip prose) with
       | Some v => (py_return v, [])
       | None =>
           match json_loads (lbrace :: inner ++ [rbrace]) with
           | Some v => (py_return v, [])
           | None =>
               match json_loads
                       (strip_trailing_commas (lbrace :: inner ++ [rbrace])) with
               | Some v => (py_return v, [])
               | None =>
                   (None,
                    archive disk_ok ((lbrace :: inner ++ [rbrace]) ++ prose))
               end
           end
       end) /\
  (forall inner m,
     balanced inner ->
     json_loads (lbrace :: inner ++ [rbrace]) = Some (JObj m) ->
     (forall lang ws1 ws2,
        all_space ws1 -> all_space ws2 -> lang = [] \/ json_label lang ->
        json_from_text json_loads disk_ok
          (str "```" ++ (lang ++ ws1 ++ (lbrace :: inner ++ [rbrace]) ++ ws2)
             ++ str "```")
          = (Some (JObj m), [])) /\
     (forall prose,
        exists v,
          json_from_text json_loads disk_ok
            ((lbrace :: inner ++ [rbrace]) ++ prose) = (Some v, []) /\
          (json_loads ((lbrace :: inner ++ [rbrace]) ++ rstrip prose) = None ->
           v = JObj m)) /\
     (forall ws,
        no_dangling_comma (inner ++ [rbrace]) -> all_space ws ->
        exists v,
          json_from_text json_loads disk_ok
            (lbrace :: inner ++ comma :: ws ++ [rbrace]) = (Some v, []) /\
          (json_loads (lbrace :: inner ++ comma :: ws ++ [rbrace]) = None ->
           v = JObj m))) /\
  (forall raw,
     ~ In lbrace raw ->
     json_from_text json_loads disk_ok raw =
       if truthy raw then
         match json_loads (_strip_code_fences raw) with
         | Some v => (py_return v, [])
         | None => (None, archive disk_ok raw)
         end
       else (None, [])).
Proof.
  intros Hobj. split; [| split; [| split]].
  - intros pre inner rest. apply extract_first_span.
  - intros inner prose. apply parse_span.
  - intros inner m Hb E. split; [| split].
    + intros lang ws1 ws2 H1 H2 Hl. apply parse_fenced; assumption.
    + intros prose. apply parse_with_prose; assumption.
    + intros ws Hd Hws. apply parse_trailing_comma; assumption.
  - intros raw. apply parse_no_brace.
Qed.

(** *** Worked examples *)

Lemma basic_loads_objects : loads_objects json_loads_basic.
Proof.
  intros s v H. unfold json_loads_basic in H.
  cbn [parse_value skip_ws dropwhile] in H.
  replace (is_json_ws lbrace) with false in H by reflexivity.
  rewrite chr_eqb_refl in H.
  destruct (skip_ws s) as [|d rest']; [discriminate |].
  destruct (chr_eqb d rbrace).
  - destruct (skip_ws rest'); [| discriminate]. injection H as <-. reflexivity.
  - destruct (parse_members _ _ _) as [[m r]|]; [| discriminate].
    destruct (skip_ws r); [| discriminate]. injection H as <-. reflexivity.
Qed.

(** The inside of the object [{"a": 1}]. *)
Definition sample_inner : pystr := js "'a': 1".
Definition sample_object : json := JObj [(str "a", JNum 1)].

Lemma sample_inner_balanced : balanced sample_inner.
Proof.
  apply (b_str (str "a") (str ": 1")).
  - apply sb_chr; [discriminate | discriminate | constructor].
  - repeat (apply b_chr; [discriminate | discriminate | discriminate |]).
    constructor.
Qed.

Lemma repair_pipeline_witness :
  json_from_text json_loads_basic true
    (str "```" ++ (str "json" ++ [ascii_of_N 10]
                     ++ (lbrace :: sample_inner ++ [rbrace]) ++ [ascii_of_N 10])
       ++ str "```") = (Some sample_object, []) /\
  (exists v,
     json_from_text json_loads_basic true
       ((lbrace :: sample_inner ++ [rbrace]) ++ str " Hope this helps!")
       = (Some v, []) /\
     (json_loads_basic ((lbrace :: sample_inner ++ [rbrace])
                          ++ rstrip (str " Hope this helps!")) = None ->
      v = sample_object)) /\
  (exists v,
     json_from_text json_loads_basic true
       (lbrace :: sample_inner ++ comma :: str " " ++ [rbrace]) = (Some v, []) /\
     (json_loads_basic (lbrace :: sample_inner ++ comma :: str " " ++ [rbrace])
        = None -> v = sample_object)).
Proof.
  destruct (repair_pipeline json_loads_basic true basic_loads_objects)
    as [_ [_ [H _]]].
  destruct (H sample_inner [(str "a", JNum 1)] sample_inner_balanced eq_refl)
    as [Hfence [Hprose Hcomma]].
  split; [| split].
  - apply Hfence.
    + repeat constructor.
    + repeat constructor.
    + right. reflexivity.
  - apply Hprose.
  - apply Hcomma.
    + apply dangling_free_ok. reflexivity.
    + repeat constructor.
Defined.

(** The same replies, run. *)
Example replies_run :
  map (fun raw => json_from_text json_loads_basic true raw)
    [ str "```json" ++ [ascii_of_N 10] ++ js "{'a': 1}" ++ [ascii_of_N 10] ++ str "```";
      js "{'a': 1} Hope this helps!";
      js "{'a': 1, }";
      js "{'a': '}'} and a brace } in the prose";
      str "no object here";
      js "[1]";
      [] ]
  = [ (Some sample_object, []); (Some sample_object, []);
      (Some sample_object, []);
      (Some (JObj [(str "a", JStr (str "}"))]), []);
      (None, [Archive (str "no object here")]);
      (Some (JArr [JNum 1]), []);
      (None, []) ].
Proof. vm_compute. reflexivity. Qed.

(** C6 as stated, in its last part: a reply without an opening brace gives
    [None] and is archived. *)
Definition no_brace_is_archived : Prop :=
  forall (json_loads : pystr -> option json) (raw : pystr),
    ~ In lbrace raw ->
    json_from_text json_loads true raw = (None, [Archive raw]).

(** The empty reply has no brace, gives [None], and nothing is written. *)
Lemma empty_reply_counterexample : ~ no_brace_is_archived.
Proof.
  intros H. specialize (H json_loads_basic [] (fun f => f)).
  vm_compute in H. discriminate.
Qed.

End RepliesFacts.

(* ===================================================================== *)
(** * Part III: the rest of the stages                                     *)
(* ===================================================================== *)

(** ** filter.py: the title filter and the entry point of the stage *)
Module FilterStage.
Import PyStr Filter.

(** [(it.get(k) or "").strip()] *)
Definition field_text (f : option pystr) : pystr :=
  strip (match f with Some s => s | None => [] end).

(** What the loop over the items decides for one of them: [None] to keep it,
    or the [_drop_reason]. *)
Definition drop_reason (negs : list pystr) (it : item) : option pystr :=
  let title := field_text (it_title it) in
  let url := field_text (it_url it) in
  if (length title <? MIN_TITLE_LEN)%nat || negb (truthy url)
  then Some (str "missing_title_or_url")
  else
    let '(ok, reason) := title_should_keep negs title in
    if ok then None else Some reason.

(** The loop of [clean_and_dedupe] (and of [main]) that fills [kept_filter]
    and [dropped]. *)
Definition title_filter_step (negs : list pystr)
    (acc : list item * list (item * pystr)) (it : item)
  : list item * list (item * pystr) :=
  let '(kept_filter, dropped) := acc in
  match drop_reason negs it with
  | None => (kept_filter ++ [it], dropped)
  | Some reason => (kept_filter, dropped ++ [(it, reason)])
  end.

Definition title_filter (negs : list pystr) (items : list item)
  : list item * list (item * pystr) :=
  fold_left (title_filter_step negs) items ([], []).

(** [clean_and_dedupe]. [embed] stands for
    [embed_batch(model, [build_embed_text(it) for it in kept_filter])], the
    answer of the embedding model, [None] when it raises; the result is
    [None] when the stage raises. The staging files it writes are left out. *)
Definition clean_and_dedupe (fromisoformat : pystr -> option datetime)
    (clk : clock) (negs : list pystr)
    (embed : list item -> option (list vec)) (items : list item) (n : nat)
  : option (list item) :=
  match items with
  | [] => Some []
  | _ :: _ =>
      match fst (title_filter negs items) with
      | [] => Some []
      | kept_filter =>
          match embed kept_filter with
          | None => None
          | Some embs =>
              match greedy_dedupe fromisoformat clk kept_filter embs
                      SIM_THRESHOLD n with
              | Some (kept, dupes) => Some kept
              | None => None
              end
          end
      end
  end.

End FilterStage.

Module FilterStageFacts.
Import PyStr Regex Filter PyStrFacts FilterFacts DedupeFacts FilterStage.








(** *** The loop over the items *)










(** A small feed: two market stories that say the same, a sports story, a
    title that is too short and an item without [url]. *)
Definition news (ident title : string) (url : option string)
    (fetched : string) : item :=
  {| it_id := Some (str ident); it_title := Some (str title);
     it_url := option_map str url; it_source := Some (str "feed");
     published_at := None; fetched_at := Some (str fetched);
     dt_pub := None; dt_fetch := None |}.

Definition feed : list item :=
  [ news "n1" "  Infosys profit beats estimates "
      (Some "https://example.org/n1"%string) "2024-05-01T09:30:00";
    news "n2" "Cricket World Cup schedule announced"
      (Some "https://example.org/n2"%string) "2024-05-01T09:31:00";
    news "n3" "Markets" (Some "https://example.org/n3"%string)
      "2024-05-01T09:32:00";
    news "n4" "Rupee opens flat against the dollar" (Some "   "%string)
      "2024-05-01T09:33:00";
    news "n5" "Infosys tops profit estimates"
      (Some "https://example.org/n5"%string) "2024-05-01T09:20:00" ].


(** The feed through the loop. *)
Example title_filter_feed :
  map (fun it => it_id it) (fst (title_filter NEG_TITLE_KEYWORDS feed))
    = [Some (str "n1"); Some (str "n5")] /\
  map (fun d => (it_id (fst d), snd d)) (snd (title_filter NEG_TITLE_KEYWORDS feed))
    = [ (Some (str "n2"), str "negative_keyword(cricket)");
        (Some (str "n3"), str "missing_title_or_url");
        (Some (str "n4"), str "missing_title_or_url") ].
Proof. vm_compute. split; reflexivity. Qed.

End FilterStageFacts.

(** ** More on the duplicate detector *)
Module DedupeMore.
Import PyStr Filter PyStrFacts DedupeFacts FilterStage FilterStageFacts.

(** *** Whatever the timestamps: what comes out went in *)

Lemma insert_by_perm {A : Type} (lt : A -> A -> option bool) (x : A)
    (l r : list A) :
  insert_by lt x l = Some r -> Permutation (x :: l) r.
Proof.
  revert r. induction l as [|y l IH]; intros r E.
  - injection E as <-. apply Permutation_refl.
  - cbn [insert_by] in E. destruct (lt x y) as [[|]|]; [| | discriminate].
    + injection E as <-. apply Permutation_refl.
    + destruct (insert_by lt x l) as [r'|]; [| discriminate].
      injection E as <-.
      eapply Permutation_trans; [apply perm_swap |]. apply perm_skip, IH.
      reflexivity.
Qed.

Lemma sorted_by_from_perm {A : Type} (lt : A -> A -> option bool)
    (l acc r : list A) :
  fold_left (fun acc x => match acc with
                          | Some r => insert_by lt x r
                          | None => None
                          end) l (Some acc) = Some r ->
  Permutation (acc ++ l) r.
Proof.
  revert acc. induction l as [|x l IH]; intros acc E.
  - injection E as <-. rewrite app_nil_r. apply Permutation_refl.
  - cbn [fold_left] in E. destruct (insert_by lt x acc) as [r1|] eqn:E1.
    + apply insert_by_perm in E1. apply IH in E.
      eapply Permutation_trans; [| exact E].
      eapply Permutation_trans; [apply Permutation_sym, Permutation_middle |].
      exact (Permutation_app_tail l E1).
    + exfalso. clear - E. induction l as [|y l IHl]; [discriminate |].
      apply IHl. exact E.
Qed.

Lemma sorted_by_perm {A : Type} (lt : A -> A -> option bool) (l r : list A) :
  sorted_by lt l = Some r -> Permutation l r.
Proof. intros E. apply (sorted_by_from_perm lt l [] r E). Qed.

Definition clear (it : item) : item := set_scratch it None None.

Lemma Forall2_In_l {A B : Type} (P : A -> B -> Prop) (l : list A)
    (l' : list B) (x : A) :
  Forall2 P l l' -> In x l -> exists y, In y l' /\ P x y.
Proof.
  induction 1 as [|a b l l' Hab _ IH]; intros Hin.
  - destruct Hin.
  - destruct Hin as [<- | Hin].
    + exists b. split; [left; reflexivity | exact Hab].
    + destruct (IH Hin) as [y [Hy Hp]]. exists y. split; [right |]; assumption.
Qed.

(** The items of the stamped list are the input items, but for the keys. *)
Lemma stamped_item fi clk (items : list item) (embs : list vec) (n : nat)
    (x : key * (item * vec)) :
  In x (stamped fi clk items embs n) ->
  exists it, In it items /\ clear (fst (snd x)) = clear it.
Proof.
  unfold stamped. intros Hx. apply in_map_iff in Hx.
  destruct Hx as [[[k it'] e] [<- Hin]]. apply in_combine_l in Hin.
  destruct (Forall2_In_l _ _ _ _ (stamp_all_items fi clk items n) Hin)
    as [it [Hi [Hs _]]].
  exists it. split; [exact Hi | exact Hs].
Qed.

Lemma sublist_In {A : Type} (l1 l2 : list A) (x : A) :
  sublist l1 l2 -> In x l1 -> In x l2.
Proof.
  induction 1 as [|y l1 l2 _ IH|y l1 l2 _ IH]; intros Hin.
  - destruct Hin.
  - destruct Hin as [<- | Hin]; [left; reflexivity | right; apply IH, Hin].
  - right. apply IH, Hin.
Qed.

Lemma sublist_length_le {A : Type} (l1 l2 : list A) :
  sublist l1 l2 -> (length l1 <= length l2)%nat.
Proof. induction 1; simpl; lia. Qed.

(** Whenever [greedy_dedupe] returns, it returns input items (without the
    scratch keys), one audit record for each of the others, and at least one
    item if it was given any. *)
Lemma dedupe_returns fi clk (items : list item) (embs : list vec) (thr : Q)
    (n : nat) (kept : list item) (dupes : list dupe) :
  greedy_dedupe fi clk items embs thr n = Some (kept, dupes) ->
  (forall k, In k kept -> exists it, In it items /\ k = clear it) /\
  (length kept + length dupes)%nat = length items /\
  (items <> [] -> kept <> []).
Proof.
  unfold greedy_dedupe, evaluation_order. intros E.
  destruct (length items <=? length embs)%nat eqn:Hlen; [| discriminate].
  apply Nat.leb_le in Hlen.
  destruct (sorted_by _ _) as [order|] eqn:Es; [| discriminate].
  apply sorted_by_perm in Es. fold (stamped fi clk items embs n) in Es.
  pose proof (scan_partition thr (map snd order)) as H.
  destruct (scan thr (map snd order)) as [[kept0 keptE] dupes0].
  destruct H as [Hsub [_ [Hcount Hhd]]].
  injection E as <- <-.
  assert (Hlo : length order = length items).
  { rewrite <- (Permutation_length Es). unfold stamped.
    rewrite length_map, length_combine.
    pose proof (Forall2_length _ _ _ (stamp_all_items fi clk items n)) as L.
    etransitivity; [apply Nat.min_l | exact L].
    etransitivity; [apply Nat.eq_le_incl; exact L | exact Hlen]. }
  split; [| split].
  - intros k Hk. apply in_map_iff in Hk. destruct Hk as [k0 [<- Hk0]].
    apply (sublist_In _ _ _ Hsub) in Hk0.
    apply in_map_iff in Hk0. destruct Hk0 as [[it0 e0] [<- Hx]].
    apply in_map_iff in Hx. destruct Hx as [x [Hx Hin]].
    apply Permutation_sym in Es. apply (Permutation_in x Es) in Hin.
    destruct (stamped_item fi clk items embs n x Hin) as [it [Hi Hc]].
    exists it. split; [exact Hi |]. rewrite Hx in Hc. exact Hc.
  - rewrite length_map, Hcount, length_map. exact Hlo.
  - intros Hne Hk. apply (f_equal (@length item)) in Hk.
    rewrite length_map in Hk. cbn [length] in Hk.
    destruct kept0; [| discriminate].
    destruct order as [|x order]; [destruct items; [congruence | discriminate] |].
    cbn [map hd_error] in Hhd. discriminate.
Qed.

(** *** Comparable timestamps *)

(** All keys carry an offset, or none does. *)
Definition comparable_keys (l : list (key * (item * vec))) : Prop :=
  exists aw, forall x, In x l ->
    aware (fst (fst x)) = aw /\ aware (snd (fst x)) = aw.

Lemma key_lt_uniform (aw : bool) (k1 k2 : key) :
  aware (fst k1) = aw -> aware (snd k1) = aw ->
  aware (fst k2) = aw -> aware (snd k2) = aw ->
  key_lt k1 k2 = Some (lex_lt (micros (fst k1), micros (snd k1))
                              (micros (fst k2), micros (snd k2))).
Proof.
  intros H1 H1' H2 H2'. unfold key_lt, dt_eq, dt_lt, lex_lt.
  rewrite H1, H1', H2, H2', Bool.eqb_reflx. cbn [andb fst snd].
  destruct (micros (fst k1) =? micros (fst k2))%Z eqn:E1.
  - apply Z.eqb_eq in E1. rewrite E1, Z.ltb_irrefl. cbn [orb].
    destruct (micros (snd k1) =? micros (snd k2))%Z eqn:E2; [| reflexivity].
    apply Z.eqb_eq in E2. rewrite E2, Z.ltb_irrefl. reflexivity.
  - rewrite andb_false_l, orb_false_r. reflexivity.
Qed.

Lemma sorted_comparable (l : list (key * (item * vec))) :
  comparable_keys l ->
  exists r,
    sorted_by (fun x y => key_lt (fst x) (fst y)) l = Some r /\
    Permutation l r /\ ascending rank_of r /\
    forall v, of_rank rank_of v r = of_rank rank_of v l.
Proof.
  intros [aw Haw].
  apply (sorted_by_ok (fun x y => key_lt (fst x) (fst y)) rank_of).
  intros x y Hx Hy. unfold rank_of.
  destruct (Haw x Hx) as [? ?], (Haw y Hy) as [? ?].
  apply (key_lt_uniform aw); assumption.
Qed.

(** X4. When the sort keys are comparable (all timestamps carry an offset
    or none does) and there is a vector for every item, [greedy_dedupe]
    returns: the items are evaluated in ascending order of (published,
    fetched), items with the same two instants in input order; the first one
    evaluated is kept, the kept items are a subsequence of that order, and
    the kept items and the audit records together are as many as the
    items. *)
Theorem dedupe_in_time_order fi clk (items : list item) (embs : list vec)
    (thr : Q) (n : nat) :
  (length items <= length embs)%nat ->
  comparable_keys (stamped fi clk items embs n) ->
  exists order kept keptE dupes,
    evaluation_order fi clk items embs n = Some order /\
    Permutation (stamped fi clk items embs n) order /\
    ascending rank_of order /\
    (forall v, of_rank rank_of v order
               = of_rank rank_of v (stamped fi clk items embs n)) /\
    scan thr (map snd order) = (kept, keptE, dupes) /\
    sublist kept (map fst (map snd order)) /\
    hd_error kept = hd_error (map fst (map snd order)) /\
    (length kept + length dupes)%nat = length items /\
    greedy_dedupe fi clk items embs thr n = Some (map clear kept, dupes).
Proof.
  intros Hlen Hcmp.
  destruct (sorted_comparable _ Hcmp) as [order [E [Hp [Hs Hst]]]].
  assert (Eo : evaluation_order fi clk items embs n = Some order).
  { unfold evaluation_order. apply Nat.leb_le in Hlen. rewrite Hlen. exact E. }
  pose proof (scan_partition thr (map snd order)) as H.
  destruct (scan thr (map snd order)) as [[kept keptE] dupes] eqn:Es.
  destruct H as [Hsub [_ [Hcount Hhd]]].
  assert (Eg : greedy_dedupe fi clk items embs thr n = Some (map clear kept, dupes)).
  { unfold greedy_dedupe. rewrite Eo, Es. reflexivity. }
  exists order, kept, keptE, dupes. repeat split; try assumption.
  destruct (dedupe_returns fi clk items embs thr n _ _ Eg) as [_ [Hc _]].
  rewrite length_map in Hc. exact Hc.
Qed.

(** *** What the scan guarantees *)

Local Open Scope Q_scope.

Lemma ordpairs_snoc {A : Type} (R : A -> A -> Prop) (l : list A) (e : A) :
  ForallOrdPairs R l -> Forall (fun v => R v e) l -> ForallOrdPairs R (l ++ [e]).
Proof.
  induction 1 as [|a l Ha _ IH]; intros He; cbn [app].
  - repeat constructor.
  - apply Forall_cons_iff in He. destruct He as [Hae He]. constructor.
    + apply Forall_app. split; [exact Ha | constructor; [exact Hae | constructor]].
    + apply IH, He.
Qed.

(** Every processed vector is a kept one or is within the threshold of a
    kept one. *)
Definition covered (thr : Q) (keptE : list vec) (e : vec) : Prop :=
  In e keptE \/ exists v, In v keptE /\ thr <= dot v e.

Lemma covered_grow (thr : Q) (keptE : list vec) (e e' : vec) :
  covered thr keptE e -> covered thr (keptE ++ [e']) e.
Proof.
  intros [H | [v [Hv Hd]]].
  - left. apply in_or_app. left. exact H.
  - right. exists v. split; [apply in_or_app; left; exact Hv | exact Hd].
Qed.

Lemma scan_step_guarantee (thr : Q) (kept : list item) (keptE : list vec)
    (dupes : list dupe) (it : item) (e : vec) :
  length kept = length keptE ->
  ForallOrdPairs (fun u v => dot u v < thr) keptE ->
  let '(kept', keptE', dupes') := scan_step thr (kept, keptE, dupes) (it, e) in
  length kept' = length keptE' /\
  ForallOrdPairs (fun u v => dot u v < thr) keptE' /\
  covered thr keptE' e /\
  (forall x, covered thr keptE x -> covered thr keptE' x).
Proof.
  intros Hlen Hsep. destruct keptE as [|v0 keptE0] eqn:Hk.
  - destruct kept; [| discriminate]. unfold scan_step. cbn [app length].
    repeat split.
    + constructor; constructor.
    + left. left. reflexivity.
    + intros x Hx. apply (covered_grow thr [] x e Hx).
  - rewrite <- Hk in *.
    destruct (scan_step_later thr kept keptE dupes it e) as
      [j [canon [mx [_ [Hj [Hmax [_ E]]]]]]].
    { rewrite Hk. discriminate. }
    { exact Hlen. }
    rewrite E. unfold sims in Hj, Hmax.
    destruct (Qle_bool thr mx) eqn:Hle.
    + apply Qle_bool_iff in Hle. repeat split; try assumption.
      * right. apply nth_error_In in Hj. apply in_map_iff in Hj.
        destruct Hj as [v [Hv Hin]]. exists v. split; [exact Hin |].
        rewrite Hv. exact Hle.
      * intros x Hx. exact Hx.
    + assert (Hlt : mx < thr).
      { apply Qnot_le_lt. intros H. apply Qle_bool_iff in H. congruence. }
      repeat split.
      * rewrite !length_app, Hlen. reflexivity.
      * apply ordpairs_snoc; [exact Hsep |].
        apply List.Forall_forall. intros v Hv.
        eapply Qle_lt_trans; [| exact Hlt].
        apply Hmax. apply in_map_iff. exists v. auto.
      * left. apply in_or_app. right. left. reflexivity.
      * intros x Hx. apply covered_grow, Hx.
Qed.

Lemma scan_guarantee_from (thr : Q) (order : list (item * vec))
    (st : scan_state) (seen : list (item * vec)) :
  (let '(kept, keptE, _) := st in
   length kept = length keptE /\
   ForallOrdPairs (fun u v => dot u v < thr) keptE /\
   forall x, In x seen -> covered thr keptE (snd x)) ->
  let '(kept, keptE, _) := fold_left (scan_step thr) order st in
  length kept = length keptE /\
  ForallOrdPairs (fun u v => dot u v < thr) keptE /\
  forall x, In x (seen ++ order) -> covered thr keptE (snd x).
Proof.
  revert st seen. induction order as [|[it e] order IH]; intros st seen H.
  - cbn [fold_left]. rewrite app_nil_r. exact H.
  - cbn [fold_left]. destruct st as [[kept keptE] dupes].
    destruct H as [Hlen [Hsep Hcov]].
    pose proof (scan_step_guarantee thr kept keptE dupes it e Hlen Hsep) as G.
    destruct (scan_step thr (kept, keptE, dupes) (it, e)) as [[kept' keptE'] dupes'].
    destruct G as [Hlen' [Hsep' [Hce Hmono]]].
    specialize (IH (kept', keptE', dupes') (seen ++ [(it, e)])).
    replace (seen ++ (it, e) :: order) with ((seen ++ [(it, e)]) ++ order)
      by (rewrite <- app_assoc; reflexivity).
    apply IH. repeat split; try assumption.
    intros x Hx. apply in_app_or in Hx. destruct Hx as [Hx | [<- | []]].
    + apply Hmono, Hcov, Hx.
    + exact Hce.
Qed.

(** X5. After the scan no two kept vectors are duplicates of each other:
    the similarity of a kept vector to every vector kept before it is below
    the threshold. And nothing is lost: every vector scanned is a kept one or
    has a similarity of at least the threshold to a kept one. *)
Theorem scan_separates_and_covers (thr : Q) (order : list (item * vec)) :
  let '(kept, keptE, dupes) := scan thr order in
  length kept = length keptE /\
  ForallOrdPairs (fun u v => dot u v < thr) keptE /\
  forall x, In x order -> covered thr keptE (snd x).
Proof.
  unfold scan.
  apply (scan_guarantee_from thr order ([], [], []) []).
  repeat split.
  - constructor.
  - intros x [].
Qed.

Local Close Scope Q_scope.

(** *** The order of the input *)

(** Two ascending lists with the same elements, no two of the same rank, are
    the same list. *)
Lemma lex_lt_total (a b : Z * Z) :
  lex_lt a b = false -> lex_lt b a = false -> a = b.
Proof.
  intros H1 H2. destruct a as [a1 a2], b as [b1 b2]. unfold lex_lt in *.
  cbn [fst snd] in *.
  apply orb_false_iff in H1, H2. destruct H1 as [H1 H1'], H2 as [H2 H2'].
  apply Z.ltb_ge in H1, H2. assert (a1 = b1) by lia. subst.
  rewrite Z.eqb_refl in H1', H2'. cbn [andb] in H1', H2'.
  apply Z.ltb_ge in H1', H2'. f_equal. lia.
Qed.

Lemma rank_injective {A : Type} (rank : A -> Z * Z) (l : list A) (x y : A) :
  List.NoDup (map rank l) -> In x l -> In y l -> rank x = rank y -> x = y.
Proof.
  induction l as [|a l IH]; intros Hnd Hx Hy E; [destruct Hx |].
  cbn [map] in Hnd. apply List.NoDup_cons_iff in Hnd. destruct Hnd as [Ha Hnd].
  destruct Hx as [<- | Hx], Hy as [<- | Hy].
  - reflexivity.
  - exfalso. apply Ha. rewrite E. apply in_map, Hy.
  - exfalso. apply Ha. rewrite <- E. apply in_map, Hx.
  - apply IH; assumption.
Qed.

Lemma ascending_unique {A : Type} (rank : A -> Z * Z) (l l' : list A) :
  ascending rank l -> ascending rank l' -> Permutation l l' ->
  List.NoDup (map rank l) -> l = l'.
Proof.
  revert l'. induction l as [|x l IH]; intros l' Hs Hs' Hp Hnd.
  - apply Permutation_nil in Hp. congruence.
  - destruct l' as [|y l'].
    { apply Permutation_sym, Permutation_nil in Hp. discriminate. }
    apply StronglySorted_inv in Hs, Hs'.
    destruct Hs as [Hs Hx], Hs' as [Hs' Hy].
    rewrite List.Forall_forall in Hx, Hy.
    assert (Hxy : x = y).
    { assert (Hx' : In x (y :: l')) by (apply (Permutation_in x Hp); left; reflexivity).
      assert (Hy' : In y (x :: l))
        by (apply (Permutation_in y (Permutation_sym Hp)); left; reflexivity).
      destruct Hx' as [-> | Hx']; [reflexivity |].
      destruct Hy' as [-> | Hy']; [reflexivity |].
      apply (rank_injective rank (x :: l)); try assumption.
      - left. reflexivity.
      - right. exact Hy'.
      - apply lex_lt_total; [apply Hy, Hx' | apply Hx, Hy']. }
    subst y. f_equal. apply IH; try assumption.
    + eapply Permutation_cons_inv. exact Hp.
    + cbn [map] in Hnd. apply List.NoDup_cons_iff in Hnd. apply Hnd.
Qed.

(** The key and the stamped item of an item whose keys need no clock. *)
Definition stamp_of (fi : pystr -> option datetime) (it : item) : key * item :=
  fst (stamp fi (fun _ => 0%Z) it 0).

Lemma stamp_all_stamp_of fi clk (items : list item) (n : nat) :
  (forall it, In it items -> parse_candidate fi (fetched_at it) <> None) ->
  stamp_all fi clk items n = map (stamp_of fi) items.
Proof.
  revert n. induction items as [|it items IH]; intros n H; [reflexivity |].
  cbn [stamp_all map].
  destruct (parse_candidate fi (fetched_at it)) as [d|] eqn:Hf.
  - destruct (stamp_no_clock fi it d Hf) as [ki Hki].
    unfold stamp_of. rewrite (Hki clk n), (Hki (fun _ => 0%Z) 0%nat). cbn [fst].
    f_equal. apply IH. intros x Hx. apply H. right. exact Hx.
  - exfalso. apply (H it); [left; reflexivity | exact Hf].
Qed.

Definition stamp_pair (fi : pystr -> option datetime) (p : item * vec)
  : key * (item * vec) :=
  let '(k, it) := stamp_of fi (fst p) in (k, (it, snd p)).

Lemma stamped_pairs fi clk (pairs : list (item * vec)) (n : nat) :
  (forall p, In p pairs -> parse_candidate fi (fetched_at (fst p)) <> None) ->
  stamped fi clk (map fst pairs) (map snd pairs) n = map (stamp_pair fi) pairs.
Proof.
  intros H. unfold stamped. rewrite stamp_all_stamp_of.
  2:{ intros it Hin. apply in_map_iff in Hin. destruct Hin as [p [<- Hp]].
      apply H, Hp. }
  clear H. induction pairs as [|[it e] pairs IH]; [reflexivity |].
  cbn [map combine fst snd]. rewrite IH. unfold stamp_pair at 2. cbn [fst snd].
  destruct (stamp_of fi it). reflexivity.
Qed.

(** X6. The order of the input does not matter when no two items have the
    same pair of instants: if every item has a readable [fetched_at] and the
    keys are comparable and pairwise different, [greedy_dedupe] returns the
    same kept items and the same audit records for every rearrangement of
    the items (each with its vector). *)
Theorem dedupe_input_order fi clk (pairs pairs' : list (item * vec))
    (thr : Q) (n n' : nat) :
  Permutation pairs pairs' ->
  (forall p, In p pairs -> parse_candidate fi (fetched_at (fst p)) <> None) ->
  comparable_keys (map (stamp_pair fi) pairs) ->
  List.NoDup (map rank_of (map (stamp_pair fi) pairs)) ->
  greedy_dedupe fi clk (map fst pairs) (map snd pairs) thr n
    = greedy_dedupe fi clk (map fst pairs') (map snd pairs') thr n'.
Proof.
  intros Hp Hf Hcmp Hnd.
  assert (Hf' : forall p, In p pairs' ->
                  parse_candidate fi (fetched_at (fst p)) <> None).
  { intros p Hin. apply Hf. apply (Permutation_in p (Permutation_sym Hp) Hin). }
  assert (Hmp : Permutation (map (stamp_pair fi) pairs) (map (stamp_pair fi) pairs'))
    by (apply Permutation_map, Hp).
  assert (Hcmp' : comparable_keys (map (stamp_pair fi) pairs')).
  { destruct Hcmp as [aw Haw]. exists aw. intros x Hx. apply Haw.
    apply (Permutation_in x (Permutation_sym Hmp) Hx). }
  destruct (sorted_comparable _ Hcmp) as [r [E [Hpr [Hs _]]]].
  destruct (sorted_comparable _ Hcmp') as [r' [E' [Hpr' [Hs' _]]]].
  assert (Hrr : r = r').
  { apply (ascending_unique rank_of); try assumption.
    - eapply Permutation_trans; [apply Permutation_sym, Hpr |].
      eapply Permutation_trans; [exact Hmp | exact Hpr'].
    - eapply Permutation_NoDup; [| exact Hnd]. apply Permutation_map, Hpr. }
  unfold greedy_dedupe, evaluation_order.
  rewrite !length_map, !Nat.leb_refl.
  fold (stamped fi clk (map fst pairs) (map snd pairs) n).
  fold (stamped fi clk (map fst pairs') (map snd pairs') n').
  rewrite (stamped_pairs fi clk pairs n Hf), (stamped_pairs fi clk pairs' n' Hf').
  rewrite E, E', Hrr. reflexivity.
Qed.


(** *** Worked examples *)

Lemma dedupe_in_time_order_witness :
  exists order kept keptE dupes,
    evaluation_order fromisoformat_basic (fun _ => 0%Z) [item_b; item_a]
      [unit_70; unit_x] 0 = Some order /\
    Permutation (stamped fromisoformat_basic (fun _ => 0%Z) [item_b; item_a]
                   [unit_70; unit_x] 0) order /\
    ascending rank_of order /\
    (forall v, of_rank rank_of v order
               = of_rank rank_of v
                   (stamped fromisoformat_basic (fun _ => 0%Z) [item_b; item_a]
                      [unit_70; unit_x] 0)) /\
    scan SIM_THRESHOLD (map snd order) = (kept, keptE, dupes) /\
    sublist kept (map fst (map snd order)) /\
    hd_error kept = hd_error (map fst (map snd order)) /\
    (length kept + length dupes)%nat = length [item_b; item_a] /\
    greedy_dedupe fromisoformat_basic (fun _ => 0%Z) [item_b; item_a]
      [unit_70; unit_x] SIM_THRESHOLD 0 = Some (map clear kept, dupes).
Proof.
  apply (dedupe_in_time_order fromisoformat_basic (fun _ => 0%Z) [item_b; item_a]
           [unit_70; unit_x] SIM_THRESHOLD 0).
  - cbn [length]. lia.
  - exists false. intros x Hx. vm_compute in Hx.
    destruct Hx as [<- | [<- | []]]; split; reflexivity.
Defined.

Lemma dedupe_input_order_witness :
  greedy_dedupe fromisoformat_basic (fun _ => 0%Z)
    (map fst [(item_b, unit_70); (item_a, unit_x)])
    (map snd [(item_b, unit_70); (item_a, unit_x)]) SIM_THRESHOLD 0
  = greedy_dedupe fromisoformat_basic (fun _ => 0%Z)
      (map fst [(item_a, unit_x); (item_b, unit_70)])
      (map snd [(item_a, unit_x); (item_b, unit_70)]) SIM_THRESHOLD 0.
Proof.
  apply (dedupe_input_order fromisoformat_basic (fun _ => 0%Z)
           [(item_b, unit_70); (item_a, unit_x)]
           [(item_a, unit_x); (item_b, unit_70)] SIM_THRESHOLD 0 0).
  - apply perm_swap.
  - intros p [<- | [<- | []]]; vm_compute; discriminate.
  - exists false. intros x Hx. vm_compute in Hx.
    destruct Hx as [<- | [<- | []]]; split; reflexivity.
  - vm_compute. repeat constructor.
    + intros [H | []]. discriminate H.
    + intros [].
Defined.

(** The vectors of the sample feed: the two Infosys stories are similar. *)
Definition feed_embed (texts : list item) : option (list vec) :=
  Some (map (fun it => match it_id it with
                       | Some i => if pystr_eqb i (str "n5") then unit_70 else unit_x
                       | None => unit_x
                       end) texts).


End DedupeMore.

(** ** structurer.py: the schema and [coerce_and_validate] *)
Module Validate.
Import PyStr PyStrFacts Filter.

(** A Python float: a finite value, [nan], [inf] or [-inf]. *)
Inductive pyfloat : Type :=
| Fl (q : Q)
| Nan
| PInf
| NInf.

(** [a < b] on floats; every comparison with [nan] is false. *)
Definition flt_lt (a b : pyfloat) : bool :=
  match a, b with
  | Nan, _ => false
  | _, Nan => false
  | Fl p, Fl q => negb (Qle_bool q p)
  | Fl _, PInf => true
  | Fl _, NInf => false
  | PInf, _ => false
  | NInf, NInf => false
  | NInf, _ => true
  end.

(** [max(a, b)] and [min(a, b)]: the first argument, unless the second is
    strictly beyond it. *)
Definition py_max (a b : pyfloat) : pyfloat := if flt_lt a b then b else a.
Definition py_min (a b : pyfloat) : pyfloat := if flt_lt b a then b else a.

(** The values a reply is made of once parsed, and those the stage puts
    beside them. A [dict] keeps its keys in the order of insertion. *)
#[warnings="-register-all"]
Inductive pyval : Type :=
| PNone
| PBool (b : bool)
| PInt (z : Z)
| PFloat (x : pyfloat)
| PStr (s : pystr)
| PList (l : list pyval)
| PDict (d : list (pystr * pyval)).

Abbreviation dict := (list (pystr * pyval)) (only parsing).

(** [k in d], with the value *)
Fixpoint lookup_key (d : dict) (k : pystr) : option pyval :=
  match d with
  | [] => None
  | (k', v) :: d' => if pystr_eqb k k' then Some v else lookup_key d' k
  end.

(** [d.get(k)] *)
Definition get (d : dict) (k : pystr) : pyval :=
  match lookup_key d k with Some v => v | None => PNone end.

(** [d[k] = v] *)
Fixpoint setitem (d : dict) (k : pystr) (v : pyval) : dict :=
  match d with
  | [] => [(k, v)]
  | (k', v') :: d' =>
      if pystr_eqb k k' then (k', v) :: d' else (k', v') :: setitem d' k v
  end.

(** [d.pop(k)], the dictionary that is left *)
Definition pop (d : dict) (k : pystr) : dict :=
  List.filter (fun kv => negb (pystr_eqb k (fst kv))) d.

(** [d.setdefault(k, v)] *)
Definition setdefault (d : dict) (k : pystr) (v : pyval) : dict :=
  match lookup_key d k with
  | Some _ => d
  | None => setitem d k v
  end.

(** Truth value: [if v:] *)
Definition truth (v : pyval) : bool :=
  match v with
  | PNone => false
  | PBool b => b
  | PInt z => negb (z =? 0)%Z
  | PFloat (Fl q) => negb (Qeq_bool q 0)
  | PFloat _ => true
  | PStr s => truthy s
  | PList l => match l with [] => false | _ :: _ => true end
  | PDict d => match d with [] => false | _ :: _ => true end
  end.

(** [a or b] *)
Definition por (a b : pyval) : pyval := if truth a then a else b.

(** *** The schema

    The keywords [STRUCT_SCHEMA] uses, with the meaning the validator gives
    them (draft 2020-12): every keyword but [type] and [enum] passes on a
    value of another type than the one it speaks about.
    [additionalProperties: True] constrains nothing. *)
Inductive jtype : Type := TString | TNumber | TObject | TArray | TNull.

Inductive schema : Type :=
| SNil
| SCons (k : keyword) (rest : schema)
with keyword : Type :=
| KType (ts : list jtype)
| KRequired (ks : list pystr)
| KProperties (ps : props)
| KMinLength (n : nat)
| KEnum (vs : list pystr)
| KMinimum (q : Q)
| KMaximum (q : Q)
| KItems (s : schema)
with props : Type :=
| PNil
| PCons (k : pystr) (s : schema) (rest : props).

Definition sch (l : list keyword) : schema := fold_right SCons SNil l.

Definition props_of (l : list (string * schema)) : props :=
  fold_right (fun ks rest => PCons (str (fst ks)) (snd ks) rest) PNil l.

Definition strs (l : list string) : list pystr := map str l.

Definition STRUCT_SCHEMA : schema :=
  sch [ KType [TObject];
        KRequired (strs
          [ "id"; "title"; "summary"; "sentiment"; "ui_recommendation";
            "impact_analysis"; "category"; "tickers"; "entities"; "tags";
            "published_at"; "source"; "original_url"; "body_excerpt" ]%string);
        KProperties (props_of
          [ ("id", sch [KType [TString]]);
            ("title", sch [KType [TString]; KMinLength 3]);
            ("summary", sch [KType [TString]; KMinLength 10]);
            ("sentiment",
              sch [ KType [TObject];
                    KRequired (strs ["label"; "score"]%string);
                    KProperties (props_of
                      [ ("label",
                          sch [ KType [TString];
                                KEnum (strs ["positive"; "neutral";
                                             "negative"]%string) ]);
                        ("score",
                          sch [KType [TNumber]; KMinimum 0; KMaximum 1])
                      ]%string) ]);
            ("ui_recommendation", sch [KType [TString]; KMinLength 5]);
            ("impact_analysis", sch [KType [TString]; KMinLength 5]);
            ("category",
              sch [ KType [TString];
                    KEnum (strs
                      [ "Market News"; "Company Update"; "Earnings";
                        "Regulatory"; "Macro"; "Product Launch"; "Management";
                        "Funding"; "Other" ]%string) ]);
            ("tickers", sch [KType [TArray]; KItems (sch [KType [TString]])]);
            ("entities",
              sch [ KType [TArray];
                    KItems (sch
                      [ KType [TObject];
                        KRequired (strs ["type"; "value"]%string);
                        KProperties (props_of
                          [ ("type", sch [KType [TString]]);
                            ("value", sch [KType [TString]]) ]%string) ]) ]);
            ("tags", sch [KType [TArray]; KItems (sch [KType [TString]])]);
            ("published_at", sch [KType [TString; TNull]]);
            ("source", sch [KType [TString]]);
            ("original_url", sch [KType [TString]]);
            ("body_excerpt", sch [KType [TString]]) ]%string) ].

(** A [bool] is not a number for the validator. *)
Definition has_type (t : jtype) (v : pyval) : bool :=
  match t, v with
  | TString, PStr _ => true
  | TNumber, PInt _ => true
  | TNumber, PFloat _ => true
  | TObject, PDict _ => true
  | TArray, PList _ => true
  | TNull, PNone => true
  | _, _ => false
  end.

(** [Draft202012Validator(s).validate(v)] does not raise. *)
Fixpoint valid (s : schema) (v : pyval) {struct s} : bool :=
  match s with
  | SNil => true
  | SCons k rest => valid_keyword k v && valid rest v
  end
with valid_keyword (k : keyword) (v : pyval) {struct k} : bool :=
  match k with
  | KType ts => existsb (fun t => has_type t v) ts
  | KRequired ks =>
      match v with
      | PDict d =>
          forallb (fun k => match lookup_key d k with
                            | Some _ => true
                            | None => false
                            end) ks
      | _ => true
      end
  | KProperties ps =>
      match v with
      | PDict d => valid_props ps d
      | _ => true
      end
  | KMinLength n =>
      match v with
      | PStr s => (n <=? length s)%nat
      | _ => true
      end
  | KEnum vs =>
      match v with
      | PStr s => existsb (pystr_eqb s) vs
      | _ => false
      end
  | KMinimum q =>
      match v with
      | PInt z => negb (flt_lt (Fl (inject_Z z)) (Fl q))
      | PFloat x => negb (flt_lt x (Fl q))
      | _ => true
      end
  | KMaximum q =>
      match v with
      | PInt z => negb (flt_lt (Fl q) (Fl (inject_Z z)))
      | PFloat x => negb (flt_lt (Fl q) x)
      | _ => true
      end
  | KItems s =>
      match v with
      | PList l => forallb (valid s) l
      | _ => true
      end
  end
with valid_props (ps : props) (d : list (pystr * pyval)) {struct ps} : bool :=
  match ps with
  | PNil => true
  | PCons k s rest =>
      match lookup_key d k with
      | Some v => valid s v
      | None => true
      end && valid_props rest d
  end.

(** What [coerce_and_validate] and the lines around it can raise. *)
Inductive error : Type := AttributeError | ValidationError.

Section Coerce.

(** [datetime.fromisoformat]; [None] when it raises. *)
Variable fromisoformat : pystr -> option datetime.

(** [float(n)] of an [int] ([None] for [OverflowError]) and [float(s)] of
    a [str] ([None] for [ValueError]). *)
Variable float_int : Z -> option pyfloat.
Variable float_str : pystr -> option pyfloat.

(** [str(uuid.uuid4())] of the call. *)
Variable uuid : pystr.

(** [iso_parseable] *)
Definition iso_parseable (dt : pyval) : bool :=
  match dt with
  | PStr s =>
      if negb (truthy s) then false
      else
        match (if contains (str "+") s || endswith (str "Z") s
               then fromisoformat (replace (str "Z") (str "+00:00") s)
               else fromisoformat s) with
        | Some _ => true
        | None => false
        end
  | _ => false
  end.

(** [float(v)]; [None] when it raises. *)
Definition to_float (v : pyval) : option pyfloat :=
  match v with
  | PNone => None
  | PBool b => Some (Fl (if b then 1 else 0))
  | PInt z => float_int z
  | PFloat x => Some x
  | PStr s => float_str s
  | PList _ => None
  | PDict _ => None
  end.

Definition LABELS : list pystr := strs ["positive"; "neutral"; "negative"]%string.

Definition ARRAY_KEYS : list pystr := strs ["tickers"; "entities"; "tags"]%string.

Definition STRING_KEYS : list pystr :=
  strs [ "title"; "summary"; "ui_recommendation"; "impact_analysis";
         "category"; "source"; "original_url"; "body_excerpt" ]%string.

(** [coerce_and_validate] *)
Definition coerce_and_validate (obj : list (pystr * pyval))
  : error + list (pystr * pyval) :=
  (* id *)
  let obj := if negb (truth (get obj (str "id")))
             then setitem obj (str "id") (PStr uuid) else obj in
  (* published_at: keep ISO or set null *)
  let pa := get obj (str "published_at") in
  let obj := if negb (iso_parseable pa)
             then setitem obj (str "published_at") PNone else obj in
  (* sentiment label/score bounds *)
  match por (get obj (str "sentiment")) (PDict []) with
  | PDict sent =>
      match por (get sent (str "label")) (PStr (str "neutral")) with
      | PStr label =>
          let label := lower label in
          let label := if negb (existsb (pystr_eqb label) LABELS)
                       then str "neutral" else label in
          let score := match to_float (get sent (str "score")) with
                       | Some score => score
                       | None => Fl (1 # 2)
                       end in
          let score := py_min (py_max score (Fl 0)) (Fl 1) in
          let obj := setitem obj (str "sentiment")
                       (PDict [ (str "label", PStr label);
                                (str "score", PFloat score) ]) in
          (* arrays *)
          let obj := fold_left (fun obj k => setitem obj k (por (get obj k) (PList [])))
                       ARRAY_KEYS obj in
          (* strings *)
          let obj := fold_left (fun obj k =>
                                  match get obj k with
                                  | PNone => setitem obj k (PStr [])
                                  | _ => obj
                                  end) STRING_KEYS obj in
          (* validate final *)
          if valid STRUCT_SCHEMA (PDict obj) then inr obj else inl ValidationError
      | _ => inl AttributeError             (* no [lower] on the label *)
      end
  | _ => inl AttributeError                 (* no [get] on the sentiment *)
  end.

(** [str(uuid.uuid4())] of line 428, made whether it is used or not. *)
Variable uuid_default : pystr.

(** [it.get("fetched_at", datetime.utcnow().isoformat())]: the value the
    item holds, or the time of the call as text when it has no such key. *)
Variable fetched : pyval.

(** [it.get(k) or ""] *)
Definition text_of (f : option pystr) : pystr :=
  match f with Some s => if truthy s then s else [] | None => [] end.

(** Lines 424-434 of [_structure_one]: the mapping of [article_id] and the
    defaults taken from the item. *)
Definition structure_fields (it : Structurer.item) (obj : list (pystr * pyval))
  : list (pystr * pyval) :=
  let body := text_of (Structurer.it_body it) in
  let src := text_of (Structurer.it_source it) in
  let url := text_of (Structurer.it_url it) in
  let obj := if truth (get obj (str "article_id"))
                && negb (truth (get obj (str "id")))
             then setitem (pop obj (str "article_id")) (str "id")
                    (get obj (str "article_id"))
             else obj in
  let obj := setdefault obj (str "id")
               (PStr (let i := text_of (Structurer.it_id it) in
                      if truthy i then i else uuid_default)) in
  let obj := setdefault obj (str "source") (PStr src) in
  let obj := setdefault obj (str "original_url") (PStr url) in
  let obj := setdefault obj (str "body_excerpt")
               (PStr (if truthy body then firstn 300 body else [])) in
  setitem obj (str "fetched_at") fetched.

(** Lines 424-437: what is done to a parsed reply. A reply that is not an
    object has no [get]. *)
Definition normalize (it : Structurer.item) (reply : pyval)
  : error + list (pystr * pyval) :=
  match reply with
  | PDict obj => coerce_and_validate (structure_fields it obj)
  | _ => inl AttributeError
  end.

End Coerce.

End Validate.

Module ValidateFacts.
Import PyStr PyStrFacts Filter Validate.

Lemma pystr_eqb_eq (a b : pystr) : pystr_eqb a b = true <-> a = b.
Proof.
  unfold pystr_eqb. destruct (List.list_eq_dec ascii_dec a b); split;
    congruence.
Qed.

Lemma pystr_eqb_refl (a : pystr) : pystr_eqb a a = true.
Proof. apply pystr_eqb_eq. reflexivity. Qed.

Lemma pystr_eqb_neq (a b : pystr) : a <> b -> pystr_eqb a b = false.
Proof.
  intros H. destruct (pystr_eqb a b) eqn:E; [| reflexivity].
  apply pystr_eqb_eq in E. contradiction.
Qed.

(** *** Dictionaries *)

Lemma lookup_setitem (d : list (pystr * pyval)) (k k' : pystr) (v : pyval) :
  lookup_key (setitem d k v) k' = if pystr_eqb k' k then Some v else lookup_key d k'.
Proof.
  induction d as [|[k0 v0] d IH]; cbn [setitem lookup_key].
  - destruct (pystr_eqb k' k); reflexivity.
  - destruct (pystr_eqb k k0) eqn:E; cbn [lookup_key].
    + apply pystr_eqb_eq in E. subst k0.
      destruct (pystr_eqb k' k); reflexivity.
    + rewrite IH. destruct (pystr_eqb k' k0) eqn:E'; [| reflexivity].
      apply pystr_eqb_eq in E'. subst k0.
      destruct (pystr_eqb k' k) eqn:E''; [| reflexivity].
      apply pystr_eqb_eq in E''. subst k'. rewrite pystr_eqb_refl in E.
      discriminate.
Qed.

Lemma get_setitem (d : list (pystr * pyval)) (k k' : pystr) (v : pyval) :
  get (setitem d k v) k' = if pystr_eqb k' k then v else get d k'.
Proof.
  unfold get. rewrite lookup_setitem. destruct (pystr_eqb k' k); reflexivity.
Qed.

(** Writing the value a key already has changes nothing. *)
Lemma setitem_same (d : list (pystr * pyval)) (k : pystr) (v : pyval) :
  lookup_key d k = Some v -> setitem d k v = d.
Proof.
  induction d as [|[k0 v0] d IH]; cbn [setitem lookup_key]; [discriminate |].
  destruct (pystr_eqb k k0); intros H.
  - injection H as ->. reflexivity.
  - rewrite (IH H). reflexivity.
Qed.



(** *** The clamp *)

Definition clamp (x : pyfloat) : pyfloat := py_min (py_max x (Fl 0)) (Fl 1).

Definition unit_or_nan (x : pyfloat) : Prop :=
  x = Nan \/ exists q, x = Fl q /\ (0 <= q <= 1)%Q.

Lemma clamp_range (x : pyfloat) : unit_or_nan (clamp x).
Proof.
  unfold clamp, py_max, py_min, unit_or_nan. destruct x as [q| | |]; cbn [flt_lt].
  - destruct (Qle_bool 0 q) eqn:E0; cbn [negb flt_lt].
    + destruct (Qle_bool q 1) eqn:E1; cbn [negb]; right.
      * exists q. apply Qle_bool_iff in E0, E1. auto.
      * exists 1%Q. split; [reflexivity | split; discriminate].
    + right. exists 0%Q. cbn. split; [reflexivity | split; discriminate].
  - left. reflexivity.
  - right. exists 1%Q. split; [reflexivity | split; discriminate].
  - right. exists 0%Q. cbn. split; [reflexivity | split; discriminate].
Qed.

Lemma clamp_fixed (x : pyfloat) : unit_or_nan x -> clamp x = x.
Proof.
  intros [-> | [q [-> [H0 H1]]]]; [reflexivity |].
  unfold clamp, py_max, py_min. cbn [flt_lt].
  apply Qle_bool_iff in H0. rewrite H0. cbn [negb flt_lt].
  apply Qle_bool_iff in H1. rewrite H1. reflexivity.
Qed.

(** *** The schema *)

Fixpoint props_lookup (ps : props) (k : pystr) : option schema :=
  match ps with
  | PNil => None
  | PCons k' s rest => if pystr_eqb k k' then Some s else props_lookup rest k
  end.

Lemma valid_props_lookup (ps : props) (d : list (pystr * pyval)) (k : pystr)
    (s : schema) (v : pyval) :
  valid_props ps d = true -> props_lookup ps k = Some s ->
  lookup_key d k = Some v -> valid s v = true.
Proof.
  induction ps as [|k' s' rest IH]; cbn [valid_props props_lookup];
    [discriminate |].
  intros H Hs Hd. apply andb_true_iff in H. destruct H as [H1 H2].
  destruct (pystr_eqb k k') eqn:E.
  - apply pystr_eqb_eq in E. subst k'. injection Hs as ->.
    rewrite Hd in H1. exact H1.
  - apply IH; assumption.
Qed.

(** The [properties] of [STRUCT_SCHEMA]. *)
Definition STRUCT_PROPS : props :=
  match STRUCT_SCHEMA with
  | SCons _ (SCons _ (SCons (KProperties ps) _)) => ps
  | _ => PNil
  end.

Lemma struct_valid (d : list (pystr * pyval)) (k : pystr) (s : schema)
    (v : pyval) :
  valid STRUCT_SCHEMA (PDict d) = true ->
  props_lookup STRUCT_PROPS k = Some s ->
  lookup_key d k = Some v -> valid s v = true.
Proof.
  intros H. apply (valid_props_lookup STRUCT_PROPS d k s v).
  unfold STRUCT_SCHEMA, sch in H. cbn [fold_right valid valid_keyword] in H.
  apply andb_true_iff in H. destruct H as [_ H].
  apply andb_true_iff in H. destruct H as [_ H].
  apply andb_true_iff in H. destruct H as [H _]. exact H.
Qed.

Lemma struct_required (d : list (pystr * pyval)) (k : string) :
  valid STRUCT_SCHEMA (PDict d) = true ->
  In k [ "id"; "title"; "summary"; "sentiment"; "ui_recommendation";
         "impact_analysis"; "category"; "tickers"; "entities"; "tags";
         "published_at"; "source"; "original_url"; "body_excerpt" ]%string ->
  lookup_key d (str k) <> None.
Proof.
  intros H Hin. unfold STRUCT_SCHEMA, sch in H.
  cbn [fold_right valid valid_keyword] in H.
  apply andb_true_iff in H. destruct H as [_ H].
  apply andb_true_iff in H. destruct H as [H _].
  rewrite forallb_forall in H. specialize (H (str k) (in_map str _ _ Hin)).
  destruct (lookup_key d (str k)); [discriminate | discriminate].
Qed.

Lemma valid_string (s : schema) (v : pyval) :
  valid (SCons (KType [TString]) s) v = true -> exists t, v = PStr t.
Proof.
  cbn [valid valid_keyword existsb]. intros H. apply andb_true_iff in H.
  destruct H as [H _]. destruct v; try discriminate. eauto.
Qed.

Lemma valid_array (s : schema) (v : pyval) :
  valid (SCons (KType [TArray]) s) v = true -> exists l, v = PList l.
Proof.
  cbn [valid valid_keyword existsb]. intros H. apply andb_true_iff in H.
  destruct H as [H _]. destruct v; try discriminate. eauto.
Qed.

(** The text fields a reply cannot do without: the shortest text the schema
    takes for each of them. *)
Definition TEXT_KEYS : list (pystr * nat) :=
  [ (str "title", 3); (str "summary", 10); (str "ui_recommendation", 5);
    (str "impact_analysis", 5); (str "category", 5) ]%nat.

Lemma struct_min_length (d : list (pystr * pyval)) (k : pystr) (n : nat)
    (v : pyval) :
  valid STRUCT_SCHEMA (PDict d) = true -> In (k, n) TEXT_KEYS ->
  lookup_key d k = Some v -> exists t, v = PStr t /\ (n <= length t)%nat.
Proof.
  intros H Hin Hd. unfold TEXT_KEYS in Hin.
  repeat (destruct Hin as [Hin | Hin];
          [ injection Hin as <- <-;
            match goal with
            | Hd : lookup_key d ?k = Some v |- _ =>
                let s := eval vm_compute in (props_lookup STRUCT_PROPS k) in
                match s with
                | Some ?s0 =>
                    pose proof (struct_valid d k s0 v H eq_refl Hd) as Hv
                end
            end;
            destruct (valid_string _ _ Hv) as [t ->]; exists t;
            split; [reflexivity |]
          | ]); try destruct Hin.
  all: cbn [valid valid_keyword] in Hv;
    apply andb_true_iff in Hv; destruct Hv as [_ Hv];
    apply andb_true_iff in Hv; destruct Hv as [Hv _].
  1-4: apply Nat.leb_le in Hv; exact Hv.
  apply in_compute in Hv.
  repeat (destruct Hv as [<- | Hv]; [vm_compute; lia |]). destruct Hv.
Qed.
(** *** The two loops *)

Definition mem (k : pystr) (ks : list pystr) : bool := existsb (pystr_eqb k) ks.

Lemma mem_In (k : pystr) (ks : list pystr) : mem k ks = true <-> In k ks.
Proof.
  unfold mem. rewrite existsb_exists. split.
  - intros [y [Hin Hy]]. apply pystr_eqb_eq in Hy. subst. exact Hin.
  - intros Hin. exists k. split; [exact Hin | apply pystr_eqb_refl].
Qed.

Lemma fold_lookup (step : list (pystr * pyval) -> pystr -> list (pystr * pyval))
    (g : pyval -> pyval) :
  (forall obj k0 k,
     lookup_key (step obj k0) k
       = if pystr_eqb k k0 then Some (g (get obj k0)) else lookup_key obj k) ->
  forall ks obj k,
    List.NoDup ks ->
    lookup_key (fold_left step ks obj) k
      = if mem k ks then Some (g (get obj k)) else lookup_key obj k.
Proof.
  intros Hstep ks. induction ks as [|k0 ks IH]; intros obj k Hnd; [reflexivity |].
  apply List.NoDup_cons_iff in Hnd. destruct Hnd as [Hk0 Hnd].
  cbn [fold_left]. rewrite (IH _ k Hnd). unfold mem. cbn [existsb]. fold (mem k ks).
  destruct (pystr_eqb k k0) eqn:E; cbn [orb].
  - apply pystr_eqb_eq in E. subst k0.
    destruct (mem k ks) eqn:Hm; [apply mem_In in Hm; contradiction |].
    rewrite Hstep, pystr_eqb_refl. reflexivity.
  - unfold get at 1. rewrite !Hstep, E. reflexivity.
Qed.

(** A key of the last loop left at [None] becomes the empty string. *)
Definition fill (v : pyval) : pyval :=
  match v with PNone => PStr [] | _ => v end.

Definition fill_step (obj : list (pystr * pyval)) (k : pystr)
  : list (pystr * pyval) :=
  match get obj k with
  | PNone => setitem obj k (PStr [])
  | _ => obj
  end.

Definition array_step (obj : list (pystr * pyval)) (k : pystr)
  : list (pystr * pyval) :=
  setitem obj k (por (get obj k) (PList [])).

Lemma fill_step_lookup (obj : list (pystr * pyval)) (k0 k : pystr) :
  lookup_key (fill_step obj k0) k
    = if pystr_eqb k k0 then Some (fill (get obj k0)) else lookup_key obj k.
Proof.
  unfold fill_step, get.
  destruct (lookup_key obj k0) as [v|] eqn:E.
  - destruct (pystr_eqb k k0) eqn:Ek.
    + apply pystr_eqb_eq in Ek. subst k0.
      destruct v; rewrite ?lookup_setitem, ?pystr_eqb_refl; try exact E; reflexivity.
    + destruct v; rewrite ?lookup_setitem, ?Ek; reflexivity.
  - rewrite lookup_setitem. reflexivity.
Qed.

Lemma array_step_lookup (obj : list (pystr * pyval)) (k0 k : pystr) :
  lookup_key (array_step obj k0) k
    = if pystr_eqb k k0 then Some (por (get obj k0) (PList []))
      else lookup_key obj k.
Proof. unfold array_step. apply lookup_setitem. Qed.

Lemma nodup_keys (l : list pystr) :
  (if List.list_eq_dec (List.list_eq_dec ascii_dec) (nodup (List.list_eq_dec ascii_dec) l) l
   then true else false) = true ->
  List.NoDup l.
Proof.
  destruct (List.list_eq_dec _ _ _) as [E|]; [| discriminate].
  intros _. rewrite <- E. apply List.NoDup_nodup.
Qed.

Lemma array_keys_nodup : List.NoDup ARRAY_KEYS.
Proof. apply nodup_keys. vm_compute. reflexivity. Qed.

Lemma string_keys_nodup : List.NoDup STRING_KEYS.
Proof. apply nodup_keys. vm_compute. reflexivity. Qed.

(** *** What [coerce_and_validate] returns *)

Ltac keys :=
  repeat match goal with
  | |- context [pystr_eqb ?a ?b] =>
      let r := eval vm_compute in (pystr_eqb a b) in
      match r with
      | true => change (pystr_eqb a b) with true
      | false => change (pystr_eqb a b) with false
      end
  | |- context [mem ?a ?b] =>
      let r := eval vm_compute in (mem a b) in
      match r with
      | true => change (mem a b) with true
      | false => change (mem a b) with false
      end
  end.

Ltac chain :=
  repeat (unfold get;
          repeat first
            [ rewrite (fold_lookup fill_step fill fill_step_lookup _ _ _
                         string_keys_nodup)
            | rewrite (fold_lookup array_step (fun v => por v (PList []))
                         array_step_lookup _ _ _ array_keys_nodup)
            | rewrite lookup_setitem
            | match goal with H : forall k, lookup_key _ k = _ |- _ => rewrite H end ]).

Section CoerceFacts.

Variable fromisoformat : pystr -> option datetime.
Variable float_int : Z -> option pyfloat.
Variable float_str : pystr -> option pyfloat.
Variable uuid : pystr.

Abbreviation coerce := (coerce_and_validate fromisoformat float_int float_str uuid).
Abbreviation parseable := (iso_parseable fromisoformat).

(** The sentiment that is written: [None] where the code raises. *)
Definition sentiment_of (obj : list (pystr * pyval)) : option (pystr * pyfloat) :=
  match por (get obj (str "sentiment")) (PDict []) with
  | PDict sent =>
      match por (get sent (str "label")) (PStr (str "neutral")) with
      | PStr label =>
          Some (if mem (lower label) LABELS then lower label else str "neutral",
                clamp match to_float float_int float_str (get sent (str "score")) with
                      | Some score => score
                      | None => Fl (1 # 2)
                      end)
      | _ => None
      end
  | _ => None
  end.

Definition sentiment (ls : pystr * pyfloat) : pyval :=
  PDict [(str "label", PStr (fst ls)); (str "score", PFloat (snd ls))].

(** The value of each key after the coercions. *)
Definition coerced (obj : list (pystr * pyval)) (ls : pystr * pyfloat)
    (k : pystr) : option pyval :=
  if mem k STRING_KEYS then Some (fill (get obj k))
  else if mem k ARRAY_KEYS then Some (por (get obj k) (PList []))
  else if pystr_eqb k (str "sentiment") then Some (sentiment ls)
  else if pystr_eqb k (str "published_at")
       then (if parseable (get obj k) then lookup_key obj k else Some PNone)
  else if pystr_eqb k (str "id")
       then (if truth (get obj k) then lookup_key obj k else Some (PStr uuid))
  else lookup_key obj k.

Lemma sentiment_label_range (obj : list (pystr * pyval)) (ls : pystr * pyfloat) :
  sentiment_of obj = Some ls -> In (fst ls) LABELS /\ unit_or_nan (snd ls).
Proof.
  unfold sentiment_of.
  destruct (por (get obj (str "sentiment")) (PDict [])); try discriminate.
  destruct (por (get d (str "label")) (PStr (str "neutral"))); try discriminate.
  destruct (mem (lower s) LABELS) eqn:E; intros H; injection H as <-;
    cbn [fst snd]; (split; [| apply clamp_range]).
  - apply mem_In, E.
  - right. left. reflexivity.
Qed.

Lemma coerce_inv (obj out : list (pystr * pyval)) :
  coerce obj = inr out ->
  exists ls,
    sentiment_of obj = Some ls /\
    (forall k, lookup_key out k = coerced obj ls k) /\
    valid STRUCT_SCHEMA (PDict out) = true.
Proof.
  unfold coerce_and_validate, sentiment_of.
  set (obj1 := if negb (truth (get obj (str "id")))
               then setitem obj (str "id") (PStr uuid) else obj).
  set (obj2 := if negb (parseable (get obj1 (str "published_at")))
               then setitem obj1 (str "published_at") PNone else obj1).
  assert (H1 : forall k, lookup_key obj1 k =
                 if pystr_eqb k (str "id")
                 then (if truth (get obj k) then lookup_key obj k else Some (PStr uuid))
                 else lookup_key obj k).
  { intros k. subst obj1. destruct (pystr_eqb k (str "id")) eqn:E.
    - apply pystr_eqb_eq in E. subst k.
      destruct (truth (get obj (str "id"))); cbn [negb]; [reflexivity |].
      rewrite lookup_setitem, pystr_eqb_refl. reflexivity.
    - destruct (truth (get obj (str "id"))); cbn [negb]; [reflexivity |].
      rewrite lookup_setitem, E. reflexivity. }
  assert (Hpa : get obj1 (str "published_at") = get obj (str "published_at")).
  { unfold get. rewrite H1. keys. reflexivity. }
  assert (H2 : forall k, lookup_key obj2 k =
                 if pystr_eqb k (str "published_at")
                 then (if parseable (get obj k) then lookup_key obj k else Some PNone)
                 else lookup_key obj1 k).
  { intros k. subst obj2. rewrite Hpa.
    destruct (pystr_eqb k (str "published_at")) eqn:E.
    - apply pystr_eqb_eq in E. subst k.
      destruct (parseable (get obj (str "published_at"))); cbn [negb].
      + rewrite H1. keys. reflexivity.
      + rewrite lookup_setitem, pystr_eqb_refl. reflexivity.
    - destruct (parseable (get obj (str "published_at"))); cbn [negb]; [reflexivity |].
      rewrite lookup_setitem, E. reflexivity. }
  assert (Hs : get obj2 (str "sentiment") = get obj (str "sentiment")).
  { unfold get. rewrite H2. keys. rewrite H1. keys. reflexivity. }
  rewrite Hs.
  destruct (por (get obj (str "sentiment")) (PDict [])) as [| | | | |sent|sent];
    try discriminate.
  destruct (por (get sent (str "label")) (PStr (str "neutral")))
    as [| | | |label| |]; try discriminate.
  fold (mem (lower label) LABELS).
  set (ls := (if mem (lower label) LABELS then lower label else str "neutral",
              clamp match to_float float_int float_str (get sent (str "score")) with
                    | Some score => score
                    | None => Fl (1 # 2)
                    end)).
  fold array_step. fold fill_step.
  match goal with
  | |- (if valid _ (PDict ?o) then _ else _) = _ -> _ => set (final := o)
  end.
  destruct (valid STRUCT_SCHEMA (PDict final)) eqn:Hv; [| discriminate].
  intros H. injection H as <-. exists ls. split; [reflexivity |].
  split; [| exact Hv].
  intros k. subst final. unfold coerced.
  assert (Hl : (if negb (mem (lower label) LABELS) then str "neutral"
                else lower label) = fst ls).
  { subst ls. cbn [fst]. destruct (mem (lower label) LABELS); reflexivity. }
  rewrite Hl. fold (clamp match to_float float_int float_str (get sent (str "score")) with
                          | Some score => score
                          | None => Fl (1 # 2)
                          end).
  change (clamp _) with (snd ls). fold (sentiment ls).
  clearbody ls. clear Hv Hl.
  destruct (mem k STRING_KEYS) eqn:HS.
  { apply mem_In in HS. unfold STRING_KEYS, strs in HS. cbn [map] in HS.
    repeat (destruct HS as [<- | HS]; [chain; keys; reflexivity |]). destruct HS. }
  destruct (mem k ARRAY_KEYS) eqn:HA.
  { apply mem_In in HA. unfold ARRAY_KEYS, strs in HA. cbn [map] in HA.
    repeat (destruct HA as [<- | HA]; [chain; keys; reflexivity |]). destruct HA. }
  chain. rewrite ?HS, ?HA.
  destruct (pystr_eqb k (str "sentiment")); [reflexivity |].
  reflexivity.
Qed.


Lemma parseable_string (v : pyval) :
  parseable v = true -> exists s, v = PStr s.
Proof. destruct v; try discriminate. eauto. Qed.

Lemma truth_lookup (obj : list (pystr * pyval)) (k : pystr) :
  truth (get obj k) = true -> lookup_key obj k = Some (get obj k).
Proof. unfold get. destruct (lookup_key obj k); [reflexivity | discriminate]. Qed.

Lemma parseable_lookup (obj : list (pystr * pyval)) (k : pystr) :
  parseable (get obj k) = true -> lookup_key obj k = Some (get obj k).
Proof. unfold get. destruct (lookup_key obj k); [reflexivity | discriminate]. Qed.

(** The keys [coerce_and_validate] writes. *)
Definition COERCED_KEYS : list pystr :=
  strs ["id"; "published_at"; "sentiment"]%string ++ ARRAY_KEYS ++ STRING_KEYS.

Lemma coerce_sentiment (obj out : list (pystr * pyval)) :
  coerce obj = inr out ->
  exists label score,
    lookup_key out (str "sentiment")
      = Some (PDict [(str "label", PStr label); (str "score", PFloat score)]) /\
    In label LABELS /\ unit_or_nan score.
Proof.
  intros H. destruct (coerce_inv obj out H) as [ls [Hs [Hk Hv]]].
  exists (fst ls), (snd ls). rewrite Hk. split; [reflexivity |].
  apply (sentiment_label_range obj ls Hs).
Qed.

Lemma coerce_id (obj out : list (pystr * pyval)) :
  coerce obj = inr out ->
  exists i,
    lookup_key out (str "id") = Some (PStr i) /\
    if truth (get obj (str "id")) then get obj (str "id") = PStr i
    else i = uuid.
Proof.
  intros H. destruct (coerce_inv obj out H) as [ls [Hs [Hk Hv]]].
  pose proof (Hk (str "id")) as Hid. unfold coerced in Hid.
  change (mem (str "id") STRING_KEYS) with false in Hid.
  change (mem (str "id") ARRAY_KEYS) with false in Hid.
  change (pystr_eqb (str "id") (str "sentiment")) with false in Hid.
  change (pystr_eqb (str "id") (str "published_at")) with false in Hid.
  change (pystr_eqb (str "id") (str "id")) with true in Hid.
  cbv beta iota in Hid.
  destruct (truth (get obj (str "id"))) eqn:Et.
  - rewrite (truth_lookup obj _ Et) in Hid.
    destruct (valid_string _ _ (struct_valid out (str "id") _ _ Hv eq_refl Hid))
      as [i Hi].
    exists i. rewrite Hid, Hi. split; reflexivity.
  - exists uuid. split; [exact Hid | reflexivity].
Qed.

Lemma coerce_published_at (obj out : list (pystr * pyval)) :
  coerce obj = inr out ->
  if parseable (get obj (str "published_at"))
  then lookup_key out (str "published_at") = Some (get obj (str "published_at"))
  else lookup_key out (str "published_at") = Some PNone.
Proof.
  intros H. destruct (coerce_inv obj out H) as [ls [Hs [Hk Hv]]].
  rewrite Hk. unfold coerced.
  change (mem (str "published_at") STRING_KEYS) with false.
  change (mem (str "published_at") ARRAY_KEYS) with false.
  change (pystr_eqb (str "published_at") (str "sentiment")) with false.
  change (pystr_eqb (str "published_at") (str "published_at")) with true.
  cbv beta iota.
  destruct (parseable (get obj (str "published_at"))) eqn:Ep; [| reflexivity].
  apply parseable_lookup, Ep.
Qed.

Lemma coerce_arrays (obj out : list (pystr * pyval)) (k : pystr) :
  coerce obj = inr out -> In k ARRAY_KEYS ->
  exists l, lookup_key out k = Some (PList l) /\
            PList l = por (get obj k) (PList []).
Proof.
  intros H Hin. destruct (coerce_inv obj out H) as [ls [Hs [Hk Hv]]].
  pose proof (Hk k) as Hl. unfold coerced in Hl.
  unfold ARRAY_KEYS, strs in Hin. cbn [map] in Hin.
  repeat (destruct Hin as [<- | Hin];
          [ match type of Hl with
            | lookup_key out ?k = _ =>
                change (mem k STRING_KEYS) with false in Hl;
                change (mem k ARRAY_KEYS) with true in Hl
            end; cbv beta iota in Hl;
            match type of Hl with
            | lookup_key out ?k = _ =>
                destruct (valid_array _ _ (struct_valid out k _ _ Hv eq_refl Hl))
                  as [l Hpl]
            end;
            exists l; rewrite Hl, Hpl; split; reflexivity
          | ]).
  destruct Hin.
Qed.

Lemma coerce_strings (obj out : list (pystr * pyval)) (k : pystr) :
  coerce obj = inr out -> In k STRING_KEYS ->
  exists s, lookup_key out k = Some (PStr s) /\ PStr s = fill (get obj k).
Proof.
  intros H Hin. destruct (coerce_inv obj out H) as [ls [Hs [Hk Hv]]].
  pose proof (Hk k) as Hl. unfold coerced in Hl.
  unfold STRING_KEYS, strs in Hin. cbn [map] in Hin.
  repeat (destruct Hin as [<- | Hin];
          [ match type of Hl with
            | lookup_key out ?k = _ =>
                change (mem k STRING_KEYS) with true in Hl
            end; cbv beta iota in Hl;
            match type of Hl with
            | lookup_key out ?k = _ =>
                destruct (valid_string _ _ (struct_valid out k _ _ Hv eq_refl Hl))
                  as [s Hps]
            end;
            exists s; rewrite Hl, Hps; split; reflexivity
          | ]).
  destruct Hin.
Qed.

Lemma coerce_others (obj out : list (pystr * pyval)) (k : pystr) :
  coerce obj = inr out -> ~ In k COERCED_KEYS ->
  lookup_key out k = lookup_key obj k.
Proof.
  intros H Hn. destruct (coerce_inv obj out H) as [ls [Hs [Hk Hv]]].
  rewrite Hk. unfold coerced.
  assert (Hm : forall c, In c COERCED_KEYS -> pystr_eqb k c = false).
  { intros c Hc. apply pystr_eqb_neq. intros ->. contradiction. }
  destruct (mem k STRING_KEYS) eqn:HS.
  { exfalso. apply Hn. apply mem_In in HS. unfold COERCED_KEYS.
    apply in_or_app. right. apply in_or_app. right. exact HS. }
  destruct (mem k ARRAY_KEYS) eqn:HA.
  { exfalso. apply Hn. apply mem_In in HA. unfold COERCED_KEYS.
    apply in_or_app. right. apply in_or_app. left. exact HA. }
  rewrite (Hm (str "sentiment")), (Hm (str "published_at")), (Hm (str "id"));
    [reflexivity | | |]; unfold COERCED_KEYS, strs; cbn [map app];
    repeat (first [left; reflexivity | right]).
Qed.

(** X7. What [coerce_and_validate] returns when it returns: the sentiment is
    a label among positive, neutral and negative with a score that is in
    [0, 1] or not a number; the id is the reply's own when that is truthy
    (a non-empty string then) and a fresh uuid otherwise; [published_at] is
    the reply's text when it parses as an ISO timestamp and null otherwise;
    the three array keys hold lists and the eight text keys hold strings,
    the reply's own unless it had none; every other key of the reply is
    unchanged. *)
Theorem coerce_output (obj out : list (pystr * pyval)) :
  coerce obj = inr out ->
  (exists label score,
     lookup_key out (str "sentiment")
       = Some (PDict [(str "label", PStr label); (str "score", PFloat score)]) /\
     In label LABELS /\ unit_or_nan score) /\
  (exists i,
     lookup_key out (str "id") = Some (PStr i) /\
     if truth (get obj (str "id")) then get obj (str "id") = PStr i
     else i = uuid) /\
  (if parseable (get obj (str "published_at"))
   then lookup_key out (str "published_at")
          = Some (get obj (str "published_at"))
   else lookup_key out (str "published_at") = Some PNone) /\
  (forall k, In k ARRAY_KEYS ->
     exists l, lookup_key out k = Some (PList l) /\
               PList l = por (get obj k) (PList [])) /\
  (forall k, In k STRING_KEYS ->
     exists s, lookup_key out k = Some (PStr s) /\ PStr s = fill (get obj k)) /\
  (forall k, ~ In k COERCED_KEYS -> lookup_key out k = lookup_key obj k).
Proof.
  intros H. split; [| split; [| split; [| split; [| split]]]].
  - exact (coerce_sentiment obj out H).
  - exact (coerce_id obj out H).
  - exact (coerce_published_at obj out H).
  - intros k. exact (coerce_arrays obj out k H).
  - intros k. exact (coerce_strings obj out k H).
  - intros k. exact (coerce_others obj out k H).
Qed.

(** X8. A text field the schema bounds from below is never made up: when
    [coerce_and_validate] returns, the reply itself held [title],
    [summary], [ui_recommendation], [impact_analysis] and [category] as
    strings of at least 3, 10, 5, 5 and 5 characters, and they are returned
    as they came. A reply without one of them (or with null there) is
    refused although the key is first set to the empty string. *)
Theorem coerce_requires_text (obj out : list (pystr * pyval)) (k : pystr)
    (n : nat) :
  In (k, n) TEXT_KEYS -> coerce obj = inr out ->
  exists t, get obj k = PStr t /\ (n <= length t)%nat /\
            lookup_key out k = Some (PStr t).
Proof.
  intros Hin H. destruct (coerce_inv obj out H) as [ls [_ [Hk Hv]]].
  pose proof (Hk k) as Hl. unfold coerced in Hl.
  assert (Hm : mem k STRING_KEYS = true /\ (0 < n)%nat).
  { unfold TEXT_KEYS in Hin.
    repeat (destruct Hin as [Hin | Hin];
            [injection Hin as <- <-; split; [reflexivity | lia] |]).
    destruct Hin. }
  destruct Hm as [Hm Hn]. rewrite Hm in Hl.
  destruct (struct_min_length out k n _ Hv Hin Hl) as [t [Ht Hlen]].
  exists t. rewrite Hl, Ht. repeat split; try assumption.
  destruct (get obj k); cbn [fill] in Ht; try discriminate Ht.
  - injection Ht as <-. cbn [length] in Hlen. lia.
  - exact Ht.
Qed.

Lemma por_por (v e : pyval) : truth e = false -> por (por v e) e = por v e.
Proof.
  intros He. unfold por. destruct (truth v) eqn:E.
  - rewrite E. reflexivity.
  - rewrite He. reflexivity.
Qed.

Lemma fold_left_fixed {A B : Type} (step : A -> B -> A) (ks : list B) (d : A) :
  (forall k, In k ks -> step d k = d) -> fold_left step ks d = d.
Proof.
  induction ks as [|k ks IH]; intros H; [reflexivity |].
  cbn [fold_left]. rewrite (H k (or_introl eq_refl)).
  apply IH. intros k' Hk'. apply H. right. exact Hk'.
Qed.

Lemma label_fixed (label : pystr) :
  In label LABELS ->
  truthy label = true /\ lower label = label /\ mem label LABELS = true.
Proof.
  unfold LABELS, strs. cbn [map]. intros Hin.
  repeat (destruct Hin as [<- | Hin]; [repeat split |]). destruct Hin.
Qed.

(** X9. [coerce_and_validate] changes nothing in a record it has returned:
    run again on its own result, with another uuid at hand and whatever
    [float] does, it returns that result. *)
Theorem coerce_idempotent (obj out : list (pystr * pyval))
    (float_int' : Z -> option pyfloat) (float_str' : pystr -> option pyfloat)
    (uuid' : pystr) :
  truthy uuid = true ->
  coerce obj = inr out ->
  coerce_and_validate fromisoformat float_int' float_str' uuid' out = inr out.
Proof.
  intros Hu H. destruct (coerce_inv obj out H) as [[label score] [Hs [Hk Hv]]].
  destruct (sentiment_label_range obj _ Hs) as [Hlab Hsc]. cbn [fst snd] in *.
  destruct (label_fixed label Hlab) as [Ht [Hlow Hmem]].
  unfold coerce_and_validate.
  (* id *)
  assert (Hid : truth (get out (str "id")) = true).
  { unfold get. rewrite Hk. unfold coerced. keys. cbv beta iota.
    destruct (truth (get obj (str "id"))) eqn:E; [| exact Hu].
    rewrite (truth_lookup obj _ E). exact E. }
  rewrite Hid. cbn [negb].
  (* published_at *)
  assert (Hpa : (if negb (parseable (get out (str "published_at")))
                 then setitem out (str "published_at") PNone else out) = out).
  { destruct (parseable (get obj (str "published_at"))) eqn:E.
    - assert (Hg : get out (str "published_at") = get obj (str "published_at")).
      { unfold get at 1. rewrite Hk. unfold coerced. keys. cbv beta iota.
        rewrite E, (parseable_lookup obj _ E). reflexivity. }
      rewrite Hg, E. reflexivity.
    - assert (Hl : lookup_key out (str "published_at") = Some PNone).
      { rewrite Hk. unfold coerced. keys. cbv beta iota. rewrite E. reflexivity. }
      unfold get. rewrite Hl. cbn [iso_parseable negb].
      apply setitem_same, Hl. }
  rewrite Hpa.
  (* sentiment *)
  assert (Hsent : lookup_key out (str "sentiment")
                  = Some (sentiment (label, score))).
  { rewrite Hk. unfold coerced. keys. reflexivity. }
  unfold sentiment in Hsent. cbn [fst snd] in Hsent.
  assert (Hg : get out (str "sentiment")
               = PDict [(str "label", PStr label); (str "score", PFloat score)])
    by (unfold get; rewrite Hsent; reflexivity).
  rewrite Hg.
  change (por (PDict [(str "label", PStr label); (str "score", PFloat score)])
            (PDict []))
    with (PDict [(str "label", PStr label); (str "score", PFloat score)]).
  cbv beta iota.
  change (get [(str "label", PStr label); (str "score", PFloat score)]
            (str "label")) with (PStr label).
  change (get [(str "label", PStr label); (str "score", PFloat score)]
            (str "score")) with (PFloat score).
  unfold por at 1. cbn [truth to_float]. rewrite Ht, Hlow.
  fold (mem label LABELS). rewrite Hmem. cbn [negb].
  fold (clamp score). rewrite (clamp_fixed score Hsc).
  rewrite (setitem_same out _ _ Hsent).
  (* arrays and strings *)
  fold array_step. fold fill_step.
  rewrite (fold_left_fixed array_step ARRAY_KEYS out).
  2:{ intros k Hin. unfold array_step. apply setitem_same.
      assert (Hl : lookup_key out k = Some (por (get obj k) (PList []))).
      { rewrite Hk. unfold coerced. apply mem_In in Hin.
        unfold ARRAY_KEYS, strs in Hin |- *. cbn [map] in Hin |- *.
        fold (strs ["tickers"; "entities"; "tags"]%string).
        destruct (mem k STRING_KEYS) eqn:HS.
        - exfalso. apply mem_In in HS, Hin. unfold strs in Hin. cbn [map] in Hin.
          repeat (destruct Hin as [<- | Hin]; [vm_compute in HS; intuition discriminate |]).
          destruct Hin.
        - fold ARRAY_KEYS. rewrite Hin. reflexivity. }
      assert (Hg' : get out k = por (get obj k) (PList []))
        by (unfold get at 1; rewrite Hl; reflexivity).
      rewrite Hg', por_por; [exact Hl | reflexivity]. }
  rewrite (fold_left_fixed fill_step STRING_KEYS out).
  2:{ intros k Hin. unfold fill_step.
      assert (Hl : get out k = fill (get obj k)).
      { unfold get at 1. rewrite Hk. unfold coerced. apply mem_In in Hin.
        rewrite Hin. reflexivity. }
      rewrite Hl. destruct (get obj k); reflexivity. }
  rewrite Hv. reflexivity.
Qed.

(** *** The reply and the item *)

Variable uuid_default : pystr.
Variable fetched : pyval.

Abbreviation fields := (structure_fields uuid_default fetched).

(** [it.get("id") or str(uuid.uuid4())] *)
Definition own_id (it : Structurer.item) : pystr :=
  let i := text_of (Structurer.it_id it) in
  if truthy i then i else uuid_default.




End CoerceFacts.

(** *** Worked examples *)

Definition sample_float_int (z : Z) : option pyfloat := Some (Fl (inject_Z z)).

(** A reading of [float] on text that knows [nan] only. *)
Definition sample_float_str (s : pystr) : option pyfloat :=
  if pystr_eqb (lower s) (str "nan") then Some Nan else None.

Definition sample_uuid : pystr := str "7d9f3c1e-5a0b-4c6e-9a57-2f1f0c1d8b44".
Definition other_uuid : pystr := str "0b0e7a52-3c41-4f7b-8d0a-6b5f5a1e2c90".

Definition sample_reply : list (pystr * pyval) :=
  [ (str "article_id", PStr (str "n5"));
    (str "title", PStr (str "Infosys tops profit estimates"));
    (str "summary",
      PStr (str "Infosys reported a quarterly profit above analyst estimates."));
    (str "sentiment",
      PDict [(str "label", PStr (str "Positive")); (str "score", PInt 2)]);
    (str "ui_recommendation", PStr (str "Watch the guidance for the year."));
    (str "impact_analysis", PStr (str "Supports large IT stocks."));
    (str "category", PStr (str "Earnings"));
    (str "tickers", PList [PStr (str "INFY.NS")]);
    (str "tags", PNone);
    (str "published_at", PStr (str "yesterday"));
    (str "source", PNone) ].

Definition sample_article : Structurer.item :=
  {| Structurer.it_id := Some (str "item-5");
     Structurer.it_title := Some (str "Infosys tops profit estimates");
     Structurer.it_body := Some (str "Infosys on Thursday reported ...");
     Structurer.it_source := Some (str "feed");
     Structurer.it_url := Some (str "https://example.org/n5");
     Structurer.it_published_at := None;
     Structurer.it_fetched_at := Some (str "2024-05-01T09:20:00") |}.

Definition sample_fetched : pyval := PStr (str "2024-05-01T09:20:00").

Definition sample_fields : list (pystr * pyval) :=
  structure_fields other_uuid sample_fetched sample_article sample_reply.

Definition sample_out : list (pystr * pyval) :=
  Eval vm_compute in
    match coerce_and_validate fromisoformat_basic sample_float_int
            sample_float_str sample_uuid sample_fields with
    | inr out => out
    | inl _ => []
    end.

Lemma sample_coerced :
  coerce_and_validate fromisoformat_basic sample_float_int sample_float_str
    sample_uuid sample_fields = inr sample_out.
Proof. vm_compute. reflexivity. Qed.

(** The reply once structured: the id is the reply's [article_id], the label
    is in lower case, the score 2 is cut to 1, the unreadable date and the
    missing arrays and source are replaced. *)
Example sample_structured :
  sample_out =
    [ (str "title", PStr (str "Infosys tops profit estimates"));
      (str "summary",
        PStr (str "Infosys reported a quarterly profit above analyst estimates."));
      (str "sentiment",
        PDict [(str "label", PStr (str "positive")); (str "score", PFloat (Fl 1))]);
      (str "ui_recommendation", PStr (str "Watch the guidance for the year."));
      (str "impact_analysis", PStr (str "Supports large IT stocks."));
      (str "category", PStr (str "Earnings"));
      (str "tickers", PList [PStr (str "INFY.NS")]);
      (str "tags", PList []);
      (str "published_at", PNone);
      (str "source", PStr []);
      (str "id", PStr (str "n5"));
      (str "original_url", PStr (str "https://example.org/n5"));
      (str "body_excerpt", PStr (str "Infosys on Thursday reported ..."));
      (str "fetched_at", PStr (str "2024-05-01T09:20:00"));
      (str "entities", PList []) ].
Proof. vm_compute. reflexivity. Qed.

(** A score that is not a number passes the clamp and the schema. *)
Example nan_score_is_accepted :
  exists out,
    coerce_and_validate fromisoformat_basic sample_float_int sample_float_str
      sample_uuid
      (setitem sample_fields (str "sentiment")
         (PDict [(str "score", PStr (str "NaN"))])) = inr out /\
    lookup_key out (str "sentiment")
      = Some (PDict [(str "label", PStr (str "neutral"));
                     (str "score", PFloat Nan)]).
Proof. eexists. split; vm_compute; reflexivity. Qed.

Lemma coerce_requires_text_witness :
  exists t, get sample_fields (str "summary") = PStr t /\ (10 <= length t)%nat /\
            lookup_key sample_out (str "summary") = Some (PStr t).
Proof.
  apply (coerce_requires_text fromisoformat_basic sample_float_int
           sample_float_str sample_uuid sample_fields sample_out
           (str "summary") 10).
  - right. left. reflexivity.
  - vm_compute. reflexivity.
Defined.

Lemma coerce_idempotent_witness :
  coerce_and_validate fromisoformat_basic (fun _ => None) (fun _ => None)
    other_uuid sample_out = inr sample_out.
Proof.
  apply (coerce_idempotent fromisoformat_basic sample_float_int sample_float_str
           sample_uuid sample_fields sample_out (fun _ => None) (fun _ => None)
           other_uuid).
  - reflexivity.
  - vm_compute. reflexivity.
Defined.

Lemma coerce_output_witness :
  (exists label score,
     lookup_key sample_out (str "sentiment")
       = Some (PDict [(str "label", PStr label); (str "score", PFloat score)]) /\
     In label LABELS /\ unit_or_nan score) /\
  (exists i,
     lookup_key sample_out (str "id") = Some (PStr i) /\
     if truth (get sample_fields (str "id"))
     then get sample_fields (str "id") = PStr i
     else i = sample_uuid) /\
  (if iso_parseable fromisoformat_basic (get sample_fields (str "published_at"))
   then lookup_key sample_out (str "published_at")
          = Some (get sample_fields (str "published_at"))
   else lookup_key sample_out (str "published_at") = Some PNone) /\
  (forall k, In k ARRAY_KEYS ->
     exists l, lookup_key sample_out k = Some (PList l) /\
               PList l = por (get sample_fields k) (PList [])) /\
  (forall k, In k STRING_KEYS ->
     exists s, lookup_key sample_out k = Some (PStr s) /\
               PStr s = fill (get sample_fields k)) /\
  (forall k, ~ In k COERCED_KEYS ->
     lookup_key sample_out k = lookup_key sample_fields k).
Proof.
  apply (coerce_output fromisoformat_basic sample_float_int sample_float_str
           sample_uuid sample_fields sample_out).
  vm_compute. reflexivity.
Defined.


End ValidateFacts.

(** ** More on the store *)
Module SaveFacts.
Import PyStr Py DbLoader PyStrFacts DbLoaderFacts.

(** *** The retry loop *)

Definition BACKOFF : list event := [Sleep 2000; Sleep 4000; Sleep 8000].

(** X11. The connection phase of [save], whatever the servers do: the
    primary is tried at most four times; when attempt [k] is the first to
    answer, the call has slept [k - 1] times before (2 s, 4 s, 8 s) and uses
    the primary; the fallback is asked only after four failures and three
    sleeps, and only when [MONGO_FALLBACK_URI] is set. *)
Theorem connect_backoff (e : env) :
  connect e =
    match List.find (ping_primary e) [1; 2; 3; 4]%nat with
    | Some k => (Some primary, firstn (k - 1) BACKOFF)
    | None =>
        (if truthy (MONGO_FALLBACK_URI e) && ping_fallback e
         then Some fallback else None, BACKOFF)
    end.
Proof.
  unfold connect, max_attempts, BACKOFF.
  cbn [connect_loop Nat.ltb Nat.leb max_attempts List.find].
  destruct (ping_primary e 1); [reflexivity |].
  destruct (ping_primary e 2); [reflexivity |].
  destruct (ping_primary e 3); [reflexivity |].
  destruct (ping_primary e 4); [reflexivity |].
  cbn [app]. destruct (truthy (MONGO_FALLBACK_URI e) && ping_fallback e);
    reflexivity.
Qed.

(** *** What a batch does to the collection *)

Definition total (c : summary) : nat := (ins c + upd c + fail c)%nat.

Lemma write_all_account (e : env) (items : list (gmap string value)) :
  forall i coll acc,
    let '(coll', acc') := write_all e items i coll acc in
    (size coll' + ins acc = size coll + ins acc')%nat /\
    total acc' = (total acc + length items)%nat /\
    (forall k, is_Some (coll !! k) -> is_Some (coll' !! k)) /\
    (forall k,
       (forall doc, In doc (written e items i) ->
                    doc !! "_id"%string <> Some (VStr k)) ->
       coll' !! k = coll !! k).
Proof.
  unfold total.
  induction items as [|raw rest IH]; intros i coll acc.
  - cbn [write_all length]. repeat split; auto; lia.
  - cbn [write_all written length]. destruct (doc_raises e i) eqn:Hr.
    + specialize (IH (S i) coll
                    {| ins := ins acc; upd := upd acc; fail := S (fail acc) |}).
      destruct (write_all e rest (S i) coll _) as [coll' acc'].
      destruct IH as [Hs [Ht [Hm Hf]]]. cbn [ins upd fail] in Hs, Ht.
      repeat split; [lia | lia | exact Hm | exact Hf].
    + rewrite upsert_make_doc.
      set (k0 := doc_key raw (doc_uuid e i)).
      set (doc := _make_doc raw (doc_uuid e i) (doc_now e i)).
      set (c1 := <[k0 := written_doc coll doc k0]> coll).
      assert (Hmono : forall k, is_Some (coll !! k) -> is_Some (c1 !! k)).
      { intros k Hk. subst c1. destruct (decide (k0 = k)) as [-> | Hne].
        - rewrite lookup_insert_eq. eauto.
        - rewrite lookup_insert_ne by exact Hne. exact Hk. }
      assert (Hframe : forall k, doc !! "_id"%string <> Some (VStr k) ->
                         c1 !! k = coll !! k).
      { intros k Hk. subst c1. apply lookup_insert_ne. intros Heq.
        apply Hk. rewrite <- Heq. apply make_doc_id. }
      destruct (coll !! k0) eqn:Ek.
      * specialize (IH (S i) c1
                      {| ins := ins acc; upd := S (upd acc); fail := fail acc |}).
        destruct (write_all e rest (S i) c1 _) as [coll' acc'].
        destruct IH as [Hs [Ht [Hm Hf]]]. cbn [ins upd fail] in Hs, Ht.
        assert (Hsz : size c1 = size coll).
        { subst c1. apply map_size_insert_Some. rewrite Ek. eauto. }
        repeat split; [lia | lia | auto |].
        intros k Hk. rewrite Hf.
        -- apply Hframe, Hk. left. reflexivity.
        -- intros d Hd. apply Hk. right. exact Hd.
      * specialize (IH (S i) c1
                      {| ins := S (ins acc); upd := upd acc; fail := fail acc |}).
        destruct (write_all e rest (S i) c1 _) as [coll' acc'].
        destruct IH as [Hs [Ht [Hm Hf]]]. cbn [ins upd fail] in Hs, Ht.
        assert (Hsz : size c1 = S (size coll)).
        { subst c1. apply map_size_insert_None. exact Ek. }
        repeat split; [lia | lia | auto |].
        intros k Hk. rewrite Hf.
        -- apply Hframe, Hk. left. reflexivity.
        -- intros d Hd. apply Hk. right. exact Hd.
Qed.

Definition other (t : target) : target :=
  match t with primary => fallback | fallback => primary end.

Lemma coll_of_set_coll (t : target) (c : gmap pystr (gmap string value))
    (w : stores) :
  coll_of t (set_coll t c w) = c /\
  coll_of (other t) (set_coll t c w) = coll_of (other t) w.
Proof. destruct t; split; reflexivity. Qed.

(** X12. The books of [save] balance with the store. Once a server is
    reached, the collection grows by exactly the number reported as
    inserted; inserted, updated and failed add up to the batch; no document
    is ever removed; a key that is not the [_id] of a written document keeps
    its document; and the other server is not touched. *)
Theorem save_accounting (e : env) (w : stores) (items : list (gmap string value))
    (t : target) (log : list event) :
  connect e = (Some t, log) -> ensure_collection_raises e = false ->
  let r := save e w items in
  size (coll_of t (after r)) = (size (coll_of t w) + ins (counts r))%nat /\
  total (counts r) = length items /\
  result r = Returned (ins (counts r) + upd (counts r)) /\
  (forall k, is_Some (coll_of t w !! k) -> is_Some (coll_of t (after r) !! k)) /\
  (forall k,
     (forall doc, In doc (written e items 0) ->
                  doc !! "_id"%string <> Some (VStr k)) ->
     coll_of t (after r) !! k = coll_of t w !! k) /\
  coll_of (other t) (after r) = coll_of (other t) w.
Proof.
  intros Hc He. unfold save.
  destruct items as [|raw rest].
  { cbn [after counts result ins upd fail total length]. unfold total.
    cbn [ins upd fail]. repeat split; auto. }
  rewrite Hc, He.
  pose proof (write_all_account e (raw :: rest) 0 (coll_of t w)
                {| ins := 0; upd := 0; fail := 0 |}) as H.
  destruct (write_all e (raw :: rest) 0 (coll_of t w) _) as [coll c].
  destruct H as [Hs [Ht [Hm Hf]]]. cbn [ins upd fail] in Hs.
  unfold total in Ht. cbn [ins upd fail] in Ht.
  cbn [after counts result].
  destruct (coll_of_set_coll t coll w) as [E1 E2]. rewrite E1, E2.
  unfold total. repeat split; try assumption; lia.
Qed.

(** *** Saving a batch again *)

(** An article that brings its own key: a string [id] that is not blank. *)
Definition own_id (raw : gmap string value) (k : pystr) : Prop :=
  raw !! "id"%string = Some (VStr k) /\ truthy (strip k) = true.

Lemma write_all_present (e : env) (items : list (gmap string value)) :
  forall i coll acc,
    (forall j, doc_raises e j = false) ->
    let '(coll', _) := write_all e items i coll acc in
    forall raw k, In raw items -> own_id raw k -> is_Some (coll' !! k).
Proof.
  induction items as [|raw0 rest IH]; intros i coll acc Hno.
  - cbn [write_all]. intros raw k [].
  - cbn [write_all]. rewrite Hno, upsert_make_doc.
    set (k0 := doc_key raw0 (doc_uuid e i)).
    set (c1 := <[k0 := _]> coll).
    assert (Hstep : forall acc1,
              let '(coll', _) := write_all e rest (S i) c1 acc1 in
              forall raw k, In raw (raw0 :: rest) -> own_id raw k ->
                            is_Some (coll' !! k)).
    { intros acc1. specialize (IH (S i) c1 acc1 Hno).
      pose proof (write_all_account e rest (S i) c1 acc1) as Hacc.
      destruct (write_all e rest (S i) c1 acc1) as [coll' acc'].
      destruct Hacc as [_ [_ [Hm _]]].
      intros raw k [<- | Hin] Hown.
      - apply Hm. destruct Hown as [Hid Htr].
        assert (Hk : k0 = k) by (apply doc_key_own_id; assumption).
        rewrite <- Hk. subst c1. rewrite lookup_insert_eq. eauto.
      - apply (IH raw k Hin Hown). }
    destruct (coll !! k0); apply Hstep.
Qed.

Lemma write_all_no_insert (e : env) (items : list (gmap string value)) :
  forall i coll acc,
    (forall raw, In raw items ->
       exists k, own_id raw k /\ is_Some (coll !! k)) ->
    let '(coll', acc') := write_all e items i coll acc in
    ins acc' = ins acc.
Proof.
  induction items as [|raw0 rest IH]; intros i coll acc Hin.
  - reflexivity.
  - cbn [write_all]. destruct (doc_raises e i).
    + specialize (IH (S i) coll
                    {| ins := ins acc; upd := upd acc; fail := S (fail acc) |}).
      destruct (write_all e rest (S i) coll _) as [coll' acc'].
      apply IH. intros raw Hr. apply Hin. right. exact Hr.
    + rewrite upsert_make_doc.
      set (k0 := doc_key raw0 (doc_uuid e i)).
      set (c1 := <[k0 := _]> coll).
      destruct (Hin raw0 (or_introl eq_refl)) as [k [[Hid Htr] Hk]].
      assert (Hk0 : k0 = k) by (apply doc_key_own_id; assumption).
      rewrite Hk0. destruct (coll !! k) eqn:Ek; [| destruct Hk; discriminate].
      specialize (IH (S i) c1
                    {| ins := ins acc; upd := S (upd acc); fail := fail acc |}).
      destruct (write_all e rest (S i) c1 _) as [coll' acc'].
      apply IH. intros raw Hr.
      destruct (Hin raw (or_intror Hr)) as [k' [Hown Hk']].
      exists k'. split; [exact Hown |]. subst c1.
      destruct (decide (k0 = k')) as [-> | Hne].
      * rewrite lookup_insert_eq. eauto.
      * rewrite lookup_insert_ne by exact Hne. exact Hk'.
Qed.

(** X13. Saving is repeatable for articles that bring their own id. After
    a batch was saved without a failure, saving the same batch again (at
    another time, whatever happens to single documents) inserts nothing:
    every document written is an update, and the collection has as many
    documents as before. *)
Theorem save_again (e1 e2 : env) (w : stores) (items : list (gmap string value))
    (t : target) (log1 log2 : list event) :
  connect e1 = (Some t, log1) -> ensure_collection_raises e1 = false ->
  connect e2 = (Some t, log2) -> ensure_collection_raises e2 = false ->
  (forall j, doc_raises e1 j = false) ->
  (forall raw, In raw items -> exists k, own_id raw k) ->
  let r1 := save e1 w items in
  let r2 := save e2 (after r1) items in
  ins (counts r2) = O /\
  (upd (counts r2) + fail (counts r2))%nat = length items /\
  size (coll_of t (after r2)) = size (coll_of t (after r1)).
Proof.
  intros Hc1 He1 Hc2 He2 Hno Hown.
  destruct items as [|raw rest].
  { cbn. repeat split. }
  unfold save. rewrite Hc1, He1.
  pose proof (write_all_present e1 (raw :: rest) 0 (coll_of t w)
                {| ins := 0; upd := 0; fail := 0 |} Hno) as Hp.
  destruct (write_all e1 (raw :: rest) 0 (coll_of t w) _) as [c1 a1].
  cbn [after]. rewrite Hc2, He2.
  destruct (coll_of_set_coll t c1 w) as [E1 _]. rewrite E1.
  assert (Hall : forall raw0, In raw0 (raw :: rest) ->
                   exists k, own_id raw0 k /\ is_Some (c1 !! k)).
  { intros raw0 Hin. destruct (Hown raw0 Hin) as [k Hk].
    exists k. split; [exact Hk | apply (Hp raw0 k Hin Hk)]. }
  pose proof (write_all_no_insert e2 (raw :: rest) 0 c1
                {| ins := 0; upd := 0; fail := 0 |} Hall) as Hi.
  pose proof (write_all_account e2 (raw :: rest) 0 c1
                {| ins := 0; upd := 0; fail := 0 |}) as Ha.
  destruct (write_all e2 (raw :: rest) 0 c1 _) as [c2 a2].
  destruct Ha as [Hs [Ht _]]. unfold total in Ht.
  cbn [ins upd fail] in Hi, Hs, Ht. cbn [after counts].
  destruct (coll_of_set_coll t c2 (set_coll t c1 w)) as [E2 _]. rewrite E2.
  repeat split; lia.
Qed.

(** *** Worked examples *)

Definition env_ok : env :=
  {| MONGO_FALLBACK_URI := []; ping_primary := fun _ => true;
     ping_fallback := false; ensure_collection_raises := false;
     doc_uuid := fun _ => str "u"; doc_now := fun i => Z.of_nat i;
     doc_raises := fun _ => false |}.

Definition batch3 : list (gmap string value) := [article; article2; article3].

Lemma save_accounting_witness :
  let r := save env_up no_documents batch3 in
  size (coll_of primary (after r))
    = (size (coll_of primary no_documents) + ins (counts r))%nat /\
  total (counts r) = length batch3 /\
  result r = Returned (ins (counts r) + upd (counts r)) /\
  (forall k, is_Some (coll_of primary no_documents !! k) ->
             is_Some (coll_of primary (after r) !! k)) /\
  (forall k,
     (forall doc, In doc (written env_up batch3 0) ->
                  doc !! "_id"%string <> Some (VStr k)) ->
     coll_of primary (after r) !! k = coll_of primary no_documents !! k) /\
  coll_of (other primary) (after r) = coll_of (other primary) no_documents.
Proof.
  apply (save_accounting env_up no_documents batch3 primary
           [Sleep 2000; Sleep 4000]); reflexivity.
Defined.

Lemma save_again_witness :
  let r1 := save env_ok no_documents batch3 in
  let r2 := save env_up (after r1) batch3 in
  ins (counts r2) = O /\
  (upd (counts r2) + fail (counts r2))%nat = length batch3 /\
  size (coll_of primary (after r2)) = size (coll_of primary (after r1)).
Proof.
  apply (save_again env_ok env_up no_documents batch3 primary []
           [Sleep 2000; Sleep 4000]); try reflexivity.
  intros raw [<- | [<- | [<- | []]]].
  - exists (str "n1"). split; reflexivity.
  - exists (str "n2"). split; reflexivity.
  - exists (str "n3"). split; reflexivity.
Defined.

(** An article without [id] is stored under a new key by every save. *)
Example save_again_without_id :
  let anonymous := [(<["title"%string := VStr (str "untitled")]> ∅
                      : gmap string value)] in
  let first := {| MONGO_FALLBACK_URI := []; ping_primary := fun _ => true;
                  ping_fallback := false; ensure_collection_raises := false;
                  doc_uuid := fun _ => str "u1"; doc_now := fun _ => 0%Z;
                  doc_raises := fun _ => false |} in
  let second := {| MONGO_FALLBACK_URI := []; ping_primary := fun _ => true;
                   ping_fallback := false; ensure_collection_raises := false;
                   doc_uuid := fun _ => str "u2"; doc_now := fun _ => 1%Z;
                   doc_raises := fun _ => false |} in
  let r1 := save first no_documents anonymous in
  let r2 := save second (after r1) anonymous in
  ins (counts r2) = 1%nat /\ size (on_primary (after r2)) = 2%nat.
Proof. vm_compute. split; reflexivity. Qed.

End SaveFacts.

(** ** More on the replies *)
Module ExtractFacts.
Import PyStr Py Structurer PyStrFacts RepliesFacts.

(** The scan returns a piece of the text it reads, up to a closing brace. *)
Lemma brace_scan_prefix (s : pystr) :
  forall depth in_string esc r,
    brace_scan depth in_string esc s = Some r ->
    exists body post, r = body ++ [rbrace] /\ s = r ++ post.
Proof.
  induction s as [|ch s IH]; intros depth in_string esc r H; [discriminate |].
  cbn [brace_scan] in H.
  assert (Hc : forall d i e0,
            match brace_scan d i e0 s with
            | Some r0 => Some (ch :: r0)
            | None => None
            end = Some r ->
            exists body post, r = body ++ [rbrace] /\ ch :: s = r ++ post).
  { intros d i e0 E. destruct (brace_scan d i e0 s) as [r0|] eqn:E0;
      [| discriminate].
    injection E as <-. destruct (IH d i e0 r0 E0) as [body [post [-> ->]]].
    exists (ch :: body), post. split; reflexivity. }
  destruct in_string.
  - destruct esc; [apply (Hc _ _ _ H) |].
    destruct (chr_eqb ch backslash); [apply (Hc _ _ _ H) |].
    destruct (chr_eqb ch quote); apply (Hc _ _ _ H).
  - destruct (chr_eqb ch quote); [apply (Hc _ _ _ H) |].
    destruct (chr_eqb ch lbrace); [apply (Hc _ _ _ H) |].
    destruct (chr_eqb ch rbrace) eqn:Er; [| apply (Hc _ _ _ H)].
    destruct (depth - 1 =? 0)%Z; [| apply (Hc _ _ _ H)].
    injection H as <-. apply chr_eqb_eq in Er. subst ch.
    exists [], s. split; reflexivity.
Qed.

Lemma dropwhile_split (p : ascii -> bool) (s : pystr) :
  exists pre, s = pre ++ dropwhile p s /\
              Forall (fun c => p c = true) pre /\
              match dropwhile p s with
              | [] => True
              | c :: _ => p c = false
              end.
Proof.
  induction s as [|c s IH]; cbn [dropwhile].
  - exists []. repeat split. constructor.
  - destruct (p c) eqn:E.
    + destruct IH as [pre [Hs [Hp Hh]]]. exists (c :: pre).
      split; [cbn [app]; f_equal; exact Hs |]. split; [| exact Hh].
      constructor; assumption.
    + exists []. repeat split; [constructor | exact E].
Qed.

(** X14. Whatever the reply, the span [_extract_json_braces] returns is a
    piece of it: it begins at the first opening brace of the text, nothing
    but that text lies between its first and last character, and it ends
    with a closing brace. *)
Theorem extract_is_span (s r : pystr) :
  _extract_json_braces s = Some r ->
  exists pre body post,
    s = pre ++ r ++ post /\
    r = lbrace :: body ++ [rbrace] /\
    ~ In lbrace pre.
Proof.
  unfold _extract_json_braces. destruct (negb (truthy s)); [discriminate |].
  destruct (dropwhile_split (fun c => negb (chr_eqb c lbrace)) s)
    as [pre [Hs [Hp Hh]]].
  destruct (dropwhile (fun c => negb (chr_eqb c lbrace)) s) as [|c rest] eqn:Ed;
    [discriminate |].
  intros H. destruct (brace_scan_prefix _ _ _ _ _ H) as [body [post [Hr Hpost]]].
  apply negb_false_iff, chr_eqb_eq in Hh. subst c.
  destruct body as [|b body].
  - (* the span cannot be a closing brace alone *)
    exfalso. cbn [app] in Hr. subst r. cbn [app] in Hpost.
    injection Hpost as Hb _. discriminate Hb.
  - assert (Hb : b = lbrace).
    { rewrite Hr in Hpost. cbn [app] in Hpost. injection Hpost as Hb _.
      symmetry. exact Hb. }
    subst b. exists pre, body, post. split; [| split].
    + rewrite Hs, Hpost. reflexivity.
    + exact Hr.
    + intros Hin. rewrite List.Forall_forall in Hp. specialize (Hp _ Hin).
      rewrite chr_eqb_refl in Hp. discriminate.
Qed.

Lemma extract_is_span_witness :
  exists pre body post,
    js "Here you go: {'a': '}'} thanks" = pre ++ js "{'a': '}'}" ++ post /\
    js "{'a': '}'}" = lbrace :: body ++ [rbrace] /\
    ~ In lbrace pre.
Proof.
  apply (extract_is_span (js "Here you go: {'a': '}'} thanks") (js "{'a': '}'}")).
  vm_compute. reflexivity.
Defined.

End ExtractFacts.

(** ** main.py: one run of the pipeline *)
Module Pipeline.
Import PyStr Py.

(** [PipelineStatus], with the defaults of the class in [STATUS]. *)
Record PipelineStatus := {
  last_run : option pystr;
  last_result_count : option Z;
  phase : option pystr;
  ok : bool;
  error : option pystr;
  running : bool;
  runs_total : nat
}.

Definition STATUS : PipelineStatus :=
  {| last_run := None; last_result_count := None; phase := None; ok := true;
     error := None; running := false; runs_total := 0 |}.

Definition set_last_run (v : option pystr) (st : PipelineStatus) :=
  {| last_run := v; last_result_count := last_result_count st;
     phase := phase st; ok := ok st; error := error st;
     running := running st; runs_total := runs_total st |}.

Definition set_last_result_count (v : option Z) (st : PipelineStatus) :=
  {| last_run := last_run st; last_result_count := v;
     phase := phase st; ok := ok st; error := error st;
     running := running st; runs_total := runs_total st |}.

Definition set_phase (v : option pystr) (st : PipelineStatus) :=
  {| last_run := last_run st; last_result_count := last_result_count st;
     phase := v; ok := ok st; error := error st;
     running := running st; runs_total := runs_total st |}.

Definition set_ok (v : bool) (st : PipelineStatus) :=
  {| last_run := last_run st; last_result_count := last_result_count st;
     phase := phase st; ok := v; error := error st;
     running := running st; runs_total := runs_total st |}.

Definition set_error (v : option pystr) (st : PipelineStatus) :=
  {| last_run := last_run st; last_result_count := last_result_count st;
     phase := phase st; ok := ok st; error := v;
     running := running st; runs_total := runs_total st |}.

Definition set_running (v : bool) (st : PipelineStatus) :=
  {| last_run := last_run st; last_result_count := last_result_count st;
     phase := phase st; ok := ok st; error := error st;
     running := v; runs_total := runs_total st |}.

Definition set_runs_total (v : nat) (st : PipelineStatus) :=
  {| last_run := last_run st; last_result_count := last_result_count st;
     phase := phase st; ok := ok st; error := error st;
     running := running st; runs_total := v |}.

(** The body of the [try]: it reads and writes [STATUS] and may raise; an
    exception is kept as its message [str(e)]. *)
Definition M (A : Type) : Type :=
  PipelineStatus -> (pystr + A) * PipelineStatus.

Definition ret {A : Type} (a : A) : M A := fun st => (inr a, st).

Definition bind {A B : Type} (m : M A) (f : A -> M B) : M B :=
  fun st =>
    match m st with
    | (inr a, st') => f a st'
    | (inl e, st') => (inl e, st')
    end.

(** A call that returns or raises. *)
Definition call {A : Type} (r : pystr + A) : M A := fun st => (r, st).

(** A call made for its effect. *)
Definition check (r : option pystr) : M unit :=
  call (match r with Some e => inl e | None => inr tt end).

Definition assign (f : PipelineStatus -> PipelineStatus) : M unit :=
  fun st => (inr tt, f st).

Declare Scope pipeline_scope.
Delimit Scope pipeline_scope with pipeline.
Notation "x <- m ;; k" := (bind m (fun x => k))
  (at level 100, m at next level, k at level 200, right associativity)
  : pipeline_scope.
Notation "m ;; k" := (bind m (fun _ => k))
  (at level 100, k at level 200, right associativity) : pipeline_scope.
Local Open Scope pipeline_scope.

Section Run.

(** The items as fetched, after the filter, and once structured. *)
Variables Raw Unique Structured : Type.

(** What the stages and the disk do during one run: each call returns, or
    raises with a message. Failures to persist the state of the fetcher are
    logged and have no other effect. *)
Record world := {
  fetch_all : pystr + list Raw;
  clean_and_dedupe : list Raw -> pystr + list Unique;
  structure : list Unique -> pystr + list Structured;
  save : list Structured -> pystr + Z;
  save_raw_json : list Raw -> option pystr;
  save_unique_json : list Unique -> option pystr;
  save_structured_json : list Structured -> option pystr;
  utcnow_isoformat : pystr
}.

Definition try_body (save_intermediate : bool) (w : world) : M Z :=
  assign (set_running true) ;;
  assign (set_ok true) ;;
  assign (set_error None) ;;
  (* 1) fetch *)
  assign (set_phase (Some (str "fetch"))) ;;
  raw_items <- call (fetch_all w) ;;
  (if save_intermediate then check (save_raw_json w raw_items) else ret tt) ;;
  (* 2) filter + embed + dedupe *)
  assign (set_phase (Some (str "filter"))) ;;
  unique_items <- call (clean_and_dedupe w raw_items) ;;
  (if save_intermediate then check (save_unique_json w unique_items)
   else ret tt) ;;
  (* 3) structure (LLM) *)
  assign (set_phase (Some (str "structure"))) ;;
  structured <- call (structure w unique_items) ;;
  (if save_intermediate then check (save_structured_json w structured)
   else ret tt) ;;
  (* 4) save to DB (upsert) *)
  assign (set_phase (Some (str "db"))) ;;
  saved <- call (save w structured) ;;
  assign (set_last_run (Some (utcnow_isoformat w ++ str "Z"))) ;;
  assign (set_last_result_count (Some saved)) ;;
  assign (set_phase None) ;;
  assign (fun st => set_runs_total (S (runs_total st)) st) ;;
  ret saved.

(** [run_pipeline_once]: the value returned and [STATUS] afterwards. *)
Definition run_pipeline_once (save_intermediate : bool) (w : world)
    (st : PipelineStatus) : Z * PipelineStatus :=
  let '(r, st) := try_body save_intermediate w st in
  let '(v, st) :=
    match r with
    | inr saved => (saved, st)
    | inl e => (0%Z, set_phase None (set_error (Some e) (set_ok false st)))
    end in
  (v, set_running false st).

(** The runs the scheduler makes one after the other, each in the world of
    its time. *)
Definition scheduler_runs (ws : list world) (st : PipelineStatus)
  : PipelineStatus :=
  fold_left (fun st w => snd (run_pipeline_once true w st)) ws st.

End Run.

(** *** The stages of the repository

    [run_pipeline_once] hands the result of each stage to the next one: the
    items that [filter.clean_and_dedupe] returns are the input of
    [structurer.structure], whose result is the batch of [db_loader.save].
    [as_item] and [as_doc] are the readings the next stage makes of the same
    objects. The staging files the stages write are not modelled; that
    writing them can raise is. *)
Section Stages.

(* filter.py *)
Variable fromisoformat : pystr -> option Filter.datetime.
Variable clk : Filter.clock.
Variable negs : list pystr.
Variable embed : list Filter.item -> option (list Filter.vec).
Variable clock_reads : nat.
Variable filter_error : pystr.
Variable filter_files : option pystr.     (* writing the staging files raises *)
(* structurer.py *)
Variable json_loads : pystr -> option json.
Variable disk_ok : bool.
Variable call_gemini : nat -> Structurer.item -> pystr.
Variable normalize : Structurer.item -> json -> pystr + json.
Variable requests_made : nat.
Variable client_error : option pystr.    (* [_get_client()] raises *)
Variable structure_files : option pystr. (* writing the artifacts raises *)
Variable as_item : Filter.item -> Structurer.item.
(* db_loader.py *)
Variable env : DbLoader.env.
Variable store : DbLoader.stores.
Variable save_error : pystr.
Variable as_doc : json -> gmap string DbLoader.value.
(* the fetcher, the disk and the clock *)
Variable fetched : pystr + list Filter.item.
Variable disk_raw : list Filter.item -> option pystr.
Variable disk_unique : list Filter.item -> option pystr.
Variable disk_structured : list json -> option pystr.
Variable now : pystr.

Definition filter_stage (raw_items : list Filter.item)
  : pystr + list Filter.item :=
  match FilterStage.clean_and_dedupe fromisoformat clk negs embed raw_items
          clock_reads with
  | Some unique_items =>
      match filter_files with
      | Some e => inl e
      | None => inr unique_items
      end
  | None => inl filter_error
  end.

Definition structure_stage (unique_items : list Filter.item)
  : pystr + list json :=
  match unique_items with
  | [] =>
      match structure_files with
      | Some e => inl e
      | None => inr []
      end
  | _ :: _ =>
      match client_error with
      | Some e => inl e
      | None =>
          match structure_files with
          | Some e => inl e
          | None =>
              inr (Structurer.structured
                     (Structurer.structure json_loads disk_ok call_gemini
                        normalize (map as_item unique_items) requests_made))
          end
      end
  end.

Definition save_stage (structured : list json) : pystr + Z :=
  match DbLoader.result (DbLoader.save env store (map as_doc structured)) with
  | DbLoader.Returned n => inr (Z.of_nat n)
  | DbLoader.Raised => inl save_error
  end.

Definition stages : world Filter.item Filter.item json :=
  {| fetch_all := fetched;
     clean_and_dedupe := filter_stage;
     structure := structure_stage;
     save := save_stage;
     save_raw_json := disk_raw;
     save_unique_json := disk_unique;
     save_structured_json := disk_structured;
     utcnow_isoformat := now |}.

End Stages.

End Pipeline.

Module PipelineFacts.
Import PyStr Py Pipeline.

Section Runs.

Variables Raw Unique Structured : Type.

Abbreviation world := (world Raw Unique Structured).

Definition guard (r : option pystr) (k : pystr + Z) : pystr + Z :=
  match r with Some e => inl e | None => k end.

(** What a run comes to, leaving [STATUS] aside: the number saved, or the
    message of the first call that raises. *)
Definition outcome (save_intermediate : bool) (w : world) : pystr + Z :=
  match fetch_all _ _ _ w with
  | inl e => inl e
  | inr raw_items =>
      guard (if save_intermediate then save_raw_json _ _ _ w raw_items else None)
        match clean_and_dedupe _ _ _ w raw_items with
        | inl e => inl e
        | inr unique_items =>
            guard (if save_intermediate
                   then save_unique_json _ _ _ w unique_items else None)
              match structure _ _ _ w unique_items with
              | inl e => inl e
              | inr structured =>
                  guard (if save_intermediate
                         then save_structured_json _ _ _ w structured else None)
                    (save _ _ _ w structured)
              end
        end
  end.

Definition after_success (w : world) (saved : Z) (st : PipelineStatus)
  : PipelineStatus :=
  {| last_run := Some (utcnow_isoformat _ _ _ w ++ str "Z");
     last_result_count := Some saved; phase := None; ok := true;
     error := None; running := false; runs_total := S (runs_total st) |}.

Definition after_failure (e : pystr) (st : PipelineStatus) : PipelineStatus :=
  {| last_run := last_run st; last_result_count := last_result_count st;
     phase := None; ok := false; error := Some e; running := false;
     runs_total := runs_total st |}.

Lemma run_cases (save_intermediate : bool) (w : world) (st : PipelineStatus) :
  run_pipeline_once _ _ _ save_intermediate w st =
    match outcome save_intermediate w with
    | inr saved => (saved, after_success w saved st)
    | inl e => (0%Z, after_failure e st)
    end.
Proof.
  unfold run_pipeline_once, try_body, outcome, guard, bind, assign, call, check,
    ret.
  destruct (fetch_all _ _ _ w) as [e | raw]; [reflexivity |].
  destruct save_intermediate.
  - destruct (save_raw_json _ _ _ w raw); [reflexivity |].
    destruct (clean_and_dedupe _ _ _ w raw) as [e | unique]; [reflexivity |].
    destruct (save_unique_json _ _ _ w unique); [reflexivity |].
    destruct (structure _ _ _ w unique) as [e | structured]; [reflexivity |].
    destruct (save_structured_json _ _ _ w structured); [reflexivity |].
    destruct (save _ _ _ w structured); reflexivity.
  - destruct (clean_and_dedupe _ _ _ w raw) as [e | unique]; [reflexivity |].
    destruct (structure _ _ _ w unique) as [e | structured]; [reflexivity |].
    destruct (save _ _ _ w structured); reflexivity.
Qed.


Definition succeeded (w : world) : bool :=
  match outcome true w with inr _ => true | inl _ => false end.

(** The result of the last run of [ws] that succeeded, if any. *)
Definition last_saved (ws : list world) : option Z :=
  fold_left (fun acc w => match outcome true w with
                          | inr saved => Some saved
                          | inl _ => acc
                          end) ws None.

Lemma scheduler_runs_from (ws : list world) (st : PipelineStatus) :
  runs_total (scheduler_runs _ _ _ ws st)
    = (runs_total st + length (List.filter succeeded ws))%nat /\
  last_result_count (scheduler_runs _ _ _ ws st)
    = fold_left (fun acc w => match outcome true w with
                              | inr saved => Some saved
                              | inl _ => acc
                              end) ws (last_result_count st).
Proof.
  revert st. induction ws as [|w ws IH]; intros st.
  - cbn. split; [lia | reflexivity].
  - change (scheduler_runs Raw Unique Structured (w :: ws) st)
      with (scheduler_runs Raw Unique Structured ws
              (snd (run_pipeline_once Raw Unique Structured true w st))).
    cbn [fold_left List.filter]. rewrite run_cases. unfold succeeded at 1.
    destruct (outcome true w) as [e | saved]; cbn [snd].
    + destruct (IH (after_failure e st)) as [H1 H2]. rewrite H1, H2.
      cbn [runs_total last_result_count after_failure]. split; [lia | reflexivity].
    + destruct (IH (after_success w saved st)) as [H1 H2]. rewrite H1, H2.
      cbn [runs_total last_result_count after_success length].
      split; [lia | reflexivity].
Qed.

(** X15. [STATUS] over the runs of the scheduler, whatever the stages do:
    [runs_total] counts the runs that succeeded, and only those; a run that
    fails returns 0, sets [ok] to false with the message of the exception
    and leaves [last_run] and [last_result_count] as the last run that
    succeeded left them; after every run [running] is false and [phase] is
    empty. *)
Theorem scheduler_status (ws : list world) (w : world) :
  let before := scheduler_runs _ _ _ ws STATUS in
  let '(saved, st) := run_pipeline_once _ _ _ true w before in
  runs_total before = length (List.filter succeeded ws) /\
  last_result_count before = last_saved ws /\
  running st = false /\ phase st = None /\
  match outcome true w with
  | inr n =>
      saved = n /\ ok st = true /\ error st = None /\
      runs_total st = S (runs_total before) /\
      last_result_count st = Some n
  | inl e =>
      saved = 0%Z /\ ok st = false /\ error st = Some e /\
      runs_total st = runs_total before /\
      last_result_count st = last_result_count before /\
      last_run st = last_run before
  end.
Proof.
  intros before. subst before.
  destruct (scheduler_runs_from ws STATUS) as [H1 H2].
  rewrite run_cases.
  destruct (outcome true w) as [e | n]; cbn [running phase ok error runs_total
    last_result_count last_run after_failure after_success];
    repeat split; try assumption.
Qed.

End Runs.

End PipelineFacts.

Module PipelineBound.
Import PyStr Py Pipeline PipelineFacts.





Section Bound.

Variable fromisoformat : pystr -> option Filter.datetime.
Variable clk : Filter.clock.
Variable negs : list pystr.
Variable embed : list Filter.item -> option (list Filter.vec).
Variable clock_reads : nat.
Variable filter_error : pystr.
Variable filter_files : option pystr.
Variable json_loads : pystr -> option json.
Variable disk_ok : bool.
Variable call_gemini : nat -> Structurer.item -> pystr.
Variable normalize : Structurer.item -> json -> pystr + json.
Variable requests_made : nat.
Variable client_error : option pystr.
Variable structure_files : option pystr.
Variable as_item : Filter.item -> Structurer.item.
Variable env : DbLoader.env.
Variable store : DbLoader.stores.
Variable save_error : pystr.
Variable as_doc : json -> gmap string DbLoader.value.
Variable disk_raw : list Filter.item -> option pystr.
Variable disk_unique : list Filter.item -> option pystr.
Variable disk_structured : list json -> option pystr.
Variable now : pystr.



End Bound.

End PipelineBound.

(** *** A run of the sample feed *)
Module PipelineRun.
Import PyStr Py Pipeline PipelineFacts.

Definition as_item (it : Filter.item) : Structurer.item :=
  {| Structurer.it_id := Filter.it_id it;
     Structurer.it_title := Filter.it_title it;
     Structurer.it_body := None;
     Structurer.it_source := Filter.it_source it;
     Structurer.it_url := Filter.it_url it;
     Structurer.it_published_at := Filter.published_at it;
     Structurer.it_fetched_at := Filter.fetched_at it |}.

Definition sample_world (reply : pystr) : world Filter.item Filter.item json :=
  stages Filter.fromisoformat_basic (fun _ => 0%Z) Filter.NEG_TITLE_KEYWORDS
    DedupeMore.feed_embed 0 (str "filter failed") None
    Structurer.json_loads_basic true (fun _ _ => reply) (fun _ obj => inr obj)
    0 None None as_item SaveFacts.env_ok DbLoaderFacts.no_documents
    (str "save failed") (fun _ => DbLoaderFacts.article)
    (inr FilterStageFacts.feed) (fun _ => None) (fun _ => None) (fun _ => None)
    (str "2024-05-01T10:00:00").

(** Five items are fetched, two pass the title filter, one of them is a
    duplicate of the other: one article is stored. When the generator only
    talks, nothing is stored and the run still succeeds. *)
Example sample_run :
  run_pipeline_once _ _ _ true (sample_world (Structurer.js "{'title': 'ok'}"))
    STATUS
  = (1%Z, {| last_run := Some (str "2024-05-01T10:00:00Z");
             last_result_count := Some 1%Z; phase := None; ok := true;
             error := None; running := false; runs_total := 1 |}) /\
  run_pipeline_once _ _ _ true (sample_world (str "sorry")) STATUS
  = (0%Z, {| last_run := Some (str "2024-05-01T10:00:00Z");
             last_result_count := Some 0%Z; phase := None; ok := true;
             error := None; running := false; runs_total := 1 |}).
Proof. split; vm_compute; reflexivity. Qed.

End PipelineRun.

(** ** filter.py: the text that is embedded *)
Module CleanText.
Import PyStr.


Definition SKIP_PHRASES_BODY : list pystr :=
  map str
    [ "also read"; "read more"; "subscribe"; "advertisement"; "follow us";
      "sign up"; "login"; "unlock"; "premium"; "download the app";
      "Add as a Reliable and Trusted News Source" ]%string.

(** [re.sub(r"\s+", " ", text)]: every maximal run of white space becomes
    one blank. [in_run] is set inside such a run. *)
Fixpoint collapse_from (in_run : bool) (text : pystr) : pystr :=
  match text with
  | [] => []
  | c :: rest =>
      if is_space c
      then if in_run then collapse_from true rest
           else " "%char :: collapse_from true rest
      else c :: collapse_from false rest
  end.

Definition collapse (text : pystr) : pystr := collapse_from false text.

(** [re.sub(re.escape(s), " ", text, flags=re.IGNORECASE)] for a phrase [s]
    that is not empty: the occurrences of [s] whatever their case, from the
    left and without overlap, become a blank. The fuel is the length of the
    text. *)
Fixpoint isub_fuel (fuel : nat) (s text : pystr) : pystr :=
  match fuel with
  | O => text
  | S fuel' =>
      match text with
      | [] => []
      | c :: rest =>
          if startswith (lower s) (lower text)
          then " "%char :: isub_fuel fuel' s (skipn (length s) text)
          else c :: isub_fuel fuel' s rest
      end
  end.

Definition isub (s text : pystr) : pystr := isub_fuel (length text) s text.

(** [clean_text]; on ASCII text the NFKC normal form is the text itself. *)
Definition clean_text (text : pystr) : pystr :=
  if negb (truthy text) then []
  else
    let text := strip (collapse text) in
    let text := fold_left (fun text s => isub s text) SKIP_PHRASES_BODY text in
    strip (collapse text).


End CleanText.

Module CleanTextFacts.
Import PyStr PyStrFacts CleanText.













(** The phrases are taken out one after the other, so the result may hold a
    phrase that taking out a later one has put together; cleaning it again
    then changes it. *)
Example clean_text_twice :
  clean_text (str "Read" ++ [ascii_of_N 10] ++ str " Login more ")
    = str "Read more" /\
  clean_text (str "Read more") = [] /\
  clean_text (str "Shares  rally." ++ [ascii_of_N 9] ++ str "Also Read: markets")
    = str "Shares rally. : markets".
Proof. vm_compute. repeat split. Qed.







End CleanTextFacts.

(** ** The audit records of the duplicate detector *)
Module DedupeAudit.
Import PyStr Filter PyStrFacts DedupeFacts DedupeMore.

Local Open Scope Q_scope.

(** A record made of [it] against the kept item at position [j]. *)
Definition attributed (thr : Q) (kept : list item) (keptE : list vec)
    (seen : list (item * vec)) (d : dupe) : Prop :=
  exists it e j canon ce,
    In (it, e) seen /\ nth_error kept j = Some canon /\
    nth_error keptE j = Some ce /\
    d = mk_dupe it canon (dot ce e) /\ thr <= dot ce e.

Lemma attributed_grow thr kept keptE seen d kept' keptE' seen' :
  attributed thr kept keptE seen d ->
  attributed thr (kept ++ kept') (keptE ++ keptE') (seen ++ seen') d.
Proof.
  intros [it [e [j [canon [ce [Hin [Hk [He [Hd Hthr]]]]]]]]].
  exists it, e, j, canon, ce. repeat split; try assumption.
  - apply in_or_app. left. exact Hin.
  - rewrite nth_error_app1; [exact Hk | apply nth_error_Some; congruence].
  - rewrite nth_error_app1; [exact He | apply nth_error_Some; congruence].
Qed.

Lemma scan_attributed_from (thr : Q) (order : list (item * vec))
    (st : scan_state) (seen : list (item * vec)) :
  (let '(kept, keptE, dupes) := st in
   length kept = length keptE /\
   Forall (attributed thr kept keptE seen) dupes) ->
  let '(kept, keptE, dupes) := fold_left (scan_step thr) order st in
  length kept = length keptE /\
  Forall (attributed thr kept keptE (seen ++ order)) dupes.
Proof.
  revert st seen. induction order as [|[it e] order IH]; intros st seen H.
  - cbn [fold_left]. rewrite app_nil_r. exact H.
  - cbn [fold_left]. destruct st as [[kept keptE] dupes].
    destruct H as [Hlen Hall].
    replace (seen ++ (it, e) :: order) with ((seen ++ [(it, e)]) ++ order)
      by (rewrite <- app_assoc; reflexivity).
    apply IH.
    destruct keptE as [|v keptE].
    + destruct kept; [| discriminate]. cbn [scan_step app length].
      split; [reflexivity |].
      eapply List.Forall_impl; [| exact Hall]. intros d Hd.
      apply (attributed_grow thr [] [] seen d [it] [e] [(it, e)] Hd).
    + destruct (scan_step_later thr kept (v :: keptE) dupes it e)
        as [j [canon [mx [Hk [Hs [_ [_ Estep]]]]]]]; [discriminate | exact Hlen |].
      rewrite Estep. destruct (Qle_bool thr mx) eqn:Hle.
      * split; [exact Hlen |]. apply Forall_app. split.
        -- eapply List.Forall_impl; [| exact Hall]. intros d Hd.
           pose proof (attributed_grow thr kept (v :: keptE) seen d [] []
                         [(it, e)] Hd) as G.
           rewrite !app_nil_r in G. exact G.
        -- constructor; [| constructor].
           unfold sims in Hs. rewrite nth_error_map in Hs.
           destruct (nth_error (v :: keptE) j) as [ce|] eqn:Hce;
             [| discriminate].
           injection Hs as <-.
           exists it, e, j, canon, ce. repeat split; try assumption.
           ++ apply in_or_app. right. left. reflexivity.
           ++ apply Qle_bool_iff, Hle.
      * split; [rewrite !length_app, Hlen; reflexivity |].
        eapply List.Forall_impl; [| exact Hall]. intros d Hd.
        apply (attributed_grow thr kept (v :: keptE) seen d [it] [e]
                 [(it, e)] Hd).
Qed.

Lemma scan_attributed (thr : Q) (order : list (item * vec)) :
  let '(kept, keptE, dupes) := scan thr order in
  Forall (attributed thr kept keptE order) dupes.
Proof.
  pose proof (scan_attributed_from thr order ([], [], []) []) as H.
  unfold scan. destruct (fold_left (scan_step thr) order ([], [], []))
    as [[kept keptE] dupes].
  apply H. split; [reflexivity | constructor].
Qed.

(** X19. Every audit record points to an article that survives: whenever
    [greedy_dedupe] returns, each record in [dupes] describes an item of the
    input (its id, title and url), and its [duplicate_of] and
    [duplicate_of_title] are the id and the title of one of the kept items
    that are returned, never of another duplicate; the similarity it
    reports is the rounding of one that reaches the threshold. *)
Theorem duplicates_point_to_kept fi clk (items : list item) (embs : list vec)
    (thr : Q) (n : nat) (kept : list item) (dupes : list dupe) :
  greedy_dedupe fi clk items embs thr n = Some (kept, dupes) ->
  Forall (fun d =>
            exists canon it mx,
              In canon kept /\ In it items /\
              duplicate_of d = it_id canon /\
              duplicate_of_title d = it_title canon /\
              d_id d = it_id it /\ d_title d = it_title it /\
              d_url d = it_url it /\
              cosine_similarity d = round4 mx /\ thr <= mx) dupes.
Proof.
  unfold greedy_dedupe, evaluation_order. intros E.
  destruct (length items <=? length embs)%nat; [| discriminate].
  destruct (sorted_by _ _) as [order|] eqn:Es; [| discriminate].
  apply sorted_by_perm in Es. fold (stamped fi clk items embs n) in Es.
  pose proof (scan_attributed thr (map snd order)) as H.
  destruct (scan thr (map snd order)) as [[kept0 keptE] dupes0].
  injection E as <- <-.
  eapply List.Forall_impl; [| exact H].
  intros d [it [e [j [canon [ce [Hin [Hk [_ [-> Hthr]]]]]]]]].
  apply in_map_iff in Hin. destruct Hin as [x [Hx Hin]].
  apply (Permutation_in x (Permutation_sym Es)) in Hin.
  destruct (stamped_item fi clk items embs n x Hin) as [it0 [Hi0 Hc]].
  rewrite Hx in Hc. cbn [fst] in Hc.
  exists (clear canon), it0, (dot ce e). repeat split.
  - apply in_map. eapply nth_error_In, Hk.
  - exact Hi0.
  - cbn. apply (f_equal it_id) in Hc. exact Hc.
  - cbn. apply (f_equal it_title) in Hc. exact Hc.
  - cbn. apply (f_equal it_url) in Hc. exact Hc.
  - exact Hthr.
Qed.

Lemma duplicates_point_to_kept_witness :
  Forall (fun d =>
            exists canon it mx,
              In canon [item_a] /\ In it [item_b; item_a] /\
              duplicate_of d = it_id canon /\
              duplicate_of_title d = it_title canon /\
              d_id d = it_id it /\ d_title d = it_title it /\
              d_url d = it_url it /\
              cosine_similarity d = round4 mx /\ SIM_THRESHOLD <= mx)
         [mk_dupe item_b item_a (7 # 10)].
Proof.
  apply (duplicates_point_to_kept fromisoformat_basic (fun _ => 0%Z)
           [item_b; item_a] [unit_70; unit_x] SIM_THRESHOLD 0).
  vm_compute. reflexivity.
Defined.

End DedupeAudit.
